(** * Polymarket copy-trader: the fill synchronisation and order mirroring pipeline

    A shallow embedding of [electron/main/gamma.ts] (GammaClient),
    [electron/main/polymarket.ts] (PolymarketClient),
    [electron/main/copyTrader.ts] (CopyTraderService), the construction of
    the service in the ['copytrader:start'] IPC handler, and the
    configuration setters of the backend [HighPerformanceCopyTrader];
    further the ['copytrader:accessStatus'] handler, the data API part
    of ['copytrader:test'], and of the backend engine [chunkArray],
    [processTrade], [processBatch] and [updateMetrics].

    Asynchronous code is embedded sequentially: every [await] is a call
    into the outside world, which is an explicit state [W] threaded
    through the program together with a trace of what was done. An
    operation of the service runs to its end before the next one begins;
    ticks that overlap in time are outside the model. *)

From Stdlib Require Import QArith Qminmax Qround Lqa.
From stdpp Require Import gmap strings list pretty.

Set Warnings "-register-all".

(** ** JavaScript values *)

Module Js.

(** A JavaScript number. Finite doubles are idealised as rationals (no
    rounding, no infinities); [NaN] is kept because [Number(x)] and
    [parseFloat] produce it and arithmetic propagates it. *)
Inductive number := NaN | Num (q : Q).

(** [a * b] *)
Definition mul (a b : number) : number :=
  match a, b with
  | Num x, Num y => Num (x * y)
  | _, _ => NaN
  end.

(** [a / d] for a non-zero literal [d]. *)
Definition div_lit (a : number) (d : Q) : number :=
  match a with
  | Num x => Num (x / d)
  | NaN => NaN
  end.

(** [Math.max(a, b)] and [Math.min(a, b)]: NaN if either argument is. *)
Definition Math_max (a b : number) : number :=
  match a, b with
  | Num x, Num y => Num (Qmax x y)
  | _, _ => NaN
  end.

Definition Math_min (a b : number) : number :=
  match a, b with
  | Num x, Num y => Num (Qmin x y)
  | _, _ => NaN
  end.

(** Truthiness of a number, as in [n ? a : b]. *)
Definition truthy_number (n : number) : bool :=
  match n with
  | NaN => false
  | Num q => negb (Qeq_bool q 0)
  end.

(** What a property read that is typed [number] can yield at run time
    when the object is a plain [{}] used as a map: a number, or a member
    that the object inherits from [Object.prototype] (a function, or the
    prototype itself under ["__proto__"]). Neither is [null] nor
    [undefined]. *)
Inductive slot := Numeric (n : number) | Inherited.

(** ToNumber, as [Math.max] and [/] apply it to an operand: a function or
    a plain object converts to NaN. *)
Definition slot_number (v : slot) : number :=
  match v with
  | Numeric n => n
  | Inherited => NaN
  end.

(** Truthiness, as in [v ? a : b]: functions and objects are truthy. *)
Definition truthy_slot (v : slot) : bool :=
  match v with
  | Numeric n => truthy_number n
  | Inherited => true
  end.

(** [lo <= n <= hi]; false for NaN, as every comparison with NaN is. *)
Definition in_range (lo hi : Q) (n : number) : Prop :=
  match n with
  | NaN => False
  | Num q => (lo <= q)%Q ∧ (q <= hi)%Q
  end.

(** A value as [JSON.parse] (axios) delivers it, plus [undefined]. An
    object is its list of own properties; keys are unique. *)
Inductive value :=
| VUndefined
| VNull
| VBool (b : bool)
| VNumber (n : number)
| VString (s : string)
| VArray (items : list value)
| VObject (props : list (string * value)).

Definition nullish (v : value) : bool :=
  match v with
  | VUndefined | VNull => true
  | _ => false
  end.

(** [a ?? b] *)
Definition coalesce (a b : value) : value :=
  if nullish a then b else a.

Fixpoint assoc (k : string) (props : list (string * value)) : value :=
  match props with
  | [] => VUndefined
  | (k', v) :: rest => if String.eqb k k' then v else assoc k rest
  end.

(** [v.k] for a [v] that is neither null nor undefined, and a key [k]
    that no prototype defines (every key read by this program is such a
    key): the own property of an object, [undefined] on anything else. *)
Definition prop (v : value) (k : string) : value :=
  match v with
  | VObject props => assoc k props
  | _ => VUndefined
  end.

(** [v?.k] *)
Definition opt_prop (v : value) (k : string) : value :=
  if nullish v then VUndefined else prop v k.

(** Truthiness, as in [!v]. *)
Definition truthy (v : value) : bool :=
  match v with
  | VUndefined | VNull => false
  | VBool b => b
  | VNumber n => truthy_number n
  | VString s => negb (String.eqb s "")
  | VArray _ | VObject _ => true
  end.

(** [v === s] for a string literal [s]. *)
Definition strict_eq_string (v : value) (s : string) : bool :=
  match v with
  | VString s' => String.eqb s' s
  | _ => false
  end.

(** What can be thrown: [Error] objects made by this program, the
    runtime's [TypeError]s, the [AxiosError]s of a failed request, and
    errors raised inside the venue libraries. All carry a [message]. *)
Inductive exn :=
| Error (message : string)
| TypeError (message : string)
| AxiosError (message : string)
| LibraryError (message : string).

(** [err instanceof Error ? err.message : String(err)] *)
Definition exn_message (e : exn) : string :=
  match e with
  | Error m | TypeError m | AxiosError m | LibraryError m => m
  end.

(** The conversions of the JavaScript runtime that the program relies
    on; they belong to the language, not to the repository. They are
    meant for primitives, where they always return; what [String] and
    [Number] do with an object that overrides [toString] or [valueOf]
    (they may throw) is not part of the class. *)
Class Builtins := {
  (** a number inside a template literal *)
  number_toString : number → string;
  (** [String(v)], [v.toString()] and [v] inside a template literal *)
  to_String : value → string;
  (** [Number(v)] *)
  to_Number : value → number;
  (** [s.toUpperCase()] *)
  toUpperCase : string → string
}.

(** [s.replace(/\/$/, '')]: drop one trailing slash. *)
Fixpoint strip_trailing_slash (s : string) : string :=
  match s with
  | EmptyString => EmptyString
  | String c EmptyString => if Ascii.eqb c (Ascii.ascii_of_nat 47) then EmptyString else s
  | String c rest => String c (strip_trailing_slash rest)
  end.

End Js.

(** ** Data exchanged between the components *)

Inductive Side := buy | sell.

Definition Side_eqb (a b : Side) : bool :=
  match a, b with
  | buy, buy | sell, sell => true
  | _, _ => false
  end.

(** The text of a side inside a template literal. *)
Definition Side_text (s : Side) : string :=
  match s with buy => "buy" | sell => "sell" end.

(** [interface GammaFill] of gamma.ts. [timestamp] is in milliseconds and
    is always finite: [fetchFillsByAddress] substitutes [Date.now()] for a
    NaN or zero reading. *)
Module GammaFill.
Record t := {
  id : string;
  marketId : string;
  outcomeId : string;
  side : Side;
  price : Js.number;
  size : Js.number;
  timestamp : Q;
  txHash : Js.value;
  outcomeIndex : option Js.number
}.
End GammaFill.

(** [interface MirrorOrderRequest] of polymarket.ts. *)
Module MirrorOrderRequest.
Record t := {
  marketId : string;
  outcomeId : string;
  side : Side;
  price : Js.number;
  size : Js.number;
  outcomeIndex : option Js.number
}.
End MirrorOrderRequest.

(** [interface ExecutionSettings] of polymarket.ts. *)
Module ExecutionSettings.
Record t := {
  rpcUrl : string;
  maxSlippageBps : Js.number;
  dryRun : bool;
  clobBaseUrl : option string;
  clobApiKey : option string;
  apiCreds : option Js.value
}.
End ExecutionSettings.

Inductive ExecutionMode := percent | fixed.

(** [interface CopySettings] of copyTrader.ts; the payload of
    ['copytrader:start'] has the same fields plus [clobBaseUrl]. *)
Module CopySettings.
Record t := {
  gammaBaseUrl : string;
  rpcUrl : string;
  targetAddresses : list string;
  copyFactor : Js.number;
  maxSlippageBps : Js.number;
  dryRun : bool;
  pollIntervalMs : Js.number;
  executionMode : ExecutionMode;
  fixedSize : Js.number;
  sellAllOnSell : bool;
  clobBaseUrl : option string
}.
End CopySettings.

(** ** The outside world *)

Module Effects.

(** [axios.get(url, { params, timeout, headers, validateStatus })] *)
Record GetRequest := {
  get_url : string;
  get_params : list (string * Js.value);
  get_timeout : Z;
  get_headers : list (string * string)
}.

(** What [axios.get] resolves to when every status is accepted
    ([validateStatus: () => true]). *)
Record Response := { data : Js.value; status : Z }.

(** [axios.post(url, body, { headers, timeout })] *)
Record PostRequest := {
  post_url : string;
  post_body : Js.value;
  post_headers : list (string * string);
  post_timeout : Z
}.

(** The argument of [ClobClient.createOrder]. *)
Record UserOrder := {
  tokenID : string;
  order_price : Js.number;
  order_side : Side;
  order_size : Js.number;
  feeRateBps : Z
}.

(** A call that leaves the process. *)
Inductive call :=
| AxiosGet (r : GetRequest)
| AxiosPost (r : PostRequest)
| ClobGetApiCreds
| ClobCreateOrDeriveApiCreds
| ClobSetApiCreds (creds : Js.value)
| ClobConfigure (creds : Js.value)
| ClobCreateOrder (o : UserOrder)
| ClobPostOrder (built : Js.value)
| SdkEnsureApprovals.

(** The lines the scheduler writes to the ['copytrader:log'] channel, one
    constructor per template literal of copyTrader.ts (an address is
    shown by its first six characters, [since] as a local time). *)
Inductive message :=
| MsgStarted (wallets : nat)
| MsgStopped
| MsgChecking (address : string) (since : Js.slot)
| MsgFound (trades : nat) (address : string)
| MsgNoNew
| MsgSimulated (address : string) (side : Side) (size price : Js.number)
| MsgMirrored (address : string) (side : Side) (size price : Js.number)
    (marketId outcomeId : string) (txHash : Js.value).

(** What an observer of the process sees, in order. [Submit] marks the
    call [this.mk.mirrorOrder(order)] of copyTrader.ts line 81 and records
    the fill and the address the order was computed from. *)
Inductive event :=
| Log (m : message)
| ErrorEvent (text : string)
| Submit (address : string) (f : GammaFill.t) (order : MirrorOrderRequest.t)
| Call (c : call).

(** The collaborators: the clock, axios, the [ClobClient] object and the
    optional SDK wallet client. A call either fails, with the message of
    the error it raises, or answers. A method that the installed library
    version does not have ([typeof m !== 'function']) is [None].
    [axios.get] is called with [validateStatus: () => true], so it fails
    only when no response arrives; [axios.post] also fails on a status
    outside 2xx. *)
Class Externals (W : Type) := {
  Date_now : W → Q * W;
  axios_get : GetRequest → W → (string + Response) * W;
  axios_post : PostRequest → W → (string + Js.value) * W;
  clob_getApiCreds : option (W → (string + Js.value) * W);
  clob_createOrDeriveApiCreds : option (W → (string + Js.value) * W);
  clob_setApiCreds : option (Js.value → W → (string + unit) * W);
  clob_configure : option (Js.value → W → (string + unit) * W);
  clob_createOrder : UserOrder → W → (string + Js.value) * W;
  clob_postOrder : Js.value → W → (string + Js.value) * W;
  sdk_ensureApprovals : option (W → (string + unit) * W)
}.

(** The world and the trace of what happened in it. *)
Record Env (W : Type) := { world : W; trace : list event }.
Arguments world {W} _.
Arguments trace {W} _.

(** Computations over a state [S] that may throw. A throw keeps the
    state reached so far: JavaScript has no rollback. *)
Definition M (S A : Type) : Type := S → (Js.exn + A) * S.

Definition ret {S A} (a : A) : M S A := fun s => (inr a, s).

Definition throw {S A} (e : Js.exn) : M S A := fun s => (inl e, s).

Definition bind {S A B} (m : M S A) (k : A → M S B) : M S B :=
  fun s =>
    match m s with
    | (inr a, s') => k a s'
    | (inl e, s') => (inl e, s')
    end.

(** [try { m } catch (err) { h err }] *)
Definition try_catch {S A} (m : M S A) (h : Js.exn → M S A) : M S A :=
  fun s =>
    match m s with
    | (inl e, s') => h e s'
    | (inr a, s') => (inr a, s')
    end.

Definition gets {S A} (f : S → A) : M S A := fun s => (inr (f s), s).

Definition modify {S} (f : S → S) : M S unit := fun s => (inr tt, f s).

Declare Scope js_scope.
Delimit Scope js_scope with js.
Notation "'let!' x ':=' m 'in' k" := (bind m (fun x => k))
  (at level 10, x name, m at level 100, k at level 200) : js_scope.
Notation "'do!' m 'in' k" := (bind m (fun _ => k))
  (at level 10, m at level 100, k at level 200) : js_scope.

(** Perform an external call: record it, then let the world answer; a
    failure is thrown as the kind of error [raise] makes. *)
Definition perform {W A} (c : call) (raise : string → Js.exn)
    (f : W → (string + A) * W) : M (Env W) A :=
  fun e =>
    let '(r, w') := f (world e) in
    (match r with inl msg => inl (raise msg) | inr a => inr a end,
     {| world := w'; trace := trace e ++ [Call c] |}).

Definition record {W} (ev : event) (e : Env W) : Env W :=
  {| world := world e; trace := trace e ++ [ev] |}.

Definition emit {W} (ev : event) : M (Env W) unit := modify (record ev).

(** [Date.now()]: reading the clock is not an event, but it may advance
    the world. *)
Definition now {W} `{Externals W} : M (Env W) Q :=
  fun e =>
    let '(t, w') := Date_now (world e) in
    (inr t, {| world := w'; trace := trace e |}).

(** [for (const x of xs) ...] collecting one result per element. *)
Fixpoint for_each {S A B} (f : A → M S B) (xs : list A) : M S (list B) :=
  match xs with
  | [] => ret []
  | x :: rest =>
      (let! y := f x in
       let! ys := for_each f rest in
       ret (y :: ys))%js
  end.

End Effects.

(** ** Fill Source: [class GammaClient] of gamma.ts *)

Module Gamma.
Import Effects.
Local Open Scope js_scope.

Record GammaClient := { baseUrl : string; apiKey : option string }.

(** [constructor(baseUrl, opts)] *)
Definition new (url : string) (key : option string) : GammaClient :=
  {| baseUrl := Js.strip_trailing_slash url; apiKey := key |}.

(** One candidate request shape. *)
Record Attempt := {
  url : string;
  params : list (string * Js.value);
  normalize : Js.value → Js.value
}.

(** [data?.fills ?? data ?? []] and [data?.trades ?? data ?? []] *)
Definition extract (key : string) (d : Js.value) : Js.value :=
  Js.coalesce (Js.coalesce (Js.opt_prop d key) d) (Js.VArray []).

(** [sinceMs ? Math.floor(sinceMs / 1000) : undefined]. The parameter is
    typed [number]; the scheduler passes what it read from its cursor
    object. [None] also stands for the result NaN (of NaN, or of an
    operand that is no number), which the spread below drops as it drops
    [undefined]. *)
Definition sinceSec (sinceMs : option Js.slot) : option Z :=
  match sinceMs with
  | Some v =>
      if Js.truthy_slot v then
        match Js.div_lit (Js.slot_number v) 1000 with
        | Js.Num q => Some (Qfloor q)
        | Js.NaN => None
        end
      else None
  | None => None
  end.

(** [...(sinceSec ? { since: sinceSec } : {})] *)
Definition since_param (s : option Z) : list (string * Js.value) :=
  match s with
  | Some z => if Z.eqb z 0 then [] else [("since", Js.VNumber (Js.Num (inject_Z z)))]
  | None => []
  end.

(** The ten candidates, in the order of the array literal. *)
Definition attempts (c : GammaClient) (address : string) (sinceMs : option Js.slot)
    (limit : Q) : list Attempt :=
  let since := since_param (sinceSec sinceMs) in
  let lim := ("limit", Js.VNumber (Js.Num limit)) in
  let by_address := ("address", Js.VString address) :: lim :: since in
  let by_wallet := ("walletAddress", Js.VString address) :: lim :: since in
  [ {| url := baseUrl c +:+ "/fills"; params := by_address; normalize := extract "fills" |};
    {| url := baseUrl c +:+ "/trades"; params := by_address; normalize := extract "trades" |};
    {| url := baseUrl c +:+ "/v1/trades"; params := by_address; normalize := extract "trades" |};
    {| url := baseUrl c +:+ "/v1/fills"; params := by_address; normalize := extract "fills" |};
    {| url := baseUrl c +:+ "/fills"; params := by_wallet; normalize := extract "fills" |};
    {| url := baseUrl c +:+ "/v1/trades"; params := by_address; normalize := extract "trades" |};
    {| url := baseUrl c +:+ "/v1/trades"; params := by_wallet; normalize := extract "trades" |};
    {| url := baseUrl c +:+ "/trades"; params := by_address; normalize := extract "trades" |};
    {| url := baseUrl c +:+ "/fills/address/" +:+ address; params := lim :: since;
       normalize := extract "fills" |};
    {| url := baseUrl c +:+ "/trades/wallet/" +:+ address; params := lim :: since;
       normalize := extract "trades" |} ].

(** The request axios sends for a candidate. *)
Definition request (c : GammaClient) (a : Attempt) : GetRequest :=
  {| get_url := url a;
     get_params := params a;
     get_timeout := 12000;
     get_headers :=
       ("User-Agent", "Mozilla/5.0 ElectronApp/1.0") ::
       match apiKey c with
       | Some k => if String.eqb k "" then [] else [("x-api-key", k)]
       | None => []
       end |}.

Definition unauthorized : Js.exn := Js.Error "Unauthorized (401) from data source".
Definition not_found : Js.exn := Js.Error "Not found (404)".

Section WithWorld.
Context {W : Type} `{Externals W} `{Js.Builtins}.

(** The callback of [raw.map]: one raw record to one [GammaFill].
    Reading a property of [null] or [undefined] throws. *)
Definition normalizeFill (f : Js.value) : M (Env W) GammaFill.t :=
  if Js.nullish f then
    throw (Js.TypeError "Cannot read properties of null or undefined")
  else
    let get := Js.prop f in
    let sideRaw :=
      Js.toUpperCase
        (Js.to_String (Js.coalesce (Js.coalesce (get "side") (get "action")) (Js.VString ""))) in
    let side :=
      if String.eqb sideRaw "SELL" || String.eqb sideRaw "sell" then sell else buy in
    let tsSec :=
      Js.to_Number (Js.coalesce (Js.coalesce (get "timestamp") (get "time")) (get "block_time")) in
    let! timestamp :=
      match tsSec with
      | Js.Num q => if Qeq_bool q 0 then now else ret (q * 1000)%Q
      | Js.NaN => now
      end in
    let composite :=
      Js.to_String (Js.coalesce (Js.coalesce (get "transactionHash") (get "txHash")) (Js.VString ""))
      +:+ "-" +:+
      Js.to_String (Js.coalesce (Js.coalesce (get "asset") (get "marketId")) (Js.VString "")) in
    ret {|
      GammaFill.id :=
        Js.to_String
          (Js.coalesce (Js.coalesce (Js.coalesce (get "id") (get "fillId")) (get "tradeId"))
             (Js.VString composite));
      GammaFill.marketId := Js.to_String (Js.coalesce (get "marketId") (Js.VString ""));
      GammaFill.outcomeId :=
        Js.to_String
          (Js.coalesce
             (Js.coalesce (Js.coalesce (Js.coalesce (get "asset") (get "outcomeId")) (get "outcome_id"))
                (get "outcomeIndex"))
             (Js.VString ""));
      GammaFill.side := side;
      GammaFill.price :=
        Js.to_Number
          (Js.coalesce (Js.coalesce (Js.coalesce (get "price") (get "fill_price")) (get "execution_price"))
             (Js.VNumber (Js.Num 0)));
      GammaFill.size :=
        Js.to_Number
          (Js.coalesce
             (Js.coalesce (Js.coalesce (Js.coalesce (get "size") (get "fill_amount")) (get "amount"))
                (get "execution_size"))
             (Js.VNumber (Js.Num 0)));
      GammaFill.timestamp := timestamp;
      GammaFill.txHash :=
        Js.coalesce
          (Js.coalesce (Js.coalesce (get "transactionHash") (get "txHash")) (get "transaction_hash"))
          Js.VUndefined;
      GammaFill.outcomeIndex :=
        match get "outcomeIndex" with
        | Js.VUndefined =>
            match get "outcome_index" with
            | Js.VUndefined => None
            | v => Some (Js.to_Number v)
            end
        | v => Some (Js.to_Number v)
        end
    |}.



(** [(raw as any[]).map(...)]: only an array has [map]. *)
Definition normalizeAll (raw : Js.value) : M (Env W) (list GammaFill.t) :=
  match raw with
  | Js.VArray items => for_each normalizeFill items
  | _ => throw (Js.TypeError "raw.map is not a function")
  end.

(** The body of the [try] block for one candidate. *)
Definition run_attempt (c : GammaClient) (a : Attempt) : M (Env W) (list GammaFill.t) :=
  let! r := perform (AxiosGet (request c a)) Js.AxiosError (axios_get (request c a)) in
  if Z.eqb (status r) 401 then throw unauthorized
  else if Z.eqb (status r) 404 then throw not_found
  else normalizeAll (normalize a (data r)).

(** The [for (const attempt of attempts)] loop and the final [throw]. *)
Fixpoint try_attempts (c : GammaClient) (candidates : list Attempt)
    (lastError : option Js.exn) : M (Env W) (list GammaFill.t) :=
  match candidates with
  | [] => throw (default (Js.Error "Unable to fetch fills") lastError)
  | a :: rest =>
      try_catch (run_attempt c a) (fun err => try_attempts c rest (Some err))
  end.

Definition fetchFillsByAddress (c : GammaClient) (address : string)
    (sinceMs : option Js.slot) (limit : Q) : M (Env W) (list GammaFill.t) :=
  try_attempts c (attempts c address sinceMs limit) None.

End WithWorld.
End Gamma.

(** ** Order Mirror: [class PolymarketClient] of polymarket.ts *)

Module Polymarket.
Import Effects.
Local Open Scope js_scope.

(** The fields of the object that its methods read. [sdk] and [clob]
    say whether the constructor obtained a wallet client of the optional
    SDK and a [ClobClient] ([this.sdk !== null], [this.clob !== undefined]). *)
Record PolymarketClient := {
  sdk : bool;
  dryRun : bool;
  maxSlippageBps : Js.number;
  clobBaseUrl : string;
  clobApiKey : option string;
  clob : bool
}.

(** [constructor(privateKey, settings)]. Whether the two library
    constructors succeed is decided outside the program; handing stored
    API credentials to the new [ClobClient] changes that object only,
    which is part of the world. *)
Definition new (settings : ExecutionSettings.t) (sdk_constructed clob_constructed : bool)
    : PolymarketClient :=
  {| sdk := sdk_constructed;
     dryRun := ExecutionSettings.dryRun settings;
     maxSlippageBps := ExecutionSettings.maxSlippageBps settings;
     clobBaseUrl :=
       Js.strip_trailing_slash
         (match ExecutionSettings.clobBaseUrl settings with
          | Some u => if String.eqb u "" then "https://clob.polymarket.com" else u
          | None => "https://clob.polymarket.com"
          end);
     clobApiKey := ExecutionSettings.clobApiKey settings;
     clob := clob_constructed |}.

Section WithWorld.
Context {W : Type} `{Externals W} `{Js.Builtins}.

Definition ensureApprovals (c : PolymarketClient) : M (Env W) unit :=
  if dryRun c then ret tt
  else if negb (sdk c) then ret tt
  else
    match sdk_ensureApprovals with
    | None => ret tt
    | Some approve => perform SdkEnsureApprovals Js.LibraryError approve
    end.

(** The token returned in dry-run mode. *)
Definition dry_run_token (order : MirrorOrderRequest.t) (slippage : Js.number) : string :=
  "dry-run:" +:+ MirrorOrderRequest.marketId order +:+ ":"
  +:+ MirrorOrderRequest.outcomeId order +:+ ":"
  +:+ Side_text (MirrorOrderRequest.side order) +:+ ":"
  +:+ Js.number_toString (MirrorOrderRequest.size order) +:+ "@"
  +:+ Js.number_toString (MirrorOrderRequest.price order) +:+ "~slip:"
  +:+ Js.number_toString slippage.

(** The last-resort request to [`${clobBaseUrl}/orders`]. *)
Definition fallback_request (c : PolymarketClient) (order : MirrorOrderRequest.t)
    (slippage : Js.number) : PostRequest :=
  {| post_url := clobBaseUrl c +:+ "/orders";
     post_body :=
       Js.VObject
         [ ("marketId", Js.VString (MirrorOrderRequest.marketId order));
           ("outcomeId", Js.VString (MirrorOrderRequest.outcomeId order));
           ("side", Js.VString (Side_text (MirrorOrderRequest.side order)));
           ("price", Js.VNumber (MirrorOrderRequest.price order));
           ("size", Js.VNumber (MirrorOrderRequest.size order));
           ("slippage", Js.VNumber slippage) ];
     post_headers :=
       ("Content-Type", "application/json") ::
       match clobApiKey c with
       | Some k => if String.eqb k "" then [] else [("x-api-key", k)]
       | None => []
       end;
     post_timeout := 15000 |}.

(** Lines 183-191: derive API credentials when the client has none. A
    failure of the derivation is swallowed. *)
Definition ensure_creds : M (Env W) unit :=
  let! existingCreds :=
    match clob_getApiCreds with
    | Some getter => perform ClobGetApiCreds Js.LibraryError getter
    | None => ret Js.VUndefined
    end in
  match clob_createOrDeriveApiCreds with
  | Some derive =>
      if Js.truthy existingCreds then ret tt
      else
        try_catch
          (let! creds := perform ClobCreateOrDeriveApiCreds Js.LibraryError derive in
           match clob_setApiCreds, clob_configure with
           | Some setter, _ => perform (ClobSetApiCreds creds) Js.LibraryError (setter creds)
           | None, Some configure => perform (ClobConfigure creds) Js.LibraryError (configure creds)
           | None, None => ret tt
           end)
          (fun _ => ret tt)
  | None => ret tt
  end.

(** The body of the outer [try] block of [mirrorOrder]. *)
Definition submit_live (c : PolymarketClient) (order : MirrorOrderRequest.t)
    (slippage : Js.number) : M (Env W) Js.value :=
  if negb (clob c) then
    let req := fallback_request c order slippage in
    let! tx := perform (AxiosPost req) Js.AxiosError (axios_post req) in
    ret (Js.coalesce (Js.coalesce (Js.opt_prop tx "hash") (Js.opt_prop tx "transactionHash"))
           (Js.VString "submitted"))
  else
    do! ensure_creds in
    let o := {| tokenID := MirrorOrderRequest.outcomeId order;
                order_price := MirrorOrderRequest.price order;
                order_side := MirrorOrderRequest.side order;
                order_size := MirrorOrderRequest.size order;
                feeRateBps := 0 |} in
    let! built := perform (ClobCreateOrder o) Js.LibraryError (clob_createOrder o) in
    let! resp := perform (ClobPostOrder built) Js.LibraryError (clob_postOrder built) in
    ret (Js.coalesce (Js.coalesce (Js.opt_prop resp "orderId") (Js.opt_prop resp "hash"))
           (Js.VString "submitted")).

Definition mirrorOrder (c : PolymarketClient) (order : MirrorOrderRequest.t)
    : M (Env W) Js.value :=
  let slippage := Js.div_lit (maxSlippageBps c) 10000 in
  if dryRun c then ret (Js.VString (dry_run_token order slippage))
  else
    try_catch (submit_live c order slippage)
      (fun err => throw (Js.Error ("Order failed: " +:+ Js.exn_message err))).

End WithWorld.
End Polymarket.

(** ** Scheduler: [class CopyTraderService] of copyTrader.ts *)

Module CopyTrader.
Import Effects.
Local Open Scope js_scope.

(** The object: its mutable fields, then the constructor's read-only
    parameters. [lastTimestampMsByAddress] is a plain object ([= {}]);
    the field holds its own properties. [seenFillIdsByAddress] is a
    [Map]; it holds for each address the one [Set] object that [tick]
    fetches, stores back and adds to, so an addition is visible through
    the map at once. *)
Record CopyTraderService := {
  running : bool;
  intervalId : option nat;
  lastTimestampMsByAddress : gmap string Js.number;
  seenFillIdsByAddress : gmap string (gset string);
  gamma : Gamma.GammaClient;
  mk : Polymarket.PolymarketClient;
  settings : CopySettings.t
}.

(** [new CopyTraderService(win, gamma, mk, settings)] *)
Definition new (g : Gamma.GammaClient) (m : Polymarket.PolymarketClient)
    (s : CopySettings.t) : CopyTraderService :=
  {| running := false; intervalId := None;
     lastTimestampMsByAddress := ∅; seenFillIdsByAddress := ∅;
     gamma := g; mk := m; settings := s |}.

Definition set_running (b : bool) (svc : CopyTraderService) : CopyTraderService :=
  {| running := b; intervalId := intervalId svc;
     lastTimestampMsByAddress := lastTimestampMsByAddress svc;
     seenFillIdsByAddress := seenFillIdsByAddress svc;
     gamma := gamma svc; mk := mk svc; settings := settings svc |}.

Definition set_intervalId (i : option nat) (svc : CopyTraderService) : CopyTraderService :=
  {| running := running svc; intervalId := i;
     lastTimestampMsByAddress := lastTimestampMsByAddress svc;
     seenFillIdsByAddress := seenFillIdsByAddress svc;
     gamma := gamma svc; mk := mk svc; settings := settings svc |}.

Definition set_last (m : gmap string Js.number) (svc : CopyTraderService)
    : CopyTraderService :=
  {| running := running svc; intervalId := intervalId svc;
     lastTimestampMsByAddress := m;
     seenFillIdsByAddress := seenFillIdsByAddress svc;
     gamma := gamma svc; mk := mk svc; settings := settings svc |}.

Definition set_seen (m : gmap string (gset string)) (svc : CopyTraderService)
    : CopyTraderService :=
  {| running := running svc; intervalId := intervalId svc;
     lastTimestampMsByAddress := lastTimestampMsByAddress svc;
     seenFillIdsByAddress := m;
     gamma := gamma svc; mk := mk svc; settings := settings svc |}.

(** The names under which a plain object finds a member of
    [Object.prototype] (V8, the engine of Electron). *)
Definition Object_prototype_names : list string :=
  [ "constructor"; "__defineGetter__"; "__defineSetter__"; "hasOwnProperty";
    "__lookupGetter__"; "__lookupSetter__"; "isPrototypeOf";
    "propertyIsEnumerable"; "toString"; "valueOf"; "__proto__";
    "toLocaleString" ].

(** [this.lastTimestampMsByAddress[address]]: the own property, else the
    member of [Object.prototype] of that name, else [undefined]. An
    address is any string: nothing between the input field of the window
    and the loop of [tick] checks it. *)
Definition read_last (svc : CopyTraderService) (address : string) : option Js.slot :=
  match lastTimestampMsByAddress svc !! address with
  | Some n => Some (Js.Numeric n)
  | None =>
      if bool_decide (address ∈ Object_prototype_names) then Some Js.Inherited else None
  end.

(** [this.lastTimestampMsByAddress[address] = n] for a number [n]: an own
    property is written or created, except under ["__proto__"], where
    the assignment reaches the setter of [Object.prototype], which
    ignores a number. *)
Definition write_last (address : string) (n : Js.number) (svc : CopyTraderService)
    : CopyTraderService :=
  match lastTimestampMsByAddress svc !! address with
  | None =>
      if bool_decide (address = "__proto__") then svc
      else set_last (<[address := n]> (lastTimestampMsByAddress svc)) svc
  | Some _ => set_last (<[address := n]> (lastTimestampMsByAddress svc)) svc
  end.

(** [this.lastTimestampMsByAddress[address] ?? 0] *)
Definition since_of (svc : CopyTraderService) (address : string) : Js.slot :=
  default (Js.Numeric (Js.Num 0)) (read_last svc address).

(** [this.seenFillIdsByAddress.get(address) ?? new Set<string>()] *)
Definition seen_of (svc : CopyTraderService) (address : string) : gset string :=
  default ∅ (seenFillIdsByAddress svc !! address).

(** [this.seenFillIdsByAddress.set(address, seen)] with the set just read. *)
Definition register_seen (address : string) (svc : CopyTraderService) : CopyTraderService :=
  set_seen (<[address := seen_of svc address]> (seenFillIdsByAddress svc)) svc.

(** [seen.add(id)] on the set stored for [address]. *)
Definition seen_add (address id : string) (svc : CopyTraderService) : CopyTraderService :=
  set_seen (<[address := {[id]} ∪ seen_of svc address]> (seenFillIdsByAddress svc)) svc.

(** Line 70: the cursor moves to [Math.max(cursor ?? 0, f.timestamp)]. *)
Definition advance (address : string) (timestamp : Q) (svc : CopyTraderService)
    : CopyTraderService :=
  write_last address (Js.Math_max (Js.slot_number (since_of svc address)) (Js.Num timestamp)) svc.

(** The batch of one tick. *)
Definition Aggregated : Type := list (GammaFill.t * string).

(** One turn of [for (const f of fills)], lines 65-71. *)
Definition observe_fill (address : string) (acc : CopyTraderService * Aggregated)
    (f : GammaFill.t) : CopyTraderService * Aggregated :=
  let '(svc, aggregated) := acc in
  let '(svc1, aggregated1) :=
    if bool_decide (GammaFill.id f ∈ seen_of svc address) then (svc, aggregated)
    else (seen_add address (GammaFill.id f) svc, aggregated ++ [(f, address)]) in
  (advance address (GammaFill.timestamp f) svc1, aggregated1).

Definition observe_fills (address : string) (fills : list GammaFill.t)
    (acc : CopyTraderService * Aggregated) : CopyTraderService * Aggregated :=
  fold_left (observe_fill address) fills acc.

(** Lines 79-80: the size of the mirrored order. *)
Definition mirror_size (s : CopySettings.t) (f : GammaFill.t) : Js.number :=
  let baseSize :=
    match CopySettings.executionMode s with
    | fixed => CopySettings.fixedSize s
    | percent => Js.mul (GammaFill.size f) (CopySettings.copyFactor s)
    end in
  if Side_eqb (GammaFill.side f) sell && CopySettings.sellAllOnSell s
  then Js.Num 1 else baseSize.

(** The argument of [this.mk.mirrorOrder] at lines 81-87. *)
Definition mirror_request (s : CopySettings.t) (f : GammaFill.t) : MirrorOrderRequest.t :=
  {| MirrorOrderRequest.marketId := GammaFill.marketId f;
     MirrorOrderRequest.outcomeId := GammaFill.outcomeId f;
     MirrorOrderRequest.side := GammaFill.side f;
     MirrorOrderRequest.price := GammaFill.price f;
     MirrorOrderRequest.size := mirror_size s f;
     MirrorOrderRequest.outcomeIndex := None |}.

(** The process: the service object, the world, and the interval timers
    armed by [setInterval] (identifier and period). *)
Record Sys (W : Type) := {
  service : CopyTraderService;
  env : Env W;
  timers : list (nat * Js.number);
  next_timer : nat
}.
Arguments service {W} _.
Arguments env {W} _.
Arguments timers {W} _.
Arguments next_timer {W} _.

Section WithWorld.
Context {W : Type} `{Externals W} `{Js.Builtins}.

Definition with_env (e : Env W) (s : Sys W) : Sys W :=
  {| service := service s; env := e; timers := timers s; next_timer := next_timer s |}.

Definition with_service (svc : CopyTraderService) (s : Sys W) : Sys W :=
  {| service := svc; env := env s; timers := timers s; next_timer := next_timer s |}.

(** A call into one of the two clients. *)
Definition lift {A} (m : M (Env W) A) : M (Sys W) A :=
  fun s => let '(r, e') := m (env s) in (r, with_env e' s).

(** An assignment to fields of [this]. *)
Definition update (f : CopyTraderService → CopyTraderService) : M (Sys W) unit :=
  modify (fun s => with_service (f (service s)) s).

(** [setInterval(callback, ms)]; the callback is always the guarded tick. *)
Definition setInterval (ms : Js.number) : M (Sys W) nat :=
  fun s =>
    (inr (next_timer s),
     {| service := service s; env := env s;
        timers := timers s ++ [(next_timer s, ms)];
        next_timer := S (next_timer s) |}).

Definition clearInterval (i : nat) : M (Sys W) unit :=
  modify (fun s =>
    {| service := service s; env := env s;
       timers := filter (fun t => t.1 ≠ i) (timers s);
       next_timer := next_timer s |}).

(** [this.win.webContents.send] on the two channels. The window is taken
    to be alive, so that [send] returns; what the methods do once the
    window is destroyed is outside this model. *)
Definition log (m : message) : M (Sys W) unit := lift (emit (Log m)).

Definition reportError (err : Js.exn) : M (Sys W) unit :=
  lift (emit (ErrorEvent (Js.exn_message err))).

(** One turn of [for (const address of this.settings.targetAddresses)],
    lines 53-71; [None] stands for the [continue] after a failed fetch. *)
Definition collect_address (address : string) (aggregated : Aggregated)
    : M (Sys W) Aggregated :=
  let! since := gets (fun s => since_of (service s) address) in
  do! update (register_seen address) in
  do! log (MsgChecking address since) in
  let! g := gets (fun s => gamma (service s)) in
  let! fetched :=
    try_catch
      (let! fills := lift (Gamma.fetchFillsByAddress g address (Some since) 50) in
       ret (Some fills))
      (fun err => do! reportError err in ret None) in
  match fetched with
  | None => ret aggregated
  | Some fills =>
      do! log (MsgFound (length fills) address) in
      let! svc := gets service in
      let '(svc', aggregated') := observe_fills address fills (svc, aggregated) in
      do! update (fun _ => svc') in
      ret aggregated'
  end.

Fixpoint collect (addresses : list string) (aggregated : Aggregated)
    : M (Sys W) Aggregated :=
  match addresses with
  | [] => ret aggregated
  | address :: rest =>
      let! aggregated' := collect_address address aggregated in
      collect rest aggregated'
  end.

(** One turn of [for (const { fill: f, address } of aggregated)],
    lines 79-92. *)
Definition submit_one (entry : GammaFill.t * string) : M (Sys W) unit :=
  let '(f, address) := entry in
  let! s := gets (fun s => settings (service s)) in
  let! m := gets (fun s => mk (service s)) in
  let size := mirror_size s f in
  let order := mirror_request s f in
  do! lift (emit (Submit address f order)) in
  let! txHash := lift (Polymarket.mirrorOrder m order) in
  if Js.strict_eq_string txHash "skipped:client-unavailable" then
    log (MsgSimulated address (GammaFill.side f) size (GammaFill.price f))
  else
    log (MsgMirrored address (GammaFill.side f) size (GammaFill.price f)
           (GammaFill.marketId f) (GammaFill.outcomeId f)
           (Js.coalesce txHash (Js.VString "ok"))).

Fixpoint submit_all (aggregated : Aggregated) : M (Sys W) unit :=
  match aggregated with
  | [] => ret tt
  | entry :: rest => do! submit_one entry in submit_all rest
  end.

Definition tick : M (Sys W) unit :=
  let! r := gets (fun s => running (service s)) in
  if negb r then ret tt
  else
    let! addresses := gets (fun s => CopySettings.targetAddresses (settings (service s))) in
    let! aggregated := collect addresses [] in
    match aggregated with
    | [] => log MsgNoNew
    | _ :: _ =>
        let! m := gets (fun s => mk (service s)) in
        do! lift (Polymarket.ensureApprovals m) in
        submit_all aggregated
    end.

(** [this.tick().catch(err => this.reportError(err))] *)
Definition tick_guarded : M (Sys W) unit := try_catch tick reportError.

Definition start : M (Sys W) unit :=
  let! r := gets (fun s => running (service s)) in
  if r then ret tt
  else
    do! update (set_running true) in
    let! ms := gets (fun s => CopySettings.pollIntervalMs (settings (service s))) in
    let! i := setInterval ms in
    do! update (set_intervalId (Some i)) in
    let! n := gets (fun s => length (CopySettings.targetAddresses (settings (service s)))) in
    do! log (MsgStarted n) in
    tick_guarded.

Definition stop : M (Sys W) unit :=
  do! update (set_running false) in
  let! i := gets (fun s => intervalId (service s)) in
  do! match i with
      | Some t => do! clearInterval t in update (set_intervalId None)
      | None => ret tt
      end in
  log MsgStopped.

(** What can happen to the service during one session: the boundary
    calls [start] or [stop], or an armed timer fires. *)
Inductive op := OpStart | OpStop | OpTimer (i : nat).

Definition run_op (o : op) : M (Sys W) unit :=
  match o with
  | OpStart => start
  | OpStop => stop
  | OpTimer i =>
      let! armed := gets (fun s => bool_decide (i ∈ (timers s).*1)) in
      if armed then tick_guarded else ret tt
  end.

(** The state after a sequence of operations. *)
Definition run_ops (ops : list op) (s : Sys W) : Sys W :=
  fold_left (fun s o => (run_op o s).2) ops s.

(** A fresh process around a service object. *)
Definition boot (svc : CopyTraderService) (w : W) : Sys W :=
  {| service := svc; env := {| world := w; trace := [] |}; timers := []; next_timer := 0 |}.

End WithWorld.
End CopyTrader.

(** ** The ['copytrader:start'] handler of the main process *)

Module Main.

(** Lines 377-387: the objects built from the payload, once the window
    and the stored key have been found. [apiKey] and [apiCreds] come from
    the keychain. *)
Definition service_of_payload (payload : CopySettings.t) (apiKey : option string)
    (apiCreds : option Js.value) (sdk_constructed clob_constructed : bool)
    : CopyTrader.CopyTraderService :=
  let gamma := Gamma.new (CopySettings.gammaBaseUrl payload) None in
  let mk :=
    Polymarket.new
      {| ExecutionSettings.rpcUrl := CopySettings.rpcUrl payload;
         ExecutionSettings.maxSlippageBps := CopySettings.maxSlippageBps payload;
         ExecutionSettings.dryRun := CopySettings.dryRun payload;
         ExecutionSettings.clobApiKey := apiKey;
         ExecutionSettings.apiCreds := apiCreds;
         ExecutionSettings.clobBaseUrl :=
           Some (match CopySettings.clobBaseUrl payload with
                 | Some u => if String.eqb u "" then "https://clob.polymarket.com" else u
                 | None => "https://clob.polymarket.com"
                 end) |}
      sdk_constructed clob_constructed in
  CopyTrader.new gamma mk payload.

(** Line 388, for the first session of a process: [service.start()]. *)
Definition launch {W} `{Effects.Externals W} `{Js.Builtins} (payload : CopySettings.t)
    (apiKey : option string) (apiCreds : option Js.value)
    (sdk_constructed clob_constructed : bool) (w : W) : CopyTrader.Sys W :=
  (CopyTrader.start
     (CopyTrader.boot
        (service_of_payload payload apiKey apiCreds sdk_constructed clob_constructed) w)).2.

End Main.

(** ** The ['copytrader:accessStatus'] handler *)

Module AccessStatus.
Import Effects.
Local Open Scope js_scope.

(** What [parseWalletFromInput] makes of a stored key. Whether a string
    is a private key or a mnemonic phrase is decided by ethers; the two
    errors are those the function throws itself. *)
Inductive Parsed :=
| EmptyKey
| InvalidKey
| Wallet (address : string).

(** The endpoint patterns, in the order of the array literal. *)
Definition paths : list string :=
  [ "/auth/access-status";
    "/v1/auth/access-status";
    "/access-status";
    "/auth/status";
    "/auth/ban-status/closed-only";
    "/v1/auth/ban-status/closed-only" ].

(** The request for one pattern. *)
Definition request (clob address p : string) : GetRequest :=
  {| get_url := clob +:+ p;
     get_params := [];
     get_timeout := 10000;
     get_headers :=
       [ ("POLY_ADDRESS", address);
         ("User-Agent",
          "Mozilla/5.0 (Macintosh; Intel Mac OS X) AppleWebKit/537.36 (KHTML, like Gecko) ElectronApp/1.0 Safari/537.36");
         ("Accept", "application/json,text/plain,*/*");
         ("Accept-Language", "en-US,en;q=0.9");
         ("Cache-Control", "no-cache") ] |}.

(** [res.status >= 200 && res.status < 300] *)
Definition accepted (res : Response) : bool :=
  (200 <=? status res)%Z && (status res <? 300)%Z.

(** [{ ok: true, status: res.data }] *)
Definition ok (res : Response) : Js.value :=
  Js.VObject [("ok", Js.VBool true); ("status", data res)].

Section WithWorld.
Context {W : Type} `{Externals W} `{Js.Builtins}.

(** [JSON.stringify], which gives a string or [undefined], and
    [parseWalletFromInput]. *)
Variable JSON_stringify : Js.value → option string.
Variable parseWalletFromInput : string → Parsed.

(** [body?.slice(0, 200)] inside the template literal, for
    [body = typeof data === 'string' ? data : JSON.stringify(data)]. *)
Definition body_text (d : Js.value) : string :=
  match (match d with Js.VString t => Some t | _ => JSON_stringify d end) with
  | Some t => String.substring 0 200 t
  | None => "undefined"
  end.

(** [new Error(`HTTP ${lastRes.status} ${body?.slice(0, 200)}`)] *)
Definition http_error (res : Response) : Js.exn :=
  Js.Error ("HTTP " +:+ Js.number_toString (Js.Num (inject_Z (status res))) +:+ " "
            +:+ body_text (data res)).

(** The loop over the patterns from the state [lastRes], [lastError],
    and the statements after it. *)
Fixpoint probe (clob address : string) (ps : list string) (lastRes : option Response)
    (lastError : option Js.exn) : M (Env W) Js.value :=
  match ps with
  | [] =>
      match lastRes, lastError with
      | Some res, _ => throw (http_error res)
      | None, Some err => throw err
      | None, None => throw (Js.Error "Unable to check access status")
      end
  | p :: rest =>
      let! outcome :=
        try_catch
          (let! res :=
             perform (AxiosGet (request clob address p)) Js.AxiosError
               (axios_get (request clob address p)) in
           ret (inl res))
          (fun err => ret (inr err)) in
      match outcome with
      | inl res =>
          if accepted res then ret (ok res)
          else probe clob address rest (Some res) lastError
      | inr err => probe clob address rest lastRes (Some err)
      end
  end.

(** The handler; [privateKey] is what the keychain holds. *)
Definition accessStatus (privateKey : option string) (clobBaseUrl : option string)
    : M (Env W) Js.value :=
  match privateKey with
  | None => throw (Js.Error "No private key stored")
  | Some key =>
      if String.eqb key "" then throw (Js.Error "No private key stored")
      else
        match parseWalletFromInput key with
        | EmptyKey => throw (Js.Error "Empty private key")
        | InvalidKey => throw (Js.Error "Invalid private key or mnemonic phrase")
        | Wallet address =>
            let clob :=
              Js.strip_trailing_slash
                (match clobBaseUrl with
                 | Some u => if String.eqb u "" then "https://clob.polymarket.com" else u
                 | None => "https://clob.polymarket.com"
                 end) in
            probe clob address paths None None
        end
  end.

(** What the requests of the loop ended in, in order: the error of the
    transport, or the response. *)
Definition responses (outcomes : list (Js.exn + Response)) : list Response :=
  omap (fun o => match o with inr res => Some res | inl _ => None end) outcomes.

Definition failures (outcomes : list (Js.exn + Response)) : list Js.exn :=
  omap (fun o => match o with inl err => Some err | inr _ => None end) outcomes.

(** The state after the request for the pattern [p] from [E]. *)
Definition asked (clob address p : string) (E : Env W) (w' : W) : Env W :=
  {| world := w'; trace := trace E ++ [Call (AxiosGet (request clob address p))] |}.

(** [declined clob address ps E outcomes E']: requested one after the
    other from [E], no pattern of [ps] gets a response with a 2xx status:
    each request fails in transport or is answered with another status.
    [outcomes] are the errors and responses in order and [E'] is the
    state reached. *)
Inductive declined (clob address : string)
    : list string → Env W → list (Js.exn + Response) → Env W → Prop :=
| declined_nil E : declined clob address [] E [] E
| declined_failed p rest E msg w' outcomes E' :
    axios_get (request clob address p) (world E) = (inl msg, w') →
    declined clob address rest (asked clob address p E w') outcomes E' →
    declined clob address (p :: rest) E (inl (Js.AxiosError msg) :: outcomes) E'
| declined_refused p rest E res w' outcomes E' :
    axios_get (request clob address p) (world E) = (inr res, w') →
    accepted res = false →
    declined clob address rest (asked clob address p E w') outcomes E' →
    declined clob address (p :: rest) E (inr res :: outcomes) E'.

End WithWorld.
End AccessStatus.

(** ** The data API part of the ['copytrader:test'] handler *)

Module ConnectionTest.
Import Effects.
Local Open Scope js_scope.

(** The fields of [result] that the search for a data API writes. *)
Record Result := {
  gammaOk : bool;
  chosenGammaBaseUrl : option string;
  gammaError : option string
}.

(** The base URLs to try; [.filter(Boolean)] drops an empty one. *)
Definition candidates (gammaBaseUrl : string) : list string :=
  filter (fun u => u ≠ "")
    [ gammaBaseUrl;
      "https://gamma-api.polymarket.com";
      "https://clob.polymarket.com";
      "https://data-api.polymarket.com" ].

Definition pingPaths : list string := [""; "/status"; "/v1/markets"; "/markets"].

Definition request (baseSanitized p : string) : GetRequest :=
  {| get_url := baseSanitized +:+ p;
     get_params := [];
     get_timeout := 6000;
     get_headers :=
       [ ("User-Agent",
          "Mozilla/5.0 (Macintosh; Intel Mac OS X) AppleWebKit/537.36 (KHTML, like Gecko) ElectronApp/1.0 Safari/537.36");
         ("Accept", "application/json,text/plain,*/*") ] |}.

Section WithWorld.
Context {W : Type} `{Externals W} `{Js.Builtins}.

(** The inner loop, from the state [lastErr]: the values of [ok] and
    [lastErr] after it. Every status is accepted. *)
Fixpoint ping (baseSanitized : string) (ps : list string) (lastErr : option Js.exn)
    : M (Env W) (bool * option Js.exn) :=
  match ps with
  | [] => ret (false, lastErr)
  | p :: rest =>
      try_catch
        (do! perform (AxiosGet (request baseSanitized p)) Js.AxiosError
               (axios_get (request baseSanitized p)) in
         ret (true, lastErr))
        (fun err => ping baseSanitized rest (Some err))
  end.

(** The outer loop, from the state [result]. *)
Fixpoint search (bases : list string) (result : Result) : M (Env W) Result :=
  match bases with
  | [] => ret result
  | base :: rest =>
      let baseSanitized := Js.strip_trailing_slash base in
      let! found := ping baseSanitized pingPaths None in
      if found.1 then
        ret {| gammaOk := true; chosenGammaBaseUrl := Some baseSanitized;
               gammaError := gammaError result |}
      else
        match found.2 with
        | Some lastErr =>
            search rest
              {| gammaOk := gammaOk result;
                 chosenGammaBaseUrl := chosenGammaBaseUrl result;
                 gammaError := Some (String.substring 0 200 (Js.exn_message lastErr)) |}
        | None => search rest result
        end
  end.

(** Lines 416-451: the body of the first [try] block of the handler.
    Its [catch] is empty, and the body does not throw. *)
Definition test_gamma (gammaBaseUrl : string) : M (Env W) Result :=
  search (candidates gammaBaseUrl)
    {| gammaOk := false; chosenGammaBaseUrl := None; gammaError := None |}.

(** The state after the request for the path [p] under [base] from [E]. *)
Definition asked (base p : string) (E : Env W) (w' : W) : Env W :=
  {| world := w'; trace := trace E ++ [Call (AxiosGet (request base p))] |}.

(** [unanswered base ps E errs E']: requested one after the other from
    [E], no path of [ps] under [base] gets a response; [errs] are the
    errors of the transport in order and [E'] is the state reached. *)
Inductive unanswered (base : string) : list string → Env W → list Js.exn → Env W → Prop :=
| unanswered_nil E : unanswered base [] E [] E
| unanswered_cons p rest E msg w' errs E' :
    axios_get (request base p) (world E) = (inl msg, w') →
    unanswered base rest (asked base p E w') errs E' →
    unanswered base (p :: rest) E (Js.AxiosError msg :: errs) E'.

(** [unreachable bases E errs E']: tried one after the other from [E],
    none of [bases] gets a response on any of the ping paths. *)
Inductive unreachable : list string → Env W → list Js.exn → Env W → Prop :=
| unreachable_nil E : unreachable [] E [] E
| unreachable_cons base rest E errs E1 errs' E' :
    unanswered (Js.strip_trailing_slash base) pingPaths E errs E1 →
    unreachable rest E1 errs' E' →
    unreachable (base :: rest) E (errs ++ errs') E'.

(** The requests of a list of base URLs, each on every ping path. *)
Definition pings (bases : list string) : list GetRequest :=
  concat ((fun base => request (Js.strip_trailing_slash base) <$> pingPaths) <$> bases).

(** [msg.slice(0, 200)] of the message of an error. *)
Definition error_text (err : Js.exn) : string :=
  String.substring 0 200 (Js.exn_message err).

(** [result] with the text of the last of [errs] in [gammaError]. *)
Definition noted (result : Result) (errs : list Js.exn) : Result :=
  {| gammaOk := gammaOk result; chosenGammaBaseUrl := chosenGammaBaseUrl result;
     gammaError :=
       from_option (fun e => Some (error_text e)) (gammaError result) (last errs) |}.

End WithWorld.
End ConnectionTest.

(** ** The configuration of the backend engine, HighPerformanceCopyTrader.ts *)

Module HighPerformanceCopyTrader.

(** The numeric and boolean configuration fields of the class. *)
Record t := {
  copyFactor : Js.number;
  maxSlippageBps : Js.number;
  dryRun : bool;
  batchSize : Js.number;
  maxConcurrentTrades : Js.number
}.

(** The field initialisers. *)
Definition initial : t :=
  {| copyFactor := Js.Num 1; maxSlippageBps := Js.Num 100; dryRun := true;
     batchSize := Js.Num 50; maxConcurrentTrades := Js.Num 10 |}.

Definition clamp (lo hi : Q) (x : Js.number) : Js.number :=
  Js.Math_max (Js.Num lo) (Js.Math_min (Js.Num hi) x).

Definition setCopyFactor (factor : Js.number) (e : t) : t :=
  {| copyFactor := clamp 0 5 factor; maxSlippageBps := maxSlippageBps e;
     dryRun := dryRun e; batchSize := batchSize e;
     maxConcurrentTrades := maxConcurrentTrades e |}.

Definition setMaxSlippage (slippageBps : Js.number) (e : t) : t :=
  {| copyFactor := copyFactor e; maxSlippageBps := clamp 10 1000 slippageBps;
     dryRun := dryRun e; batchSize := batchSize e;
     maxConcurrentTrades := maxConcurrentTrades e |}.

Definition setDryRun (b : bool) (e : t) : t :=
  {| copyFactor := copyFactor e; maxSlippageBps := maxSlippageBps e;
     dryRun := b; batchSize := batchSize e;
     maxConcurrentTrades := maxConcurrentTrades e |}.

Definition setBatchSize (size : Js.number) (e : t) : t :=
  {| copyFactor := copyFactor e; maxSlippageBps := maxSlippageBps e;
     dryRun := dryRun e; batchSize := clamp 1 100 size;
     maxConcurrentTrades := maxConcurrentTrades e |}.

Definition setMaxConcurrency (concurrency : Js.number) (e : t) : t :=
  {| copyFactor := copyFactor e; maxSlippageBps := maxSlippageBps e;
     dryRun := dryRun e; batchSize := batchSize e;
     maxConcurrentTrades := clamp 1 50 concurrency |}.

(** The part of [start(config)] under the comment "Apply configuration"
    that sets these fields (lines 237-241 of the class). *)
Definition apply_configuration (cfgCopyFactor cfgMaxSlippageBps : Js.number)
    (cfgDryRun : bool) (cfgBatchSize cfgMaxConcurrentTrades : Js.number) (e : t) : t :=
  setMaxConcurrency cfgMaxConcurrentTrades
    (setBatchSize cfgBatchSize
       (setDryRun cfgDryRun
          (setMaxSlippage cfgMaxSlippageBps
             (setCopyFactor cfgCopyFactor e)))).

(** [copySize: trade.size * this.copyFactor] in [processTrade]. *)
Definition copySize (tradeSize : Js.number) (e : t) : Js.number :=
  Js.mul tradeSize (copyFactor e).

End HighPerformanceCopyTrader.

(** ** Worlds to run the program in *)

Module Scripted.
Import Effects.

(** A world that answers every request by a fixed table. The
    [ClobClient] offers none of its optional methods here; the SDK wallet
    client has [ensureApprovals]. *)
Record World := {
  clock : Q;
  get_answer : GetRequest → string + Response;
  post_answer : PostRequest → string + Js.value;
  create_answer : UserOrder → string + Js.value;
  post_order_answer : Js.value → string + Js.value;
  approvals_answer : string + unit
}.

#[global] Instance externals : Externals World := {|
  Date_now := fun w => (clock w, w);
  axios_get := fun r w => (get_answer w r, w);
  axios_post := fun r w => (post_answer w r, w);
  clob_getApiCreds := None;
  clob_createOrDeriveApiCreds := None;
  clob_setApiCreds := None;
  clob_configure := None;
  clob_createOrder := fun o w => (create_answer w o, w);
  clob_postOrder := fun b w => (post_order_answer w b, w);
  sdk_ensureApprovals := Some (fun w => (approvals_answer w, w))
|}.

Definition upper_ascii (c : Ascii.ascii) : Ascii.ascii :=
  let n := Ascii.nat_of_ascii c in
  if (97 <=? n)%nat && (n <=? 122)%nat then Ascii.ascii_of_nat (n - 32) else c.

Fixpoint upper (s : string) : string :=
  match s with
  | EmptyString => EmptyString
  | String c rest => String (upper_ascii c) (upper rest)
  end.

Definition show_number (n : Js.number) : string :=
  match n with
  | Js.NaN => "NaN"
  | Js.Num q => pretty (Qnum q) +:+ "/" +:+ pretty (Zpos (Qden q))
  end.

(** Conversions that agree with JavaScript on the values the examples
    use: strings and numbers convert to themselves, [toUpperCase] is
    right on ASCII; a number is printed as a fraction. *)
#[global] Instance builtins : Js.Builtins := {|
  Js.number_toString := show_number;
  Js.to_String := fun v =>
    match v with
    | Js.VString s => s
    | Js.VNumber n => show_number n
    | Js.VBool true => "true"
    | Js.VBool false => "false"
    | Js.VNull => "null"
    | Js.VUndefined => "undefined"
    | Js.VArray _ => ""
    | Js.VObject _ => "[object Object]"
    end;
  Js.to_Number := fun v =>
    match v with
    | Js.VNumber n => n
    | Js.VNull => Js.Num 0
    | Js.VBool true => Js.Num 1
    | Js.VBool false => Js.Num 0
    | _ => Js.NaN
    end;
  Js.toUpperCase := upper
|}.

(** A raw trade record of the data API. *)
Definition raw_fill (id : string) (side : string) (size price : Q) (seconds : Q) : Js.value :=
  Js.VObject
    [ ("id", Js.VString id); ("marketId", Js.VString "m"); ("asset", Js.VString "tok");
      ("side", Js.VString side); ("size", Js.VNumber (Js.Num size));
      ("price", Js.VNumber (Js.Num price)); ("timestamp", Js.VNumber (Js.Num seconds)) ].

Definition ok (d : Js.value) : string + Response := inr {| data := d; status := 200 |}.

(** Whether a request asks for the trades of [address], by parameter or
    by path. *)
Definition asks_for (address : string) (r : GetRequest) : bool :=
  match Js.assoc "address" (get_params r), Js.assoc "walletAddress" (get_params r) with
  | Js.VString a, _ | _, Js.VString a => String.eqb a address
  | _, _ => bool_decide (String.length address ≤ String.length (get_url r))
            && String.eqb
                 (String.substring (String.length (get_url r) - String.length address)
                    (String.length address) (get_url r))
                 address
  end.

Definition silent_world (gets : GetRequest → string + Response)
    (posts : PostRequest → string + Js.value) : World :=
  {| clock := 1700000000000; get_answer := gets; post_answer := posts;
     create_answer := fun _ => inl "no client";
     post_order_answer := fun _ => inl "no client";
     approvals_answer := inr tt |}.

Definition settings (addresses : list string) (dry : bool) (mode : ExecutionMode)
    (factor size : Q) (sellAll : bool) : CopySettings.t :=
  {| CopySettings.gammaBaseUrl := "https://data-api.polymarket.com/";
     CopySettings.rpcUrl := "https://polygon-rpc.com";
     CopySettings.targetAddresses := addresses;
     CopySettings.copyFactor := Js.Num factor;
     CopySettings.maxSlippageBps := Js.Num 100;
     CopySettings.dryRun := dry;
     CopySettings.pollIntervalMs := Js.Num 15000;
     CopySettings.executionMode := mode;
     CopySettings.fixedSize := Js.Num size;
     CopySettings.sellAllOnSell := sellAll;
     CopySettings.clobBaseUrl := None |}.

(** A data API that knows neither [/fills] (404) nor, without a key,
    [/trades] (401), and answers [/v1/trades] with a [trades] array. *)
Definition data_api_v1 : World :=
  silent_world
    (fun r =>
       if String.eqb (get_url r) "https://data-api.polymarket.com/v1/trades" then
         ok (Js.VObject [("trades", Js.VArray [raw_fill "f1" "BUY" 10 (1#2) 100])])
       else if String.eqb (get_url r) "https://data-api.polymarket.com/trades" then
         inr {| data := Js.VObject [("error", Js.VString "unauthorized")]; status := 401 |}
       else inr {| data := Js.VString "Not Found"; status := 404 |})
    (fun _ => inl "Network Error").

Definition data_api : Gamma.GammaClient :=
  Gamma.new "https://data-api.polymarket.com/" None.

Definition fresh (w : World) : Env World := {| world := w; trace := [] |}.

(** A client in dry-run mode and one that trades. *)
Definition dry_client : Polymarket.PolymarketClient :=
  {| Polymarket.sdk := false; Polymarket.dryRun := true;
     Polymarket.maxSlippageBps := Js.Num 100;
     Polymarket.clobBaseUrl := "https://clob.polymarket.com";
     Polymarket.clobApiKey := None; Polymarket.clob := true |}.

Definition dry_client_elsewhere : Polymarket.PolymarketClient :=
  {| Polymarket.sdk := true; Polymarket.dryRun := true;
     Polymarket.maxSlippageBps := Js.Num 100;
     Polymarket.clobBaseUrl := "http://localhost:8080";
     Polymarket.clobApiKey := Some "key"; Polymarket.clob := false |}.

Definition live_client : Polymarket.PolymarketClient :=
  {| Polymarket.sdk := false; Polymarket.dryRun := false;
     Polymarket.maxSlippageBps := Js.Num 100;
     Polymarket.clobBaseUrl := "https://clob.polymarket.com";
     Polymarket.clobApiKey := Some "key"; Polymarket.clob := false |}.

Definition order (size : Q) (index : option Js.number) : MirrorOrderRequest.t :=
  {| MirrorOrderRequest.marketId := "m"; MirrorOrderRequest.outcomeId := "tok";
     MirrorOrderRequest.side := buy; MirrorOrderRequest.price := Js.Num (1#2);
     MirrorOrderRequest.size := Js.Num size; MirrorOrderRequest.outcomeIndex := index |}.

(** A venue that is down, and one whose confirmations carry a fixed hash. *)
Definition venue_down : World :=
  silent_world (fun _ => inl "Network Error") (fun _ => inl "Network Error").


(** The same world with token approvals that fail. *)
Definition without_allowance (w : World) : World :=
  {| clock := clock w; get_answer := get_answer w; post_answer := post_answer w;
     create_answer := create_answer w; post_order_answer := post_order_answer w;
     approvals_answer := inl "insufficient allowance" |}.

(** A data API that is unreachable for ["0xA"] and returns [trades] for
    ["0xB"] on the first candidate. *)
Definition only_B (trades : list Js.value) (r : GetRequest) : string + Response :=
  if asks_for "0xB" r then ok (Js.VArray trades) else inl "timeout of 12000ms exceeded".

(** A venue that refuses orders of one size and confirms the others. *)
Definition refuses (size : Q) (r : PostRequest) : string + Js.value :=
  match Js.prop (post_body r) "size" with
  | Js.VNumber (Js.Num q) =>
      if Qeq_bool q size then inl "Request failed with status code 400"
      else inr (Js.VObject [("hash", Js.VString "0xabc")])
  | _ => inl "Request failed with status code 400"
  end.

(** A fill as the scheduler receives it. *)
Definition fill (id : string) (side : Side) (size : Q) (ms : Q) : GammaFill.t :=
  {| GammaFill.id := id; GammaFill.marketId := "m"; GammaFill.outcomeId := "tok";
     GammaFill.side := side; GammaFill.price := Js.Num (1#2); GammaFill.size := Js.Num size;
     GammaFill.timestamp := ms; GammaFill.txHash := Js.VUndefined;
     GammaFill.outcomeIndex := None |}.

(** The payload of ['copytrader:start'] in live mode. *)
Definition live (addresses : list string) (factor : Q) (slippageBps : Q) : CopySettings.t :=
  {| CopySettings.gammaBaseUrl := "https://data-api.polymarket.com/";
     CopySettings.rpcUrl := "https://polygon-rpc.com";
     CopySettings.targetAddresses := addresses;
     CopySettings.copyFactor := Js.Num factor;
     CopySettings.maxSlippageBps := Js.Num slippageBps;
     CopySettings.dryRun := false;
     CopySettings.pollIntervalMs := Js.Num 15000;
     CopySettings.executionMode := percent;
     CopySettings.fixedSize := Js.Num 5;
     CopySettings.sellAllOnSell := false;
     CopySettings.clobBaseUrl := None |}.

Definition one_for_B : GetRequest → string + Response :=
  only_B [raw_fill "f1" "BUY" 10 (1#2) 100].

(** A live session on one wallet that made two trades; the venue
    refuses the order mirroring the first (size 10 * 1.5) and would
    confirm the order mirroring the second. *)
Definition two_trades : World :=
  silent_world
    (only_B [raw_fill "f1" "BUY" 10 (1#2) 100; raw_fill "f2" "BUY" 4 (1#2) 150])
    (refuses 15).

Definition first_refused : CopyTrader.Sys World :=
  Main.launch (live ["0xB"] (3#2) 100) None None false false two_trades.

(** A live session started with a copy factor of 10 and a slippage of
    5000 basis points, on a wallet that made one trade of size 10. *)
Definition oversized : CopyTrader.Sys World :=
  Main.launch (live ["0xB"] 10 5000) None None false false
    (silent_world one_for_B (refuses 0)).



(** A data API with second granularity: without [since] it returns the
    trades at 100 s and 150 s, and with [since] it returns those at or
    after 150 s, the one at 150 s again. *)
Definition overlapping (r : GetRequest) : string + Response :=
  match Js.assoc "since" (get_params r) with
  | Js.VUndefined =>
      ok (Js.VArray [raw_fill "f1" "BUY" 10 (1#2) 100; raw_fill "f2" "BUY" 4 (1#2) 150])
  | _ =>
      ok (Js.VArray [raw_fill "f2" "BUY" 4 (1#2) 150; raw_fill "f3" "SELL" 6 (1#2) 200])
  end.

Definition overlap_session : CopyTrader.Sys World :=
  Main.launch (settings ["0xB"] true percent (3#2) 5 false) None None false false
    (silent_world overlapping (refuses 0)).

(** A stopped process watching one wallet in dry-run mode. *)
Definition stopped : CopyTrader.Sys World :=
  CopyTrader.boot
    (Main.service_of_payload (settings ["0xB"] true percent (3#2) 5 false)
       None None false false)
    (silent_world (only_B [raw_fill "f1" "BUY" 10 (1#2) 100]) (refuses 0)).

(** Two watched wallets; the data API is unreachable for the first and
    returns one trade for the second. *)
Definition two_wallets_dry : CopyTrader.Sys World :=
  CopyTrader.with_service
    (CopyTrader.set_running true
       (Main.service_of_payload (settings ["0xA"; "0xB"] true percent (3#2) 5 false)
          None None false false))
    (CopyTrader.boot
       (Main.service_of_payload (settings ["0xA"; "0xB"] true percent (3#2) 5 false)
          None None false false)
       (silent_world one_for_B (refuses 0))).

(** A running service in dry-run mode that watches one address, on a
    data API that answers every request with one trade made at 100 s. *)
Definition watching (address : string) : CopyTrader.Sys World :=
  CopyTrader.with_service
    (CopyTrader.set_running true
       (Main.service_of_payload (settings [address] true percent (3#2) 5 false)
          None None false false))
    (CopyTrader.boot
       (Main.service_of_payload (settings [address] true percent (3#2) 5 false)
          None None false false)
       (silent_world (fun _ => ok (Js.VArray [raw_fill "f1" "BUY" 10 (1#2) 100]))
          (refuses 0))).

(** A world whose [ClobClient] has [getApiCreds],
    [createOrDeriveApiCreds] and [setApiCreds], each answering by a
    fixed table. *)
Record Keyed := {
  venue : World;
  creds_answer : string + Js.value;
  derive_answer : string + Js.value;
  set_answer : string + unit
}.

#[global] Instance keyed_externals : Externals Keyed := {|
  Date_now := fun w => (clock (venue w), w);
  axios_get := fun r w => (get_answer (venue w) r, w);
  axios_post := fun r w => (post_answer (venue w) r, w);
  clob_getApiCreds := Some (fun w => (creds_answer w, w));
  clob_createOrDeriveApiCreds := Some (fun w => (derive_answer w, w));
  clob_setApiCreds := Some (fun _ w => (set_answer w, w));
  clob_configure := None;
  clob_createOrder := fun o w => (create_answer (venue w) o, w);
  clob_postOrder := fun b w => (post_order_answer (venue w) b, w);
  sdk_ensureApprovals := Some (fun w => (approvals_answer (venue w), w))
|}.

(** A client without credentials whose derivation is refused, one whose
    [getApiCreds] throws, and one that has credentials. *)
Definition derivation_refused : Env Keyed :=
  {| world := {| venue := venue_down; creds_answer := inr Js.VUndefined;
                 derive_answer := inl "403 Forbidden"; set_answer := inr tt |};
     trace := [] |}.

Definition getter_throws : Env Keyed :=
  {| world := {| venue := venue_down; creds_answer := inl "signer unavailable";
                 derive_answer := inl "403 Forbidden"; set_answer := inr tt |};
     trace := [] |}.

Definition has_creds : Env Keyed :=
  {| world := {| venue := venue_down;
                 creds_answer := inr (Js.VObject [("key", Js.VString "k")]);
                 derive_answer := inl "403 Forbidden"; set_answer := inr tt |};
     trace := [] |}.

(** A raw trade record without an identifier of its own: one of the
    fills of transaction ["0xt"] on asset ["tok"]. *)
Definition part_of_transaction (size price : Q) : Js.value :=
  Js.VObject
    [ ("transactionHash", Js.VString "0xt"); ("asset", Js.VString "tok");
      ("side", Js.VString "BUY"); ("size", Js.VNumber (Js.Num size));
      ("price", Js.VNumber (Js.Num price)); ("timestamp", Js.VNumber (Js.Num 100)) ].

(** A venue that answers the first access-status pattern with 403 and
    is unreachable for the others. *)
Definition geoblocked : World :=
  silent_world
    (fun r =>
       if String.eqb (get_url r) "https://clob.polymarket.com/auth/access-status" then
         inr {| data := Js.VString "Forbidden"; status := 403 |}
       else inl "timeout of 10000ms exceeded")
    (fun _ => inl "Network Error").

End Scripted.

(** ** What is observed of a run *)

Module Observe.
Import Effects.

Definition is_call (ev : event) : bool :=
  match ev with Call _ => true | _ => false end.

(** What the scheduler itself emitted: log lines, error events and
    submissions, without the calls made inside the two clients. *)
Definition scheduler_view (tr : list event) : list event :=
  filter (fun ev => ¬ is_call ev) tr.

(** The submissions of a trace, oldest first. *)
Definition submissions (tr : list event) : list (string * GammaFill.t * MirrorOrderRequest.t) :=
  omap (fun ev => match ev with Submit a f o => Some (a, f, o) | _ => None end) tr.

(** The address and fill identifier each submission was made for. *)
Definition submitted (tr : list event) : list (string * string) :=
  (fun x => (x.1.1, GammaFill.id x.1.2)) <$> submissions tr.

Definition errors (tr : list event) : list string :=
  omap (fun ev => match ev with ErrorEvent t => Some t | _ => None end) tr.

(** The requests sent to the data API. *)
Definition requests (tr : list event) : list GetRequest :=
  omap (fun ev => match ev with Call (AxiosGet r) => Some r | _ => None end) tr.


(** The key under which the scheduler remembers an entry of a batch. *)
Definition keys (aggregated : CopyTrader.Aggregated) : list (string * string) :=
  (fun x => (x.2, GammaFill.id x.1)) <$> aggregated.

(** What one entry of the batch adds to the submissions. *)
Definition submission_of (cfg : CopySettings.t) (entry : GammaFill.t * string)
    : string * GammaFill.t * MirrorOrderRequest.t :=
  (entry.2, entry.1, CopyTrader.mirror_request cfg entry.1).

(** Every submission made so far, and every entry waiting in the batch,
    is for a different fill of its address, and that fill is in the
    address's set of seen identifiers. *)
Definition once_each (done : list (string * string)) (svc : CopyTrader.CopyTraderService)
    (aggregated : CopyTrader.Aggregated) : Prop :=
  NoDup (done ++ keys aggregated)
  ∧ ∀ k, k ∈ done ++ keys aggregated → k.2 ∈ CopyTrader.seen_of svc k.1.

(** A cursor that reads as a number still reads as a number, and as no
    smaller one. *)
Definition not_below (v v' : Js.slot) : Prop :=
  ∀ c, v = Js.Numeric (Js.Num c) → ∃ c', v' = Js.Numeric (Js.Num c') ∧ (c <= c')%Q.

(** What a tick may do to the service object: it leaves the lifecycle
    fields and the constructor's parameters alone, and numeric cursors
    and sets of seen identifiers only grow. *)
Definition advances (svc svc' : CopyTrader.CopyTraderService) : Prop :=
  CopyTrader.running svc' = CopyTrader.running svc
  ∧ CopyTrader.intervalId svc' = CopyTrader.intervalId svc
  ∧ CopyTrader.gamma svc' = CopyTrader.gamma svc
  ∧ CopyTrader.mk svc' = CopyTrader.mk svc
  ∧ CopyTrader.settings svc' = CopyTrader.settings svc
  ∧ (∀ a, not_below (CopyTrader.since_of svc a) (CopyTrader.since_of svc' a))
  ∧ (∀ a, CopyTrader.seen_of svc a ⊆ CopyTrader.seen_of svc' a).

(** No entry of the batch was seen when the service object was [svc0]. *)
Definition unseen (svc0 : CopyTrader.CopyTraderService) (aggregated : CopyTrader.Aggregated)
    : Prop :=
  ∀ e, e ∈ aggregated → GammaFill.id e.1 ∉ CopyTrader.seen_of svc0 e.2.

(** The string the scheduler compares a confirmation with at line 88. *)
Definition unavailable : string := "skipped:client-unavailable".


Section WithWorld.
Context {W : Type} `{Externals W} `{Js.Builtins}.

(** [exhausted c candidates E errs E']: tried one after the other from
    [E], every candidate fails; [errs] are their errors in order and [E']
    is the state reached. *)
Inductive exhausted (c : Gamma.GammaClient)
    : list Gamma.Attempt → Env W → list Js.exn → Env W → Prop :=
| exhausted_nil E : exhausted c [] E [] E
| exhausted_cons a rest E e E1 errs E2 :
    Gamma.run_attempt c a E = (inl e, E1) →
    exhausted c rest E1 errs E2 →
    exhausted c (a :: rest) E (e :: errs) E2.

(** A client operation is quiet when it adds nothing to the scheduler's
    view of the trace. *)
Definition quiet {A} (m : M (Env W) A) : Prop :=
  ∀ E, scheduler_view (trace (m E).2) = scheduler_view (trace E).

(** It is silent when it adds nothing to the trace at all. *)
Definition silent {A} (m : M (Env W) A) : Prop :=
  ∀ E, trace (m E).2 = trace E.

(** The process right after [start] has armed its timer and logged,
    before the immediate tick. *)
Definition armed (s : CopyTrader.Sys W) : CopyTrader.Sys W :=
  {| CopyTrader.service :=
       CopyTrader.set_intervalId (Some (CopyTrader.next_timer s))
         (CopyTrader.set_running true (CopyTrader.service s));
     CopyTrader.env :=
       record
         (Log (MsgStarted
                 (length (CopySettings.targetAddresses
                            (CopyTrader.settings (CopyTrader.service s))))))
         (CopyTrader.env s);
     CopyTrader.timers :=
       CopyTrader.timers s
       ++ [(CopyTrader.next_timer s,
            CopySettings.pollIntervalMs (CopyTrader.settings (CopyTrader.service s)))];
     CopyTrader.next_timer := S (CopyTrader.next_timer s) |}.

(** The process after [stop]. *)
Definition halted (s : CopyTrader.Sys W) : CopyTrader.Sys W :=
  {| CopyTrader.service :=
       CopyTrader.set_intervalId None (CopyTrader.set_running false (CopyTrader.service s));
     CopyTrader.env := record (Log MsgStopped) (CopyTrader.env s);
     CopyTrader.timers :=
       match CopyTrader.intervalId (CopyTrader.service s) with
       | Some i => filter (fun t => t.1 ≠ i) (CopyTrader.timers s)
       | None => CopyTrader.timers s
       end;
     CopyTrader.next_timer := CopyTrader.next_timer s |}.

(** What any operation of a session does to the sync state and to the
    submissions: numeric cursors and seen sets only grow, and the submissions
    added are the first [n] entries of a batch that was unseen before
    and is deduplicated against everything done before. *)
Definition session_step (s s' : CopyTrader.Sys W) : Prop :=
  (∀ a, not_below (CopyTrader.since_of (CopyTrader.service s) a)
                  (CopyTrader.since_of (CopyTrader.service s') a))
  ∧ (∀ a, CopyTrader.seen_of (CopyTrader.service s) a
          ⊆ CopyTrader.seen_of (CopyTrader.service s') a)
  ∧ CopyTrader.settings (CopyTrader.service s') = CopyTrader.settings (CopyTrader.service s)
  ∧ ∃ agg n,
      unseen (CopyTrader.service s) agg
      ∧ (∀ done, once_each done (CopyTrader.service s) [] →
                 once_each done (CopyTrader.service s') agg)
      ∧ submissions (trace (CopyTrader.env s'))
        = submissions (trace (CopyTrader.env s))
          ++ (submission_of (CopyTrader.settings (CopyTrader.service s)) <$> take n agg).

(** It raises only [TypeError]s. *)
Definition raises_type_errors {A} (m : M (Env W) A) : Prop :=
  ∀ E e, (m E).1 = inl e → ∃ msg, e = Js.TypeError msg.

End WithWorld.
End Observe.

(** ** Further observations of a run *)

Module Watch.
Import Effects.

(** A call to the trading venue: everything but a GET of the data API. *)
Definition is_venue_call (ev : event) : bool :=
  match ev with
  | Call (AxiosGet _) => false
  | Call _ => true
  | _ => false
  end.

Definition is_get (ev : event) : bool :=
  match ev with Call (AxiosGet _) => true | _ => false end.

Definition is_post (ev : event) : bool :=
  match ev with Call (AxiosPost _) => true | _ => false end.

(** A call on the [ClobClient] object. *)
Definition is_clob_call (ev : event) : bool :=
  match ev with
  | Call (AxiosGet _) | Call (AxiosPost _) | Call SdkEnsureApprovals => false
  | Call _ => true
  | _ => false
  end.

Definition is_approval (ev : event) : bool :=
  match ev with Call SdkEnsureApprovals => true | _ => false end.

Definition is_create_order (ev : event) : bool :=
  match ev with Call (ClobCreateOrder _) => true | _ => false end.

Definition is_post_order (ev : event) : bool :=
  match ev with Call (ClobPostOrder _) => true | _ => false end.

(** A call that derives or stores API credentials. *)
Definition is_credentials_write (ev : event) : bool :=
  match ev with
  | Call ClobCreateOrDeriveApiCreds | Call (ClobSetApiCreds _) | Call (ClobConfigure _) => true
  | _ => false
  end.

(** [q] brought into the interval from [lo] to [hi]. *)
Definition saturate (lo hi q : Q) : Q :=
  if Qlt_le_dec lo q then if Qlt_le_dec q hi then q else hi else lo.

(** The events of a trace that satisfy [P], oldest first. *)
Definition only (P : event → bool) (tr : list event) : list event :=
  filter (fun ev => P ev) tr.

(** The addresses announced by "Checking ..." lines, oldest first. *)
Definition checked (tr : list event) : list string :=
  omap (fun ev => match ev with Log (MsgChecking a _) => Some a | _ => None end) tr.

(** The fills of a delivery that get an entry in the batch, written as
    a function of the set of identifiers seen before: the first
    occurrence of every identifier that is not in the set. *)
Fixpoint first_unseen (seen : gset string) (fills : list GammaFill.t) : list GammaFill.t :=
  match fills with
  | [] => []
  | f :: rest =>
      if bool_decide (GammaFill.id f ∈ seen) then first_unseen seen rest
      else f :: first_unseen ({[GammaFill.id f]} ∪ seen) rest
  end.

(** The cursor after a delivery, written as a fold. *)
Definition high_water (cursor : Q) (fills : list GammaFill.t) : Q :=
  fold_left (fun c f => Qmax c (GammaFill.timestamp f)) fills cursor.

Section WithWorld.
Context {W : Type} `{Externals W} `{Js.Builtins}.

(** A client operation keeps [P] when it adds no event satisfying [P]
    to the trace. *)
Definition keeps {A} (P : event → bool) (m : M (Env W) A) : Prop :=
  ∀ E, only P (trace (m E).2) = only P (trace E).

(** The timer of the service: armed, with the configured period, exactly
    while the service runs, and known to the service by its identifier. *)
Definition lifecycle (s : CopyTrader.Sys W) : Prop :=
  match CopyTrader.intervalId (CopyTrader.service s) with
  | Some i =>
      CopyTrader.running (CopyTrader.service s) = true
      ∧ CopyTrader.timers s
        = [(i, CopySettings.pollIntervalMs (CopyTrader.settings (CopyTrader.service s)))]
  | None =>
      CopyTrader.running (CopyTrader.service s) = false ∧ CopyTrader.timers s = []
  end.

End WithWorld.
End Watch.

(** ** Batching in the backend engine: [chunkArray] of HighPerformanceCopyTrader.ts *)

Module Batching.

(** [a + b] *)
Definition add (a b : Js.number) : Js.number :=
  match a, b with
  | Js.Num x, Js.Num y => Js.Num (x + y)
  | _, _ => Js.NaN
  end.

(** [a < array.length]: false when [a] is NaN. *)
Definition lt_length (a : Js.number) (len : nat) : bool :=
  match a with
  | Js.Num x => if Qlt_le_dec x (inject_Z (Z.of_nat len)) then true else false
  | Js.NaN => false
  end.

(** The integer an argument of [slice] stands for: NaN is 0, a number
    is cut towards zero. *)
Definition to_integer (a : Js.number) : Z :=
  match a with
  | Js.NaN => 0
  | Js.Num x => if Qlt_le_dec x 0 then Qceiling x else Qfloor x
  end.

(** An index of [slice] relative to the length: a negative index counts
    from the end, and the result lies inside the array. *)
Definition relative (len k : Z) : Z :=
  if (k <? 0)%Z then Z.max (len + k) 0 else Z.min k len.

(** [array.slice(start, stop)] *)
Definition slice {T} (array : list T) (start stop : Js.number) : list T :=
  let len := Z.of_nat (length array) in
  let from := relative len (to_integer start) in
  let upto := relative len (to_integer stop) in
  take (Z.to_nat (upto - from)) (drop (Z.to_nat from) array).

(** [for (let i = ...; i < array.length; i += size) chunks.push(array.slice(i, i + size))],
    from the state [i], [chunks]. The loop need not end; [None] says
    that it has not ended within [fuel] turns. *)
Fixpoint chunk_loop {T} (fuel : nat) (array : list T) (size i : Js.number)
    (chunks : list (list T)) : option (list (list T)) :=
  match fuel with
  | O => None
  | S fuel' =>
      if lt_length i (length array)
      then chunk_loop fuel' array size (add i size) (chunks ++ [slice array i (add i size)])
      else Some chunks
  end.

Definition chunkArray {T} (fuel : nat) (array : list T) (size : Js.number)
    : option (list (list T)) :=
  chunk_loop fuel array size (Js.Num 0) [].

(** [processWithConcurrency(trades)]: the trades handed to
    [executeCopyTrade], chunk after chunk. *)
Definition executed {T} (fuel : nat) (trades : list T) (maxConcurrentTrades : Js.number)
    : option (list T) :=
  match chunkArray fuel trades maxConcurrentTrades with
  | Some chunks => Some (concat chunks)
  | None => None
  end.

End Batching.

(** ** The trade pipeline of the backend engine: [processTrade] and [processBatch] *)

Module Pipeline.

(** The fields of a [Trade] that the pipeline reads. *)
Record Trade := {
  id : string;
  walletAddress : string;
  size : Js.number
}.

(** A [CopyTrade] as [processTrade] creates it, with status ['pending']. *)
Record CopyTrade := {
  copy_id : string;
  originalTrade : Trade;
  copySize : Js.number;
  maxSlippage : Js.number
}.

(** The engine as the pipeline sees it: whether it runs, the watched
    wallets, the configuration and the queue. [handed] lists the copy
    trades handed to [executeCopyTrade] so far, in the order of the
    calls; the trade cache, the processing queue and the events emitted
    are left out. Calls of [processTrade] are taken one at a time. *)
Record t := {
  isRunning : bool;
  targetAddresses : gset string;
  config : HighPerformanceCopyTrader.t;
  copyTradeQueue : list CopyTrade;
  handed : list CopyTrade
}.

(** [length >= batchSize]: false when the batch size is NaN. *)
Definition reaches (len : nat) (batchSize : Js.number) : bool :=
  match batchSize with
  | Js.Num q => if Qlt_le_dec (inject_Z (Z.of_nat len)) q then false else true
  | Js.NaN => false
  end.

(** [queue.splice(0, deleteCount)]: the elements removed and those left. *)
Definition splice_front {T} (queue : list T) (deleteCount : Js.number) : list T * list T :=
  let n :=
    Z.to_nat (Z.min (Z.max (Batching.to_integer deleteCount) 0) (Z.of_nat (length queue))) in
  (take n queue, drop n queue).

Section WithBuiltins.
Context `{Js.Builtins}.

(** [s.toLowerCase()] *)
Variable toLowerCase : string → string.

Definition processBatch (fuel : nat) (e : t) : option t :=
  match copyTradeQueue e with
  | [] => Some e
  | _ :: _ =>
      let '(batch, rest) :=
        splice_front (copyTradeQueue e) (HighPerformanceCopyTrader.batchSize (config e)) in
      match Batching.executed fuel batch
              (HighPerformanceCopyTrader.maxConcurrentTrades (config e)) with
      | Some trades =>
          Some {| isRunning := isRunning e; targetAddresses := targetAddresses e;
                  config := config e; copyTradeQueue := rest;
                  handed := handed e ++ trades |}
      | None => None
      end
  end.

(** [processTrade(trade)]; [now] is what [Date.now()] returns. [None]
    says that the chunking loop has not ended within [fuel] turns. *)
Definition processTrade (fuel : nat) (now : Q) (trade : Trade) (e : t) : option t :=
  if negb (isRunning e)
     || negb (bool_decide (toLowerCase (walletAddress trade) ∈ targetAddresses e))
  then Some e
  else
    let copyTrade :=
      {| copy_id := "copy_" +:+ id trade +:+ "_" +:+ Js.number_toString (Js.Num now);
         originalTrade := trade;
         copySize := HighPerformanceCopyTrader.copySize (size trade) (config e);
         maxSlippage := HighPerformanceCopyTrader.maxSlippageBps (config e) |} in
    let queued :=
      {| isRunning := isRunning e; targetAddresses := targetAddresses e;
         config := config e; copyTradeQueue := copyTradeQueue e ++ [copyTrade];
         handed := handed e |} in
    if reaches (length (copyTradeQueue queued))
         (HighPerformanceCopyTrader.batchSize (config e))
    then processBatch fuel queued
    else Some queued.

End WithBuiltins.
End Pipeline.

(** ** Performance tracking in the backend engine: [updateMetrics] *)

Module Metrics.

Inductive Status := pending | executing | completed | failed.

Definition is_completed (st : Status) : bool :=
  match st with completed => true | _ => false end.

(** The fields of a [CopyTrade] that [updateMetrics] reads.
    [executionTime] is optional in the interface. *)
Record CopyTrade := {
  copySize : Js.number;
  status : Status;
  executionTime : option Q
}.

(** [totalTrades] only counts up from zero and is kept as a natural
    number. *)
Record PerformanceMetrics := {
  totalTrades : nat;
  successRate : Q;
  avgExecutionTime : Q;
  totalVolume : Js.number;
  tradesPerSecond : Q
}.

(** The fields of the engine that [updateMetrics] reads or writes.
    [copyTradeCacheSize] is [this.copyTradeCache.size]; no statement of
    the class adds an entry to that cache. *)
Record t := {
  metrics : PerformanceMetrics;
  tradeCount : nat;
  lastMetricsUpdate : Q;
  copyTradeCacheSize : nat
}.

Definition count (n : nat) : Q := inject_Z (Z.of_nat n).

(** The field initialisers; [constructed] is [Date.now()] at
    construction. *)
Definition initial (constructed : Q) : t :=
  {| metrics := {| totalTrades := 0; successRate := 0%Q; avgExecutionTime := 0%Q;
                   totalVolume := Js.Num 0; tradesPerSecond := 0%Q |};
     tradeCount := 0; lastMetricsUpdate := constructed; copyTradeCacheSize := 0 |}.

(** [if (copyTrade.executionTime)]: a time that is there and not zero. *)
Definition measured (copyTrade : CopyTrade) : option Q :=
  match executionTime copyTrade with
  | Some time => if Qeq_bool time 0 then None else Some time
  | None => None
  end.

(** [updateMetrics(copyTrade)]; [now] is what [Date.now()] returns. *)
Definition updateMetrics (copyTrade : CopyTrade) (now : Q) (e : t) : t :=
  let tradeCount1 := S (tradeCount e) in
  let m := metrics e in
  let '(total, average, volume) :=
    if is_completed (status copyTrade) then
      let totalTrades1 := S (totalTrades m) in
      (totalTrades1,
       match measured copyTrade with
       | Some time =>
           ((avgExecutionTime m * (count totalTrades1 - 1) + time) / count totalTrades1)%Q
       | None => avgExecutionTime m
       end,
       Batching.add (totalVolume m) (copySize copyTrade))
    else (totalTrades m, avgExecutionTime m, totalVolume m) in
  let totalProcessed := (count total + count (copyTradeCacheSize e))%Q in
  let rate := if Qlt_le_dec 0 totalProcessed then (count total / totalProcessed)%Q else 0%Q in
  let timeDiff := ((now - lastMetricsUpdate e) / 1000)%Q in
  if Qlt_le_dec 0 timeDiff then
    {| metrics := {| totalTrades := total; successRate := rate; avgExecutionTime := average;
                     totalVolume := volume;
                     tradesPerSecond := (count tradeCount1 / timeDiff)%Q |};
       tradeCount := 0; lastMetricsUpdate := now;
       copyTradeCacheSize := copyTradeCacheSize e |}
  else
    {| metrics := {| totalTrades := total; successRate := rate; avgExecutionTime := average;
                     totalVolume := volume;
                     tradesPerSecond := tradesPerSecond m |};
       tradeCount := tradeCount1; lastMetricsUpdate := lastMetricsUpdate e;
       copyTradeCacheSize := copyTradeCacheSize e |}.

(** The engine after a sequence of calls, each with the time it read. *)
Definition updates (calls : list (CopyTrade * Q)) (e : t) : t :=
  fold_left (fun e call => updateMetrics call.1 call.2 e) calls e.

(** The calls for a trade that completed. *)
Definition completions (calls : list (CopyTrade * Q)) : list CopyTrade :=
  filter (fun c => is_completed (status c)) (fst <$> calls).

End Metrics.

(** ** An engine of the backend for the examples *)

Module Backend.

(** A running engine with the initial configuration, watching one
    wallet, and a trade of that wallet. *)
Definition engine : Pipeline.t :=
  {| Pipeline.isRunning := true;
     Pipeline.targetAddresses := {["0xabc"]};
     Pipeline.config := HighPerformanceCopyTrader.initial;
     Pipeline.copyTradeQueue := [];
     Pipeline.handed := [] |}.

Definition trade : Pipeline.Trade :=
  {| Pipeline.id := "t1"; Pipeline.walletAddress := "0xabc"; Pipeline.size := Js.Num 10 |}.

End Backend.

(** * Properties *)

Import Effects Observe Watch.

Section EnvLemmas.
Context {W : Type} `{Externals W} `{Js.Builtins}.

Lemma scheduler_view_app (a b : list event) :
  scheduler_view (a ++ b) = scheduler_view a ++ scheduler_view b.
Proof. apply filter_app. Qed.

Lemma quiet_ret {A} (a : A) : quiet (W := W) (ret a).
Proof. by intros E. Qed.

Lemma quiet_throw {A} (e : Js.exn) : quiet (W := W) (A := A) (throw e).
Proof. by intros E. Qed.

Lemma quiet_bind {A B} (m : M (Env W) A) (k : A → M (Env W) B) :
  quiet m → (∀ a, quiet (k a)) → quiet (bind m k).
Proof.
  intros Hm Hk E. unfold bind. specialize (Hm E).
  destruct (m E) as [[e|a] E1]; simpl in *; [done|].
  by rewrite Hk.
Qed.

Lemma quiet_try_catch {A} (m : M (Env W) A) (h : Js.exn → M (Env W) A) :
  quiet m → (∀ e, quiet (h e)) → quiet (try_catch m h).
Proof.
  intros Hm Hh E. unfold try_catch. specialize (Hm E).
  destruct (m E) as [[e|a] E1]; simpl in *; [|done].
  by rewrite Hh.
Qed.

Lemma quiet_perform {A} (c : call) raise (f : W → (string + A) * W) :
  quiet (perform c raise f).
Proof.
  intros E. unfold perform. destruct (f (world E)) as [r w]. simpl.
  rewrite scheduler_view_app. simpl. by rewrite app_nil_r.
Qed.

Lemma quiet_now : quiet (W := W) now.
Proof. intros E. unfold now. by destruct (Date_now (world E)). Qed.

Lemma quiet_for_each {A B} (f : A → M (Env W) B) (xs : list A) :
  (∀ x, quiet (f x)) → quiet (for_each f xs).
Proof.
  intros Hf. induction xs as [|x xs IH]; simpl.
  - apply quiet_ret.
  - apply quiet_bind; [apply Hf|]. intros y.
    apply quiet_bind; [apply IH|]. intros ys. apply quiet_ret.
Qed.

End EnvLemmas.

(** ** Fill Source *)

Section GammaLemmas.
Context {W : Type} `{Externals W} `{Js.Builtins}.

Lemma silent_quiet {A} (m : M (Env W) A) : silent m → quiet m.
Proof. intros Hm E. by rewrite Hm. Qed.

Lemma silent_ret {A} (a : A) : silent (W := W) (ret a).
Proof. by intros E. Qed.

Lemma silent_throw {A} (e : Js.exn) : silent (W := W) (A := A) (throw e).
Proof. by intros E. Qed.

Lemma silent_now : silent (W := W) now.
Proof. intros E. unfold now. by destruct (Date_now (world E)). Qed.

Lemma silent_bind {A B} (m : M (Env W) A) (k : A → M (Env W) B) :
  silent m → (∀ a, silent (k a)) → silent (bind m k).
Proof.
  intros Hm Hk E. unfold bind. specialize (Hm E).
  destruct (m E) as [[e|a] E1]; simpl in *; [done|].
  by rewrite Hk.
Qed.

Lemma silent_for_each {A B} (f : A → M (Env W) B) (xs : list A) :
  (∀ x, silent (f x)) → silent (for_each f xs).
Proof.
  intros Hf. induction xs as [|x xs IH]; simpl.
  - apply silent_ret.
  - apply silent_bind; [apply Hf|]. intros y.
    apply silent_bind; [apply IH|]. intros ys. apply silent_ret.
Qed.

Lemma raises_ret {A} (a : A) : raises_type_errors (W := W) (ret a).
Proof. intros E e. discriminate. Qed.

Lemma raises_now : raises_type_errors (W := W) now.
Proof. intros E e. unfold now. destruct (Date_now (world E)). discriminate. Qed.

Lemma raises_bind {A B} (m : M (Env W) A) (k : A → M (Env W) B) :
  raises_type_errors m → (∀ a, raises_type_errors (k a)) →
  raises_type_errors (bind m k).
Proof.
  intros Hm Hk E e. unfold bind. specialize (Hm E).
  destruct (m E) as [[e'|a] E1]; simpl in *.
  - intros [= <-]. by apply Hm.
  - apply Hk.
Qed.

Lemma raises_for_each {A B} (f : A → M (Env W) B) (xs : list A) :
  (∀ x, raises_type_errors (f x)) → raises_type_errors (for_each f xs).
Proof.
  intros Hf. induction xs as [|x xs IH]; simpl.
  - apply raises_ret.
  - apply raises_bind; [apply Hf|]. intros y.
    apply raises_bind; [apply IH|]. intros ys. apply raises_ret.
Qed.

Lemma normalizeFill_silent (f : Js.value) : silent (Gamma.normalizeFill f).
Proof.
  unfold Gamma.normalizeFill. destruct (Js.nullish f); [apply silent_throw|].
  apply silent_bind; [|intros; apply silent_ret].
  destruct (Js.to_Number _) as [|q]; [apply silent_now|].
  destruct (Qeq_bool q 0); [apply silent_now | apply silent_ret].
Qed.

Lemma normalizeFill_raises (f : Js.value) : raises_type_errors (Gamma.normalizeFill f).
Proof.
  unfold Gamma.normalizeFill. destruct (Js.nullish f).
  - intros E e [= <-]. eauto.
  - apply raises_bind; [|intros; apply raises_ret].
    destruct (Js.to_Number _) as [|q]; [apply raises_now|].
    destruct (Qeq_bool q 0); [apply raises_now | apply raises_ret].
Qed.

Lemma normalizeAll_silent (raw : Js.value) : silent (Gamma.normalizeAll raw).
Proof.
  destruct raw; simpl; try apply silent_throw.
  apply silent_for_each, normalizeFill_silent.
Qed.

Lemma normalizeAll_raises (raw : Js.value) : raises_type_errors (Gamma.normalizeAll raw).
Proof.
  destruct raw; simpl; try (intros E e [= <-]; eauto).
  apply raises_for_each, normalizeFill_raises.
Qed.

(** One candidate is one request; accepting it means a response whose
    status is neither 401 nor 404 and whose records all normalise. *)
Lemma run_attempt_inv (c : Gamma.GammaClient) (a : Gamma.Attempt) (E : Env W) :
  match axios_get (Gamma.request c a) (world E) with
  | (inl msg, w') =>
      Gamma.run_attempt c a E
      = (inl (Js.AxiosError msg), record (Call (AxiosGet (Gamma.request c a))) {| world := w'; trace := trace E |})
  | (inr r, w') =>
      let E1 := record (Call (AxiosGet (Gamma.request c a))) {| world := w'; trace := trace E |} in
      if Z.eqb (status r) 401 then Gamma.run_attempt c a E = (inl Gamma.unauthorized, E1)
      else if Z.eqb (status r) 404 then Gamma.run_attempt c a E = (inl Gamma.not_found, E1)
      else Gamma.run_attempt c a E = Gamma.normalizeAll (Gamma.normalize a (data r)) E1
  end.
Proof.
  unfold Gamma.run_attempt, bind, perform, record.
  destruct (axios_get _ _) as [[msg|r] w']; simpl; [done|].
  by repeat case_match.
Qed.

Lemma run_attempt_requests (c : Gamma.GammaClient) (a : Gamma.Attempt) (E : Env W) :
  requests (trace (Gamma.run_attempt c a E).2) = requests (trace E) ++ [Gamma.request c a].
Proof.
  pose proof (run_attempt_inv c a E) as Hinv.
  destruct (axios_get _ _) as [[msg|r] w']; simpl in Hinv.
  - rewrite Hinv. simpl. unfold requests. by rewrite omap_app.
  - assert (requests (trace (record (Call (AxiosGet (Gamma.request c a)))
                               {| world := w'; trace := trace E |}))
            = requests (trace E) ++ [Gamma.request c a]) as Hrec.
    { simpl. unfold requests. by rewrite omap_app. }
    repeat case_match; rewrite Hinv; simpl; try done.
    rewrite normalizeAll_silent. exact Hrec.
Qed.

Lemma run_attempt_quiet (c : Gamma.GammaClient) (a : Gamma.Attempt) :
  quiet (Gamma.run_attempt c a).
Proof.
  unfold Gamma.run_attempt. apply quiet_bind; [apply quiet_perform|].
  intros r. repeat case_match; try apply quiet_throw.
  apply silent_quiet, normalizeAll_silent.
Qed.

Lemma try_attempts_quiet (c : Gamma.GammaClient) (candidates : list Gamma.Attempt) last :
  quiet (Gamma.try_attempts c candidates last).
Proof.
  revert last. induction candidates as [|a rest IH]; intros last; simpl.
  - apply quiet_throw.
  - apply quiet_try_catch; [apply run_attempt_quiet|]. intros e. apply IH.
Qed.

Lemma fetchFillsByAddress_quiet (c : Gamma.GammaClient) address sinceMs limit :
  quiet (Gamma.fetchFillsByAddress c address sinceMs limit).
Proof. apply try_attempts_quiet. Qed.

Lemma try_attempts_accepts (c : Gamma.GammaClient) pre a post errs
    (E E1 E2 : Env W) fills last :
  exhausted c pre E errs E1 →
  Gamma.run_attempt c a E1 = (inr fills, E2) →
  Gamma.try_attempts c (pre ++ a :: post) last E = (inr fills, E2).
Proof.
  intros Hpre Ha. revert last.
  induction Hpre as [E|a' rest E e E1 errs E3 Hfail _ IH]; intros last; simpl.
  - unfold try_catch. by rewrite Ha.
  - unfold try_catch. rewrite Hfail. by apply IH.
Qed.

Lemma try_attempts_exhausted (c : Gamma.GammaClient) candidates errs (E E' : Env W) prev :
  exhausted c candidates E errs E' →
  Gamma.try_attempts c candidates prev E
  = (inl (default (Js.Error "Unable to fetch fills") (last (option_list prev ++ errs))), E').
Proof.
  intros Hall. revert prev.
  induction Hall as [E|a rest E e E1 errs E2 Hfail _ IH]; intros prev; simpl.
  - rewrite app_nil_r. by destruct prev.
  - unfold try_catch. rewrite Hfail, IH. do 3 f_equal.
    destruct prev; simpl; [|done]. by destruct errs.
Qed.

Lemma exhausted_requests (c : Gamma.GammaClient) candidates errs (E E' : Env W) :
  exhausted c candidates E errs E' →
  requests (trace E') = requests (trace E) ++ (Gamma.request c <$> candidates)
  ∧ length errs = length candidates.
Proof.
  induction 1 as [E|a rest E e E1 errs E2 Hfail _ [IH1 IH2]]; simpl.
  - by rewrite app_nil_r.
  - split; [|by rewrite IH2].
    rewrite IH1. pose proof (run_attempt_requests c a E) as Hreq.
    rewrite Hfail in Hreq. simpl in Hreq. by rewrite Hreq, <- app_assoc.
Qed.

Lemma try_attempts_total (c : Gamma.GammaClient) candidates (E : Env W) :
  (∃ pre a post errs E1 fills E2,
      candidates = pre ++ a :: post ∧ exhausted c pre E errs E1
      ∧ Gamma.run_attempt c a E1 = (inr fills, E2))
  ∨ (∃ errs E', exhausted c candidates E errs E').
Proof.
  revert E. induction candidates as [|a rest IH]; intros E.
  - right. exists [], E. constructor.
  - destruct (Gamma.run_attempt c a E) as [[e|fills] E1] eqn:Ha.
    + destruct (IH E1) as [(pre & a' & post & errs & E2 & fills & E3 & -> & Hpre & Hok)
                          |(errs & E' & Hall)].
      * left. exists (a :: pre), a', post, (e :: errs), E2, fills, E3.
        split; [done|]. split; [|done]. by econstructor.
      * right. exists (e :: errs), E'. by econstructor.
    + left. exists [], a, rest, [], E, fills, E1. split; [done|]. split; [constructor|done].
Qed.

End GammaLemmas.

Section GammaTheorems.
Context {W : Type} `{Externals W} `{Js.Builtins}.

(** C5. [fetchFillsByAddress] tries its candidates in the order of the
    list. (1) When the candidates before [a] all fail and [a] gets a
    response whose status is neither 401 nor 404 and whose records
    normalise without a throw, the call returns the records normalised
    through the extractor of [a], and the requests sent are those of the
    candidates up to [a] and no other. (2) When every candidate fails,
    the call throws the error of the last one, after one request per
    candidate. (3) One of the two always happens. (4) A failing
    candidate throws the AxiosError of the transport, "Unauthorized (401)
    from data source" on 401, "Not found (404)" on 404, and a TypeError
    when normalisation throws; these are different errors. *)
Theorem fetch_takes_first_viable_candidate (c : Gamma.GammaClient) (address : string)
    (sinceMs : option Js.slot) (limit : Q) (E : Env W) :
  let candidates := Gamma.attempts c address sinceMs limit in
  (∀ pre a post errs E1 fills E2,
      candidates = pre ++ a :: post →
      exhausted c pre E errs E1 →
      Gamma.run_attempt c a E1 = (inr fills, E2) →
      Gamma.fetchFillsByAddress c address sinceMs limit E = (inr fills, E2)
      ∧ requests (trace E2) = requests (trace E) ++ (Gamma.request c <$> pre ++ [a])
      ∧ ∃ r w', axios_get (Gamma.request c a) (world E1) = (inr r, w')
          ∧ status r ≠ 401%Z ∧ status r ≠ 404%Z
          ∧ Gamma.normalizeAll (Gamma.normalize a (data r))
              (record (Call (AxiosGet (Gamma.request c a))) {| world := w'; trace := trace E1 |})
            = (inr fills, E2))
  ∧ (∀ errs E',
      exhausted c candidates E errs E' →
      ∃ e, last errs = Some e
        ∧ Gamma.fetchFillsByAddress c address sinceMs limit E = (inl e, E')
        ∧ requests (trace E') = requests (trace E) ++ (Gamma.request c <$> candidates))
  ∧ ((∃ pre a post errs E1 fills E2,
        candidates = pre ++ a :: post ∧ exhausted c pre E errs E1
        ∧ Gamma.run_attempt c a E1 = (inr fills, E2))
     ∨ (∃ errs E', exhausted c candidates E errs E'))
  ∧ (∀ a E0 e E1,
      Gamma.run_attempt c a E0 = (inl e, E1) →
      match axios_get (Gamma.request c a) (world E0) with
      | (inl msg, _) => e = Js.AxiosError msg
      | (inr r, _) =>
          if Z.eqb (status r) 401 then e = Gamma.unauthorized
          else if Z.eqb (status r) 404 then e = Gamma.not_found
          else ∃ msg, e = Js.TypeError msg
      end)
  ∧ Gamma.unauthorized ≠ Gamma.not_found
  ∧ (∀ msg, Js.AxiosError msg ≠ Gamma.unauthorized ∧ Js.AxiosError msg ≠ Gamma.not_found)
  ∧ (∀ msg, Js.TypeError msg ≠ Gamma.unauthorized ∧ Js.TypeError msg ≠ Gamma.not_found).
Proof.
  intros candidates.
  split; [|split; [|split; [|split; [|repeat split; discriminate]]]].
  - intros pre a post errs E1 fills E2 Hsplit Hpre Ha.
    split; [|split].
    + unfold Gamma.fetchFillsByAddress. fold candidates. rewrite Hsplit.
      by eapply try_attempts_accepts.
    + apply exhausted_requests in Hpre as [Hreq _].
      pose proof (run_attempt_requests c a E1) as Hone. rewrite Ha in Hone. simpl in Hone.
      by rewrite Hone, Hreq, fmap_app, app_assoc.
    + pose proof (run_attempt_inv c a E1) as Hinv.
      destruct (axios_get _ _) as [[msg|r] w'] eqn:Hget; simpl in Hinv; [congruence|].
      exists r, w'. split; [done|].
      destruct (Z.eqb_spec (status r) 401); [congruence|].
      destruct (Z.eqb_spec (status r) 404); [congruence|].
      repeat split; try done. by rewrite <- Hinv.
  - intros errs E' Hall.
    pose proof (exhausted_requests _ _ _ _ _ Hall) as [Hreq Hlen].
    destruct (last errs) as [e|] eqn:Hlast.
    + exists e. split; [done|]. split; [|done].
      unfold Gamma.fetchFillsByAddress. fold candidates.
      rewrite (try_attempts_exhausted _ _ _ _ _ None Hall). simpl. by rewrite Hlast.
    + apply last_None in Hlast. subst errs. simpl in Hlen. discriminate.
  - apply try_attempts_total.
  - intros a E0 e E1 Hfail.
    pose proof (run_attempt_inv c a E0) as Hinv.
    destruct (axios_get _ _) as [[msg|r] w'] eqn:Hget; simpl in Hinv; [congruence|].
    destruct (Z.eqb (status r) 401); [congruence|].
    destruct (Z.eqb (status r) 404); [congruence|].
    rewrite Hinv in Hfail.
    eapply (normalizeAll_raises _ _ e). by rewrite Hfail.
Qed.

End GammaTheorems.

(** The data API answers 404, 401 and then a [trades] array: three
    requests are sent and the array is normalised. *)
Lemma fetch_takes_first_viable_candidate_witness :
  ∃ f E2,
    Gamma.fetchFillsByAddress Scripted.data_api "0xB" None 50 (Scripted.fresh Scripted.data_api_v1)
    = (inr [f], E2)
    ∧ GammaFill.id f = "f1"
    ∧ get_url <$> requests (trace E2)
      = [ "https://data-api.polymarket.com/fills";
          "https://data-api.polymarket.com/trades";
          "https://data-api.polymarket.com/v1/trades" ].
Proof.
  edestruct (fetch_takes_first_viable_candidate Scripted.data_api "0xB" None 50
               (Scripted.fresh Scripted.data_api_v1)) as [Hfirst _].
  epose proof (Hfirst [_; _] _ _ _ _ _ _ eq_refl) as Hthird.
  edestruct Hthird as (Hres & Hreq & _).
  - econstructor; [vm_compute; reflexivity|].
    econstructor; [vm_compute; reflexivity|]. constructor.
  - vm_compute. reflexivity.
  - eexists _, _. split; [exact Hres|]. split; [reflexivity|].
    rewrite Hreq. reflexivity.
Defined.

(** ** Order Mirror *)

Section PolymarketLemmas.
Context {W : Type} `{Externals W} `{Js.Builtins}.

Lemma ensureApprovals_quiet (c : Polymarket.PolymarketClient) :
  quiet (Polymarket.ensureApprovals c).
Proof.
  unfold Polymarket.ensureApprovals.
  repeat case_match; try apply quiet_ret. apply quiet_perform.
Qed.

Lemma ensure_creds_quiet : quiet Polymarket.ensure_creds.
Proof.
  unfold Polymarket.ensure_creds.
  apply quiet_bind; [case_match; [apply quiet_perform | apply quiet_ret]|].
  intros creds. repeat case_match; try apply quiet_ret;
    (apply quiet_try_catch; [|intros; apply quiet_ret]);
    (apply quiet_bind; [apply quiet_perform|]); intros;
    try apply quiet_perform; apply quiet_ret.
Qed.

Lemma submit_live_quiet (c : Polymarket.PolymarketClient) order slippage :
  quiet (Polymarket.submit_live c order slippage).
Proof.
  unfold Polymarket.submit_live. case_match.
  - apply quiet_bind; [apply quiet_perform|]. intros. apply quiet_ret.
  - apply quiet_bind; [apply ensure_creds_quiet|]. intros.
    apply quiet_bind; [apply quiet_perform|]. intros.
    apply quiet_bind; [apply quiet_perform|]. intros. apply quiet_ret.
Qed.

Lemma mirrorOrder_quiet (c : Polymarket.PolymarketClient) order :
  quiet (Polymarket.mirrorOrder c order).
Proof.
  unfold Polymarket.mirrorOrder. case_match; [apply quiet_ret|].
  apply quiet_try_catch; [apply submit_live_quiet|]. intros. apply quiet_throw.
Qed.



End PolymarketLemmas.

Section PolymarketTheorems.
Context {W : Type} `{Externals W} `{Js.Builtins}.

(** C6. In dry-run mode [mirrorOrder] returns at once: the world and the
    trace are left as they were, so nothing was sent to the venue, and
    the token is the same for any two calls that agree on marketId,
    outcomeId, side, size, price and the configured maxSlippageBps,
    whatever the rest of the request, the client and the world are. *)
Theorem dry_run_contacts_nothing (c1 c2 : Polymarket.PolymarketClient)
    (o1 o2 : MirrorOrderRequest.t) (E1 E2 : Env W) :
  Polymarket.dryRun c1 = true →
  Polymarket.dryRun c2 = true →
  Polymarket.maxSlippageBps c1 = Polymarket.maxSlippageBps c2 →
  MirrorOrderRequest.marketId o1 = MirrorOrderRequest.marketId o2 →
  MirrorOrderRequest.outcomeId o1 = MirrorOrderRequest.outcomeId o2 →
  MirrorOrderRequest.side o1 = MirrorOrderRequest.side o2 →
  MirrorOrderRequest.size o1 = MirrorOrderRequest.size o2 →
  MirrorOrderRequest.price o1 = MirrorOrderRequest.price o2 →
  ∃ token,
    Polymarket.mirrorOrder c1 o1 E1 = (inr (Js.VString token), E1)
    ∧ Polymarket.mirrorOrder c2 o2 E2 = (inr (Js.VString token), E2).
Proof.
  intros Hd1 Hd2 Hslip Hm Ho Hs Hz Hp.
  exists (Polymarket.dry_run_token o1 (Js.div_lit (Polymarket.maxSlippageBps c1) 10000)).
  unfold Polymarket.mirrorOrder. rewrite Hd1, Hd2. split; [done|].
  unfold Polymarket.dry_run_token, ret. by rewrite Hslip, Hm, Ho, Hs, Hz, Hp.
Qed.

End PolymarketTheorems.

(** Two dry-run clients of different venues, in different worlds, asked
    for orders that differ in [outcomeIndex] only. *)
Lemma dry_run_contacts_nothing_witness :
  ∃ token,
    Polymarket.mirrorOrder Scripted.dry_client (Scripted.order 15 None)
      (Scripted.fresh Scripted.venue_down)
    = (inr (Js.VString token), Scripted.fresh Scripted.venue_down)
    ∧ Polymarket.mirrorOrder Scripted.dry_client_elsewhere
        (Scripted.order 15 (Some (Js.Num 1))) (Scripted.fresh Scripted.data_api_v1)
      = (inr (Js.VString token), Scripted.fresh Scripted.data_api_v1).
Proof. apply dry_run_contacts_nothing; reflexivity. Defined.

(** ** Per-address sync state *)

Section SyncState.
Import CopyTrader.
#[local] Set Warnings "-clear-no-such-hyp".

Lemma seen_of_advance a t svc a' : seen_of (advance a t svc) a' = seen_of svc a'.
Proof. unfold advance, write_last. by repeat case_match. Qed.

Lemma since_of_seen_add a i svc a' : since_of (seen_add a i svc) a' = since_of svc a'.
Proof. done. Qed.

Lemma mk_advance a t svc : mk (advance a t svc) = mk svc.
Proof. unfold advance, write_last. by repeat case_match. Qed.

Lemma settings_advance a t svc : settings (advance a t svc) = settings svc.
Proof. unfold advance, write_last. by repeat case_match. Qed.

Lemma proto_is_inherited : "__proto__" ∈ Object_prototype_names.
Proof. unfold Object_prototype_names. set_solver. Qed.

(** A write does not touch what is read under another name. *)
Lemma since_of_advance_ne a t svc a' :
  a ≠ a' → since_of (advance a t svc) a' = since_of svc a'.
Proof.
  intros Hne. unfold advance, write_last.
  repeat case_match; try done; unfold since_of, read_last; simpl;
    by rewrite lookup_insert_ne.
Qed.

(** Under every name but ["__proto__"] a write is read back. *)
Lemma since_of_advance_stored a t svc :
  a ≠ "__proto__" →
  since_of (advance a t svc) a
  = Js.Numeric (Js.Math_max (Js.slot_number (since_of svc a)) (Js.Num t)).
Proof.
  intros Hne. unfold advance, write_last.
  repeat case_match; try done; unfold since_of at 1, read_last at 1; simpl;
    try by rewrite lookup_insert_eq.
  by rewrite bool_decide_eq_true in *.
Qed.

(** A cursor that reads as a number is not under ["__proto__"] unless it
    is an own property, so the write is read back. *)
Lemma since_of_advance_numeric a t svc n :
  since_of svc a = Js.Numeric n →
  since_of (advance a t svc) a = Js.Numeric (Js.Math_max n (Js.Num t)).
Proof.
  intros Hn. unfold advance, write_last. rewrite Hn. simpl.
  destruct (lastTimestampMsByAddress svc !! a) as [m|] eqn:Hown.
  - unfold since_of, read_last. simpl. by rewrite lookup_insert_eq.
  - unfold since_of, read_last in Hn. rewrite Hown in Hn.
    destruct (bool_decide (a = "__proto__")) eqn:Hp.
    + apply bool_decide_eq_true in Hp. subst a.
      by rewrite (bool_decide_eq_true_2 _ proto_is_inherited) in Hn.
    + unfold since_of, read_last. simpl. by rewrite lookup_insert_eq.
Qed.

Lemma not_below_refl v : not_below v v.
Proof. intros c Hc. exists c. split; [done | apply Qle_refl]. Qed.

Lemma not_below_trans v1 v2 v3 : not_below v1 v2 → not_below v2 v3 → not_below v1 v3.
Proof.
  intros H12 H23 c Hc. destruct (H12 c Hc) as (c2 & Hc2 & Hle2).
  destruct (H23 c2 Hc2) as (c3 & Hc3 & Hle3). exists c3. split; [done|].
  eapply Qle_trans; eauto.
Qed.

Lemma not_below_advance a t svc a' :
  not_below (since_of svc a') (since_of (advance a t svc) a').
Proof.
  destruct (decide (a = a')) as [->|Hne].
  - intros c Hc. rewrite (since_of_advance_numeric _ _ _ _ Hc). simpl.
    exists (Qmax c t). split; [done | apply Q.le_max_l].
  - rewrite since_of_advance_ne by done. apply not_below_refl.
Qed.

Lemma seen_of_seen_add a i svc a' :
  seen_of (seen_add a i svc) a'
  = if decide (a = a') then {[i]} ∪ seen_of svc a else seen_of svc a'.
Proof.
  unfold seen_of at 1, seen_add. simpl. rewrite lookup_insert.
  by destruct (decide (a = a')).
Qed.

Lemma seen_of_register_seen a svc a' : seen_of (register_seen a svc) a' = seen_of svc a'.
Proof.
  unfold seen_of at 1, register_seen. simpl. rewrite lookup_insert.
  by destruct (decide (a = a')) as [->|].
Qed.

Lemma advances_refl svc : advances svc svc.
Proof. repeat split; try done. intros a. apply not_below_refl. Qed.

Lemma advances_trans svc1 svc2 svc3 :
  advances svc1 svc2 → advances svc2 svc3 → advances svc1 svc3.
Proof.
  intros (?&?&?&?&?&Hc1&Hs1) (?&?&?&?&?&Hc2&Hs2).
  repeat split; try congruence.
  - intros a. eapply not_below_trans; [apply Hc1 | apply Hc2].
  - intros a. etrans; [apply Hs1 | apply Hs2].
Qed.

Lemma advances_register_seen a svc : advances svc (register_seen a svc).
Proof.
  repeat split; try done.
  - intros a'. apply not_below_refl.
  - intros a'. by rewrite seen_of_register_seen.
Qed.

Lemma advances_observe_fill a svc agg f :
  advances svc (observe_fill a (svc, agg) f).1.
Proof.
  assert (∀ svc1 t, running (advance a t svc1) = running svc1
                    ∧ intervalId (advance a t svc1) = intervalId svc1
                    ∧ gamma (advance a t svc1) = gamma svc1
                    ∧ mk (advance a t svc1) = mk svc1
                    ∧ settings (advance a t svc1) = settings svc1) as Hfields.
  { intros svc1 t. unfold advance, write_last. by repeat case_match. }
  unfold observe_fill.
  destruct (bool_decide (GammaFill.id f ∈ seen_of svc a)); simpl.
  - destruct (Hfields svc (GammaFill.timestamp f)) as (?&?&?&?&?).
    repeat split; try done.
    + intros a'. apply not_below_advance.
    + intros a'. by rewrite seen_of_advance.
  - destruct (Hfields (seen_add a (GammaFill.id f) svc) (GammaFill.timestamp f))
      as (?&?&?&?&?).
    repeat split; try done.
    + intros a'.
      eapply not_below_trans; [|apply not_below_advance].
      rewrite since_of_seen_add. apply not_below_refl.
    + intros a'. rewrite seen_of_advance, seen_of_seen_add.
      destruct (decide (a = a')) as [->|]; set_solver.
Qed.

Lemma observe_fills_cons a f fills acc :
  observe_fills a (f :: fills) acc = observe_fills a fills (observe_fill a acc f).
Proof. done. Qed.

Lemma advances_observe_fills a fills svc agg :
  advances svc (observe_fills a fills (svc, agg)).1.
Proof.
  revert svc agg. induction fills as [|f fills IH]; intros svc agg.
  - apply advances_refl.
  - rewrite observe_fills_cons.
    destruct (observe_fill a (svc, agg) f) as [svc1 agg1] eqn:Hf.
    eapply advances_trans; [|apply IH].
    pose proof (advances_observe_fill a svc agg f) as Hadv. by rewrite Hf in Hadv.
Qed.

(** The cursor after a fill, seen before or not. *)
Lemma since_of_observe_fill a svc agg f n :
  since_of svc a = Js.Numeric n →
  since_of (observe_fill a (svc, agg) f).1 a
  = Js.Numeric (Js.Math_max n (Js.Num (GammaFill.timestamp f))).
Proof.
  intros Hn. unfold observe_fill.
  destruct (bool_decide (GammaFill.id f ∈ seen_of svc a)); simpl;
    by apply since_of_advance_numeric.
Qed.

Lemma since_of_observe_fill_ne a svc agg f a' :
  a ≠ a' → since_of (observe_fill a (svc, agg) f).1 a' = since_of svc a'.
Proof.
  intros Hne. unfold observe_fill.
  destruct (bool_decide (GammaFill.id f ∈ seen_of svc a)); simpl;
    by rewrite since_of_advance_ne.
Qed.

(** The cursor after a delivery, when it read as a number before. *)
Lemma observe_fills_cursor a fills svc agg c :
  since_of svc a = Js.Numeric (Js.Num c) →
  since_of (observe_fills a fills (svc, agg)).1 a
  = Js.Numeric (Js.Num (high_water c fills)).
Proof.
  revert svc agg c. induction fills as [|f fills IH]; intros svc agg c Hc; [done|].
  rewrite observe_fills_cons.
  pose proof (since_of_observe_fill a svc agg f _ Hc) as Hf.
  destruct (observe_fill a (svc, agg) f) as [svc1 agg1]. cbn [fst] in Hf.
  exact (IH svc1 agg1 _ Hf).
Qed.

(** NaN stays: [Math.max(NaN, t)] is NaN. *)
Lemma observe_fills_cursor_NaN a fills svc agg :
  since_of svc a = Js.Numeric Js.NaN →
  since_of (observe_fills a fills (svc, agg)).1 a = Js.Numeric Js.NaN.
Proof.
  revert svc agg. induction fills as [|f fills IH]; intros svc agg Hc; [done|].
  rewrite observe_fills_cons.
  pose proof (since_of_observe_fill a svc agg f _ Hc) as Hf.
  destruct (observe_fill a (svc, agg) f) as [svc1 agg1]. cbn [fst] in Hf.
  exact (IH svc1 agg1 Hf).
Qed.

(** The first fill of a delivery turns an inherited member into NaN. *)
Lemma observe_fills_cursor_inherited a f fills svc agg :
  a ≠ "__proto__" →
  since_of svc a = Js.Inherited →
  since_of (observe_fills a (f :: fills) (svc, agg)).1 a = Js.Numeric Js.NaN.
Proof.
  intros Hne Hc. rewrite observe_fills_cons.
  assert (since_of (observe_fill a (svc, agg) f).1 a = Js.Numeric Js.NaN) as Hf.
  { unfold observe_fill.
    destruct (bool_decide (GammaFill.id f ∈ seen_of svc a)); simpl;
      rewrite since_of_advance_stored by done;
      rewrite ?since_of_seen_add, Hc; done. }
  destruct (observe_fill a (svc, agg) f) as [svc1 agg1]. cbn [fst] in Hf.
  by apply observe_fills_cursor_NaN.
Qed.

Lemma Qmax_cases (x y : Q) : Qmax x y = x ∨ Qmax x y = y.
Proof. unfold Qmax, GenericMinMax.gmax. destruct (x ?= y)%Q; auto. Qed.

Lemma high_water_spec (cursor : Q) (fills : list GammaFill.t) :
  (cursor <= high_water cursor fills)%Q
  ∧ (∀ f, f ∈ fills → (GammaFill.timestamp f <= high_water cursor fills)%Q)
  ∧ (high_water cursor fills = cursor
     ∨ ∃ f, f ∈ fills ∧ high_water cursor fills = GammaFill.timestamp f).
Proof.
  revert cursor. induction fills as [|f fills IH]; intros cursor.
  - split; [apply Qle_refl|]. split; [by intros f ?%elem_of_nil|by left].
  - change (high_water cursor (f :: fills))
      with (high_water (Qmax cursor (GammaFill.timestamp f)) fills).
    destruct (IH (Qmax cursor (GammaFill.timestamp f))) as (Hle & Hall & Hone).
    split; [|split].
    + eapply Qle_trans; [apply Q.le_max_l|exact Hle].
    + intros f' [->|Hf']%elem_of_cons; [|by apply Hall].
      eapply Qle_trans; [apply Q.le_max_r|exact Hle].
    + destruct Hone as [Heq|(f' & Hf' & Heq)].
      * destruct (Qmax_cases cursor (GammaFill.timestamp f)) as [Hm|Hm]; rewrite Heq, Hm.
        -- by left.
        -- right. exists f. split; [apply elem_of_cons; by left|done].
      * right. exists f'. split; [apply elem_of_cons; by right|done].
Qed.

(** Deduplication keeps the batch and the submissions made so far
    disjoint and free of repetitions. *)
Lemma once_each_observe_fill done a svc agg f :
  once_each done svc agg →
  once_each done (observe_fill a (svc, agg) f).1 (observe_fill a (svc, agg) f).2.
Proof.
  intros [Hnd Hseen]. unfold observe_fill.
  destruct (bool_decide_reflect (GammaFill.id f ∈ seen_of svc a)) as [Hin|Hnew]; simpl.
  - split; [done|]. intros k Hk. rewrite seen_of_advance. by apply Hseen.
  - unfold once_each, keys in *. rewrite fmap_app. simpl. rewrite app_assoc. split.
    + apply NoDup_app. split; [done|]. split; [|apply NoDup_singleton].
      intros k Hk ->%list_elem_of_singleton. apply Hseen in Hk. by apply Hnew.
    + intros k [Hk| ->%list_elem_of_singleton]%elem_of_app;
        rewrite seen_of_advance, seen_of_seen_add; simpl.
      * apply Hseen in Hk. destruct (decide (a = k.1)) as [->|]; set_solver.
      * destruct (decide (a = a)); set_solver.
Qed.

Lemma once_each_observe_fills done a fills svc agg :
  once_each done svc agg →
  once_each done (observe_fills a fills (svc, agg)).1 (observe_fills a fills (svc, agg)).2.
Proof.
  revert svc agg. induction fills as [|f fills IH]; intros svc agg Hinv; [done|].
  rewrite observe_fills_cons.
  pose proof (once_each_observe_fill done a svc agg f Hinv) as Hstep.
  destruct (observe_fill a (svc, agg) f) as [svc1 agg1]. by apply IH.
Qed.

Lemma once_each_mono done svc svc' agg :
  (∀ a, seen_of svc a ⊆ seen_of svc' a) →
  once_each done svc agg → once_each done svc' agg.
Proof.
  intros Hsub [Hnd Hseen]. split; [done|].
  intros k Hk. by apply Hsub, Hseen.
Qed.

Lemma once_each_take done svc agg n :
  once_each done svc agg → once_each (done ++ keys (take n agg)) svc [].
Proof.
  intros [Hnd Hseen]. unfold once_each, keys in *. simpl. rewrite app_nil_r, fmap_take.
  assert (done ++ take n ((λ x, (x.2, GammaFill.id x.1)) <$> agg)
          `sublist_of` done ++ ((λ x, (x.2, GammaFill.id x.1)) <$> agg)) as Hsl.
  { apply sublist_app; [done | apply sublist_take]. }
  split; [by eapply sublist_NoDup|].
  intros k Hk. apply Hseen. by eapply sublist_subseteq.
Qed.

Lemma unseen_observe_fill svc0 a svc agg f :
  (∀ a', seen_of svc0 a' ⊆ seen_of svc a') →
  unseen svc0 agg → unseen svc0 (observe_fill a (svc, agg) f).2.
Proof.
  intros Hsub Hun. unfold observe_fill.
  destruct (bool_decide_reflect (GammaFill.id f ∈ seen_of svc a)) as [Hin|Hnew]; simpl; [done|].
  intros e [He| ->%list_elem_of_singleton]%elem_of_app; [by apply Hun|].
  simpl. intros Hold. by apply Hnew, Hsub.
Qed.

Lemma unseen_observe_fills svc0 a fills svc agg :
  (∀ a', seen_of svc0 a' ⊆ seen_of svc a') →
  unseen svc0 agg → unseen svc0 (observe_fills a fills (svc, agg)).2.
Proof.
  revert svc agg. induction fills as [|f fills IH]; intros svc agg Hsub Hun; [done|].
  rewrite observe_fills_cons.
  pose proof (unseen_observe_fill svc0 a svc agg f Hsub Hun) as Hstep.
  pose proof (advances_observe_fill a svc agg f) as (_&_&_&_&_&_&Hseen).
  destruct (observe_fill a (svc, agg) f) as [svc1 agg1]. apply IH; [|done].
  intros a'. etrans; [apply Hsub | apply Hseen].
Qed.

Lemma once_each_register_seen done a svc agg :
  once_each done svc agg → once_each done (register_seen a svc) agg.
Proof.
  intros [Hnd Hseen]. split; [done|].
  intros k Hk. rewrite seen_of_register_seen. by apply Hseen.
Qed.

End SyncState.

(** ** Scheduler *)

Section SchedulerLemmas.
Context {W : Type} `{Externals W} `{Js.Builtins}.
Import CopyTrader.

(** One address of a tick, in one piece. *)
Lemma collect_address_eq (a : string) (agg : Aggregated) (s : Sys W) :
  let since := since_of (service s) a in
  let s1 := with_env (record (Log (MsgChecking a since)) (env s))
              (with_service (register_seen a (service s)) s) in
  collect_address a agg s =
  match Gamma.fetchFillsByAddress (gamma (service s)) a (Some since) 50 (env s1) with
  | (inl err, E') => (inr agg, with_env (record (ErrorEvent (Js.exn_message err)) E') s1)
  | (inr fills, E') =>
      let r := observe_fills a fills (service s1, agg) in
      (inr r.2, with_service r.1 (with_env (record (Log (MsgFound (length fills) a)) E') s1))
  end.
Proof.
  intros since s1.
  unfold collect_address, bind, gets, update, modify, log, lift, emit, modify, try_catch,
    reportError, lift, emit, modify, ret. simpl. fold since.
  destruct (Gamma.fetchFillsByAddress _ _ _ _ _) as [[err|fills] E'] eqn:Hfetch; simpl; [done|].
  by destruct (observe_fills _ _ _).
Qed.

(** One entry of the batch, in one piece. *)
Lemma submit_one_eq (f : GammaFill.t) (a : string) (s : Sys W) :
  let cfg := settings (service s) in
  let order := mirror_request cfg f in
  match Polymarket.mirrorOrder (mk (service s)) order (record (Submit a f order) (env s)) with
  | (inl e, E') => submit_one (f, a) s = (inl e, with_env E' s)
  | (inr txHash, E') =>
      submit_one (f, a) s
      = (inr tt,
         with_env
           (record
              (Log (if Js.strict_eq_string txHash unavailable
                    then MsgSimulated a (GammaFill.side f) (mirror_size cfg f) (GammaFill.price f)
                    else MsgMirrored a (GammaFill.side f) (mirror_size cfg f) (GammaFill.price f)
                           (GammaFill.marketId f) (GammaFill.outcomeId f)
                           (Js.coalesce txHash (Js.VString "ok"))))
              E') s)
  end.
Proof.
  intros cfg order.
  unfold submit_one, bind, gets, lift, emit, modify, log, lift, emit, modify. simpl.
  fold cfg. fold order.
  destruct (Polymarket.mirrorOrder _ _ _) as [[e|txHash] E']; simpl; [done|].
  unfold unavailable. by destruct (Js.strict_eq_string txHash _).
Qed.

Lemma tick_eq (s : Sys W) :
  tick s =
  if running (service s) then
    match collect (CopySettings.targetAddresses (settings (service s))) [] s with
    | (inl e, s1) => (inl e, s1)
    | (inr [], s1) => (inr tt, with_env (record (Log MsgNoNew) (env s1)) s1)
    | (inr (entry :: rest), s1) =>
        match Polymarket.ensureApprovals (mk (service s1)) (env s1) with
        | (inl e, E') => (inl e, with_env E' s1)
        | (inr _, E') => submit_all (entry :: rest) (with_env E' s1)
        end
    end
  else (inr tt, s).
Proof.
  unfold tick, bind at 1, gets at 1. destruct (running (service s)); simpl; [|done].
  unfold bind at 1, gets at 1. unfold bind at 1.
  destruct (collect _ _ _) as [[e|[|entry rest]] s1]; try done.
  unfold bind at 1, gets at 1. unfold bind at 1, lift at 1.
  by destruct (Polymarket.ensureApprovals _ _) as [[e|[]] E'].
Qed.

Lemma scheduler_view_cons (ev : event) (tr : list event) :
  scheduler_view (ev :: tr)
  = if is_call ev then scheduler_view tr else ev :: scheduler_view tr.
Proof.
  unfold scheduler_view. rewrite filter_cons.
  by destruct ev.
Qed.

Lemma submissions_view (tr : list event) : submissions (scheduler_view tr) = submissions tr.
Proof.
  induction tr as [|ev tr IH]; [done|].
  rewrite scheduler_view_cons. unfold submissions in *.
  destruct ev; simpl; first [exact IH | f_equal; exact IH].
Qed.

Lemma errors_view (tr : list event) : errors (scheduler_view tr) = errors tr.
Proof.
  induction tr as [|ev tr IH]; [done|].
  rewrite scheduler_view_cons. unfold errors in *.
  destruct ev; simpl; first [exact IH | f_equal; exact IH].
Qed.

Lemma quiet_submissions {A} (m : M (Env W) A) (E : Env W) :
  quiet m → submissions (trace (m E).2) = submissions (trace E).
Proof. intros Hq. by rewrite <- submissions_view, Hq, submissions_view. Qed.

Lemma submissions_snoc (tr : list event) (ev : event) :
  submissions (tr ++ [ev])
  = submissions tr ++ match ev with Submit a f o => [(a, f, o)] | _ => [] end.
Proof. unfold submissions. rewrite omap_app. by destruct ev. Qed.

(** An address never makes the tick throw; it only lets the sync state
    grow, and submits nothing. *)
Lemma collect_address_spec (a : string) (agg : Aggregated) (s : Sys W) :
  ∃ agg',
    (collect_address a agg s).1 = inr agg'
    ∧ advances (service s) (service (collect_address a agg s).2)
    ∧ timers (collect_address a agg s).2 = timers s
    ∧ next_timer (collect_address a agg s).2 = next_timer s
    ∧ submissions (trace (env (collect_address a agg s).2)) = submissions (trace (env s))
    ∧ (∀ done, once_each done (service s) agg →
               once_each done (service (collect_address a agg s).2) agg')
    ∧ (∀ svc0, (∀ a', seen_of svc0 a' ⊆ seen_of (service s) a') →
               unseen svc0 agg → unseen svc0 agg').
Proof.
  pose proof (collect_address_eq a agg s) as Heq. simpl in Heq. rewrite Heq. clear Heq.
  pose proof (quiet_submissions _
    (record (Log (MsgChecking a (since_of (service s) a))) (env s))
    (fetchFillsByAddress_quiet (gamma (service s)) a (Some (since_of (service s) a)) 50))
    as Hsub.
  destruct (Gamma.fetchFillsByAddress _ _ _ _ _) as [[err|fills] E']; simpl in *.
  - exists agg. split; [done|]. split; [apply advances_register_seen|].
    split; [done|]. split; [done|]. split; [|split].
    + by rewrite submissions_snoc, Hsub, submissions_snoc, !app_nil_r.
    + intros done Hinv. by apply once_each_register_seen.
    + done.
  - eexists. split; [done|]. split; [|split; [done|split; [done|split; [|split]]]].
    + eapply advances_trans; [apply advances_register_seen|].
      apply advances_observe_fills.
    + by rewrite submissions_snoc, Hsub, submissions_snoc, !app_nil_r.
    + intros done Hinv. by apply once_each_observe_fills, once_each_register_seen.
    + intros svc0 Hsub0 Hun. apply unseen_observe_fills; [|done].
      intros a'. by rewrite seen_of_register_seen.
Qed.

Lemma collect_spec (addresses : list string) (agg : Aggregated) (s : Sys W) :
  ∃ agg',
    (collect addresses agg s).1 = inr agg'
    ∧ advances (service s) (service (collect addresses agg s).2)
    ∧ timers (collect addresses agg s).2 = timers s
    ∧ next_timer (collect addresses agg s).2 = next_timer s
    ∧ submissions (trace (env (collect addresses agg s).2)) = submissions (trace (env s))
    ∧ (∀ done, once_each done (service s) agg →
               once_each done (service (collect addresses agg s).2) agg')
    ∧ (∀ svc0, (∀ a', seen_of svc0 a' ⊆ seen_of (service s) a') →
               unseen svc0 agg → unseen svc0 agg').
Proof.
  revert agg s. induction addresses as [|a rest IH]; intros agg s; simpl.
  - exists agg. split; [done|]. split; [apply advances_refl|]. done.
  - unfold bind.
    destruct (collect_address_spec a agg s)
      as (agg1 & Hr & Hadv & Ht & Hn & Hsub & Hinv & Hun).
    destruct (collect_address a agg s) as [r s1]. simpl in *. subst r.
    destruct (IH agg1 s1) as (agg2 & Hr2 & Hadv2 & Ht2 & Hn2 & Hsub2 & Hinv2 & Hun2).
    exists agg2. split; [done|]. split; [by eapply advances_trans|].
    split; [congruence|]. split; [congruence|]. split; [congruence|].
    split; [eauto|]. intros svc0 Hsub0 Hun0. apply Hun2; [|by apply Hun].
    destruct Hadv as (_&_&_&_&_&_&Hseen). intros a'. etrans; [apply Hsub0 | apply Hseen].
Qed.

Lemma submit_one_spec (entry : GammaFill.t * string) (s : Sys W) :
  service (submit_one entry s).2 = service s
  ∧ timers (submit_one entry s).2 = timers s
  ∧ next_timer (submit_one entry s).2 = next_timer s
  ∧ submissions (trace (env (submit_one entry s).2))
    = submissions (trace (env s)) ++ [submission_of (settings (service s)) entry].
Proof.
  destruct entry as [f a].
  pose proof (submit_one_eq f a s) as Heq. cbv zeta in Heq.
  pose proof (quiet_submissions _
    (record (Submit a f (mirror_request (settings (service s)) f)) (env s))
    (mirrorOrder_quiet (mk (service s)) (mirror_request (settings (service s)) f))) as Hsub.
  destruct (Polymarket.mirrorOrder _ _ _) as [[e|txHash] E']; rewrite Heq; simpl in *.
  - repeat split; try done. by rewrite Hsub, submissions_snoc.
  - repeat split; try done.
    rewrite submissions_snoc, Hsub, submissions_snoc.
    by destruct (Js.strict_eq_string _ _); rewrite app_nil_r.
Qed.

(** The batch is submitted in order, up to and including the first
    entry whose submission throws. *)
Lemma submit_all_spec (agg : Aggregated) (s : Sys W) :
  service (submit_all agg s).2 = service s
  ∧ timers (submit_all agg s).2 = timers s
  ∧ next_timer (submit_all agg s).2 = next_timer s
  ∧ ∃ n, submissions (trace (env (submit_all agg s).2))
         = submissions (trace (env s))
           ++ (submission_of (settings (service s)) <$> take n agg).
Proof.
  revert s. induction agg as [|entry rest IH]; intros s; simpl.
  - repeat split; try done. exists 0%nat. by rewrite app_nil_r.
  - unfold bind.
    destruct (submit_one_spec entry s) as (Hsvc & Ht & Hn & Hsub).
    destruct (submit_one entry s) as [[e|[]] s1]; simpl in *.
    + repeat split; try done. by exists 1%nat.
    + destruct (IH s1) as (Hsvc2 & Ht2 & Hn2 & n & Hsub2).
      split; [congruence|]. split; [congruence|]. split; [congruence|].
      exists (S n). rewrite Hsub2, Hsub, Hsvc. by rewrite <- app_assoc.
Qed.

Lemma tick_spec (s : Sys W) :
  advances (service s) (service (tick s).2)
  ∧ timers (tick s).2 = timers s
  ∧ next_timer (tick s).2 = next_timer s
  ∧ session_step s (tick s).2.
Proof.
  assert (∀ s' : Sys W, advances (service s) (service s') →
            (∃ agg n, unseen (service s) agg
               ∧ (∀ done, once_each done (service s) [] → once_each done (service s') agg)
               ∧ submissions (trace (env s'))
                 = submissions (trace (env s))
                   ++ (submission_of (settings (service s)) <$> take n agg)) →
            session_step s s') as Hstep.
  { intros s' (_&_&_&_&Hcfg&Hcur&Hseen) Hbatch. by repeat split. }
  rewrite tick_eq. destruct (running (service s)).
  2: { split; [apply advances_refl|]. split; [done|]. split; [done|].
       apply Hstep; [apply advances_refl|].
       exists [], 0%nat. split; [by intros e ?%elem_of_nil|]. split; [done|].
       by rewrite app_nil_r. }
  destruct (collect_spec (CopySettings.targetAddresses (settings (service s))) [] s)
    as (agg & Hr & Hadv & Ht & Hn & Hsub & Hinv & Hun).
  destruct (collect _ _ _) as [r s1]. cbn [fst snd] in *. subst r.
  assert (unseen (service s) agg) as Hunseen.
  { apply Hun; [done|]. by intros e ?%elem_of_nil. }
  destruct agg as [|entry rest].
  - simpl. split; [done|]. split; [done|]. split; [done|]. apply Hstep; [done|].
    exists [], 0%nat. split; [by intros e ?%elem_of_nil|]. split; [done|].
    simpl. by rewrite submissions_snoc, Hsub.
  - pose proof (quiet_submissions _ (env s1) (ensureApprovals_quiet (mk (service s1)))) as Hq.
    destruct (Polymarket.ensureApprovals _ _) as [[e|u] E']; cbn [snd] in Hq.
    + split; [done|]. split; [done|]. split; [done|]. apply Hstep; [done|].
      exists (entry :: rest), 0%nat. split; [done|]. split; [done|].
      simpl. by rewrite Hq, Hsub, app_nil_r.
    + destruct (submit_all_spec (entry :: rest) (with_env E' s1))
        as (Hsvc & Ht2 & Hn2 & n & Hsub2).
      cbn [service timers next_timer env with_env] in Hsvc, Ht2, Hn2, Hsub2.
      split; [by rewrite Hsvc|]. split; [congruence|]. split; [congruence|].
      apply Hstep; [by rewrite Hsvc|].
      exists (entry :: rest), n. split; [done|]. rewrite Hsvc. split; [done|].
      rewrite Hsub2, Hq, Hsub.
      by destruct Hadv as (_&_&_&_&->&_).
Qed.

Lemma tick_guarded_spec (s : Sys W) :
  (tick_guarded s).1 = inr tt
  ∧ advances (service s) (service (tick_guarded s).2)
  ∧ timers (tick_guarded s).2 = timers s
  ∧ next_timer (tick_guarded s).2 = next_timer s
  ∧ session_step s (tick_guarded s).2.
Proof.
  destruct (tick_spec s) as (Hadv & Ht & Hn & Hstep).
  unfold tick_guarded, try_catch.
  destruct (tick s) as [[e|[]] s1]; unfold reportError, lift, emit, modify;
    simpl in *; [|done].
  destruct Hstep as (Hcur & Hseen & Hcfg & agg & n & Hun & Hinv & Hsub).
  split; [done|]. split; [done|]. split; [done|]. split; [done|].
  split; [done|]. split; [done|]. split; [done|].
  exists agg, n. split; [done|]. split; [done|].
  simpl. by rewrite submissions_snoc, Hsub, app_nil_r.
Qed.

Lemma start_eq (s : Sys W) :
  start s = if running (service s) then (inr tt, s) else tick_guarded (armed s).
Proof.
  unfold start, bind at 1, gets at 1. by destruct (running (service s)).
Qed.

Lemma stop_eq (s : Sys W) : stop s = (inr tt, halted s).
Proof.
  unfold stop, halted, bind, update, modify, gets, clearInterval, modify, log, lift, emit,
    modify, with_service, with_env. simpl.
  destruct (intervalId (service s)) eqn:Hid; simpl; [done|].
  unfold set_intervalId, set_running. simpl. by rewrite Hid.
Qed.

Lemma session_step_refl (s : Sys W) : session_step s s.
Proof.
  split; [intros a; apply not_below_refl|]. split; [done|]. split; [done|].
  exists [], 0%nat. split; [by intros e ?%elem_of_nil|]. split; [done|].
  by rewrite app_nil_r.
Qed.

(** A change that touches neither the sync state, the settings nor the
    submissions can be put in front of a step. *)
Lemma session_step_after (s s0 s' : Sys W) :
  lastTimestampMsByAddress (service s0) = lastTimestampMsByAddress (service s) →
  seenFillIdsByAddress (service s0) = seenFillIdsByAddress (service s) →
  settings (service s0) = settings (service s) →
  submissions (trace (env s0)) = submissions (trace (env s)) →
  session_step s0 s' → session_step s s'.
Proof.
  intros Hlast Hseen Hcfg Hsub (Hc & Hs & Hcfg' & agg & n & Hun & Hinv & Hsub').
  assert (∀ a, since_of (service s0) a = since_of (service s) a) as Hsince.
  { intros a. unfold since_of, read_last. by rewrite Hlast. }
  assert (∀ a, seen_of (service s0) a = seen_of (service s) a) as Hseen_of.
  { intros a. unfold seen_of. by rewrite Hseen. }
  split; [intros a; rewrite <- Hsince; apply Hc|].
  split; [intros a; rewrite <- Hseen_of; apply Hs|].
  split; [congruence|].
  exists agg, n. split; [|split].
  - intros e He. rewrite <- Hseen_of. by apply Hun.
  - intros done [Hnd Hin]. apply Hinv. split; [done|].
    intros k Hk. rewrite Hseen_of. by apply Hin.
  - by rewrite Hsub', Hsub, Hcfg.
Qed.

Lemma run_op_step (o : op) (s : Sys W) : session_step s (run_op o s).2.
Proof.
  destruct o as [| |i]; simpl.
  - rewrite start_eq. destruct (running (service s)); [apply session_step_refl|].
    destruct (tick_guarded_spec (armed s)) as (_ & _ & _ & _ & Hstep).
    eapply session_step_after; [..|exact Hstep]; try done.
    simpl. by rewrite submissions_snoc, app_nil_r.
  - rewrite stop_eq. simpl.
    eapply session_step_after; [..|apply session_step_refl]; try done.
    simpl. by rewrite submissions_snoc, app_nil_r.
  - unfold bind, gets. case_match; [|apply session_step_refl].
    by destruct (tick_guarded_spec s) as (_ & _ & _ & _ & Hstep).
Qed.

(** The submission phase of a tick leaves the service object as the
    polling loop left it. *)
Lemma tick_service (s : Sys W) :
  running (service s) = true →
  service (tick s).2
  = service (collect (CopySettings.targetAddresses (settings (service s))) [] s).2.
Proof.
  intros Hrun. rewrite tick_eq, Hrun.
  destruct (collect _ _ _) as [[e|[|entry rest]] s1]; try done.
  destruct (Polymarket.ensureApprovals _ _) as [[e|u] E']; [done|].
  by destruct (submit_all_spec (entry :: rest) (with_env E' s1)) as (-> & _).
Qed.

(** A tick that watches one address and is delivered [fills]. *)
Lemma tick_single (a : string) (s : Sys W) (fills : list GammaFill.t) (E' : Env W) :
  running (service s) = true →
  CopySettings.targetAddresses (settings (service s)) = [a] →
  Gamma.fetchFillsByAddress (gamma (service s)) a (Some (since_of (service s) a)) 50
    (record (Log (MsgChecking a (since_of (service s) a))) (env s))
  = (inr fills, E') →
  service (tick s).2 = (observe_fills a fills (register_seen a (service s), [])).1.
Proof.
  intros Hrun Htargets Hfetch. rewrite (tick_service s Hrun), Htargets.
  cbn [collect]. unfold bind.
  pose proof (collect_address_eq a [] s) as Heq. cbv zeta in Heq.
  change (env (with_env ?e _)) with e in Heq.
  rewrite Heq, Hfetch. done.
Qed.

End SchedulerLemmas.

Section SessionLemmas.
Context {W : Type} `{Externals W} `{Js.Builtins}.
Import CopyTrader.

Lemma run_ops_cons (o : op) (ops : list op) (s : Sys W) :
  run_ops (o :: ops) s = run_ops ops (run_op o s).2.
Proof. done. Qed.

Lemma submitted_batch (cfg : CopySettings.t) (l : Aggregated) :
  (λ x : string * GammaFill.t * MirrorOrderRequest.t, (x.1.1, GammaFill.id x.1.2))
    <$> (submission_of cfg <$> l) = keys l.
Proof. unfold keys. rewrite <- list_fmap_compose. by apply list_fmap_ext. Qed.

Lemma session_step_submitted (s s' : Sys W) :
  session_step s s' →
  ∃ agg n,
    unseen (service s) agg
    ∧ (∀ done, once_each done (service s) [] → once_each done (service s') agg)
    ∧ submitted (trace (env s')) = submitted (trace (env s)) ++ keys (take n agg).
Proof.
  intros (_ & _ & _ & agg & n & Hun & Hinv & Hsub).
  exists agg, n. split; [done|]. split; [done|].
  unfold submitted. by rewrite Hsub, fmap_app, submitted_batch.
Qed.

Lemma session_step_once (s s' : Sys W) :
  session_step s s' →
  once_each (submitted (trace (env s))) (service s) [] →
  once_each (submitted (trace (env s'))) (service s') [].
Proof.
  intros (agg & n & _ & Hinv & ->)%session_step_submitted Hdone.
  by apply once_each_take, Hinv.
Qed.

Lemma session_step_new (s s' : Sys W) :
  session_step s s' →
  ∃ new, submitted (trace (env s')) = submitted (trace (env s)) ++ new
         ∧ ∀ k, k ∈ new → k.2 ∉ seen_of (service s) k.1.
Proof.
  intros (agg & n & Hun & _ & ->)%session_step_submitted.
  exists (keys (take n agg)). split; [done|].
  intros k (e & -> & He)%list_elem_of_fmap. simpl.
  apply Hun. by eapply sublist_subseteq; [apply sublist_take|].
Qed.

Lemma run_ops_once (ops : list op) (s : Sys W) :
  once_each (submitted (trace (env s))) (service s) [] →
  once_each (submitted (trace (env (run_ops ops s)))) (service (run_ops ops s)) [].
Proof.
  revert s. induction ops as [|o ops IH]; intros s Hdone; [done|].
  rewrite run_ops_cons. apply IH. eapply session_step_once; [apply run_op_step | done].
Qed.

Lemma run_ops_grows (ops : list op) (s : Sys W) :
  (∀ a, not_below (since_of (service s) a) (since_of (service (run_ops ops s)) a))
  ∧ (∀ a, seen_of (service s) a ⊆ seen_of (service (run_ops ops s)) a).
Proof.
  revert s. induction ops as [|o ops IH]; intros s.
  - split; [intros a; apply not_below_refl | done].
  - rewrite run_ops_cons.
    destruct (run_op_step o s) as (Hc & Hs & _).
    destruct (IH (run_op o s).2) as [Hc' Hs'].
    split; intros a; [eapply not_below_trans | etrans]; eauto.
Qed.

Lemma run_ops_new (ops : list op) (s : Sys W) :
  ∃ new, submitted (trace (env (run_ops ops s))) = submitted (trace (env s)) ++ new
         ∧ ∀ k, k ∈ new → k.2 ∉ seen_of (service s) k.1.
Proof.
  revert s. induction ops as [|o ops IH]; intros s.
  - exists []. split; [by rewrite app_nil_r | by intros k ?%elem_of_nil].
  - rewrite run_ops_cons.
    destruct (session_step_new s _ (run_op_step o s)) as (new1 & Hsub1 & Hnew1).
    destruct (IH (run_op o s).2) as (new2 & Hsub2 & Hnew2).
    destruct (run_op_step o s) as (_ & Hseen & _).
    exists (new1 ++ new2). split; [by rewrite Hsub2, Hsub1, app_assoc|].
    intros k [Hk|Hk]%elem_of_app; [by apply Hnew1|].
    intros Hold. by apply (Hnew2 k Hk), Hseen.
Qed.

End SessionLemmas.

Section SessionTheorems.
Context {W : Type} `{Externals W} `{Js.Builtins}.
Import CopyTrader.

(** C2. In a session (a service object from its construction on, under
    any sequence of [start], [stop] and timer ticks, in any world) no two
    submissions are for the same fill identifier of the same address.
    And from any state on, no later submission is for an identifier that
    is in the address's set of seen identifiers at that state: delivering
    such a fill again submits nothing. *)
Theorem fill_mirrored_at_most_once :
  (∀ (g : Gamma.GammaClient) (m : Polymarket.PolymarketClient) (cfg : CopySettings.t)
     (w : W) (ops : list op),
      NoDup (submitted (trace (env (run_ops ops (boot (new g m cfg) w))))))
  ∧ (∀ (ops : list op) (s : Sys W),
      ∃ later,
        submitted (trace (env (run_ops ops s))) = submitted (trace (env s)) ++ later
        ∧ ∀ address id, id ∈ seen_of (service s) address → (address, id) ∉ later).
Proof.
  split.
  - intros g m cfg w ops.
    pose proof (run_ops_once ops (boot (new g m cfg) w)) as [Hnd _].
    { split; [apply NoDup_nil_2 | by intros k ?%elem_of_nil]. }
    by rewrite app_nil_r in Hnd.
  - intros ops s. destruct (run_ops_new ops s) as (later & Hsub & Hnew).
    exists later. split; [done|]. intros address id Hseen Hin.
    by apply (Hnew _ Hin).
Qed.

(** C3. The cursors are the properties of a plain object, and a read
    under the name of a member of [Object.prototype] finds that member
    where a new address should find nothing. With the watched address
    ["constructor"] and no cursor stored yet, a tick that is delivered at
    least one fill reads the member as the cursor before, leaves NaN as
    the cursor after, whatever the timestamps, and the next poll sends
    the requests of a poll without a cursor; under ["__proto__"] line 70
    stores nothing at all. Every address outside these names reads 0 on
    a new service, and for every address whose cursor reads as a number
    the claim holds: after a fill, seen before or not, the cursor is the
    maximum of the cursor before and the fill's timestamp; after a
    delivery it is the largest of the cursor before and the timestamps
    delivered; so it is after the tick that polled the address; and over
    any sequence of operations of a session it stays a number and never
    decreases. *)
Theorem cursor_is_lost_under_a_prototype_name :
  (∀ (s : Sys W) f fills E',
      running (service s) = true →
      CopySettings.targetAddresses (settings (service s)) = ["constructor"] →
      lastTimestampMsByAddress (service s) !! "constructor" = None →
      Gamma.fetchFillsByAddress (gamma (service s)) "constructor"
        (Some (since_of (service s) "constructor")) 50
        (record (Log (MsgChecking "constructor" (since_of (service s) "constructor")))
           (env s))
      = (inr (f :: fills), E') →
      since_of (service s) "constructor" = Js.Inherited
      ∧ since_of (service (tick s).2) "constructor" = Js.Numeric Js.NaN
      ∧ ∀ c limit,
          Gamma.attempts c "constructor"
            (Some (since_of (service (tick s).2) "constructor")) limit
          = Gamma.attempts c "constructor" None limit)
  ∧ (∀ svc timestamp,
      lastTimestampMsByAddress svc !! "__proto__" = None →
      advance "__proto__" timestamp svc = svc)
  ∧ (∀ g m cfg address,
      address ∉ Object_prototype_names →
      since_of (new g m cfg) address = Js.Numeric (Js.Num 0))
  ∧ (∀ address svc aggregated f c,
      since_of svc address = Js.Numeric (Js.Num c) →
      since_of (observe_fill address (svc, aggregated) f).1 address
      = Js.Numeric (Js.Num (Qmax c (GammaFill.timestamp f))))
  ∧ (∀ address svc aggregated fills c,
      since_of svc address = Js.Numeric (Js.Num c) →
      since_of (observe_fills address fills (svc, aggregated)).1 address
      = Js.Numeric (Js.Num (high_water c fills)))
  ∧ (∀ (s : Sys W) address c fills E',
      running (service s) = true →
      CopySettings.targetAddresses (settings (service s)) = [address] →
      since_of (service s) address = Js.Numeric (Js.Num c) →
      Gamma.fetchFillsByAddress (gamma (service s)) address
        (Some (since_of (service s) address)) 50
        (record (Log (MsgChecking address (since_of (service s) address))) (env s))
      = (inr fills, E') →
      since_of (service (tick s).2) address = Js.Numeric (Js.Num (high_water c fills)))
  ∧ (∀ (ops : list op) (s : Sys W) address c,
      since_of (service s) address = Js.Numeric (Js.Num c) →
      ∃ c', since_of (service (run_ops ops s)) address = Js.Numeric (Js.Num c')
            ∧ (c <= c')%Q).
Proof.
  split; [|split; [|split; [|split; [|split; [|split]]]]].
  - intros s f fills E' Hrun Htargets Hnone Hfetch.
    assert (since_of (service s) "constructor" = Js.Inherited) as Hread.
    { unfold since_of, read_last. by rewrite Hnone. }
    assert (since_of (service (tick s).2) "constructor" = Js.Numeric Js.NaN) as Hafter.
    { rewrite (tick_single _ _ _ _ Hrun Htargets Hfetch).
      by apply observe_fills_cursor_inherited. }
    split; [done|]. split; [done|]. intros c limit. by rewrite Hafter.
  - intros svc timestamp Hnone. unfold advance, write_last. by rewrite Hnone.
  - intros g m cfg address Hout. unfold since_of, read_last. simpl.
    rewrite lookup_empty. by rewrite bool_decide_eq_false_2.
  - intros address svc aggregated f c Hc.
    by rewrite (since_of_observe_fill _ _ _ _ _ Hc).
  - intros address svc aggregated fills c Hc. by apply observe_fills_cursor.
  - intros s address c fills E' Hrun Htargets Hc Hfetch.
    rewrite (tick_single _ _ _ _ Hrun Htargets Hfetch).
    by apply observe_fills_cursor.
  - intros ops s address c Hc. destruct (run_ops_grows ops s) as [Hgrow _].
    by apply Hgrow.
Qed.

End SessionTheorems.

(** One wallet that made a trade at 100 s, watched under the name
    ["constructor"] and under the name ["0xB"]: after the tick the first
    cursor is NaN, the second 100000 ms. *)
Lemma cursor_is_lost_under_a_prototype_name_witness :
  CopyTrader.since_of
    (CopyTrader.service (CopyTrader.tick (Scripted.watching "constructor")).2) "constructor"
  = Js.Numeric Js.NaN
  ∧ CopyTrader.since_of
      (CopyTrader.service (CopyTrader.tick (Scripted.watching "0xB")).2) "0xB"
    = Js.Numeric (Js.Num 100000).
Proof.
  destruct (@cursor_is_lost_under_a_prototype_name Scripted.World _ _)
    as (Hlost & _ & _ & _ & _ & Htick & _).
  split.
  - edestruct (Hlost (Scripted.watching "constructor")) as (_ & Hnan & _);
      [reflexivity | reflexivity | vm_compute; reflexivity | vm_compute; reflexivity
      | exact Hnan].
  - etrans.
    + eapply (Htick (Scripted.watching "0xB") "0xB");
        [reflexivity | reflexivity | vm_compute; reflexivity | vm_compute; reflexivity].
    + vm_compute. reflexivity.
Defined.

Section TickLemmas.
Context {W : Type} `{Externals W} `{Js.Builtins}.
Import CopyTrader.

Lemma errors_snoc (tr : list event) (ev : event) :
  errors (tr ++ [ev])
  = errors tr ++ match ev with ErrorEvent t => [t] | _ => [] end.
Proof. unfold errors. rewrite omap_app. by destruct ev. Qed.

Lemma quiet_result {A} (m : M (Env W) A) (E E' : Env W) r :
  quiet m → m E = (r, E') →
  errors (trace E') = errors (trace E) ∧ submissions (trace E') = submissions (trace E).
Proof.
  intros Hq Hm. specialize (Hq E). rewrite Hm in Hq. simpl in Hq.
  split; [by rewrite <- errors_view, Hq, errors_view|].
  by rewrite <- submissions_view, Hq, submissions_view.
Qed.

Lemma submit_one_errors (entry : GammaFill.t * string) (s : Sys W) :
  errors (trace (env (submit_one entry s).2)) = errors (trace (env s)).
Proof.
  destruct entry as [f a].
  pose proof (submit_one_eq f a s) as Heq. cbv zeta in Heq.
  destruct (Polymarket.mirrorOrder _ _ _) as [[e|txHash] E'] eqn:Hm; rewrite Heq; simpl;
    apply (quiet_result _ _ _ _ (mirrorOrder_quiet _ _)) in Hm as [Herr _].
  - rewrite Herr. simpl. by rewrite errors_snoc, app_nil_r.
  - rewrite errors_snoc, Herr. simpl. rewrite errors_snoc.
    by destruct (Js.strict_eq_string _ _); rewrite !app_nil_r.
Qed.

(** A failed fetch is reported and the loop goes on to the next address
    with the batch it had. *)
Lemma collect_skips_failed_fetch (s : Sys W) address rest agg err E' :
  Gamma.fetchFillsByAddress (gamma (service s)) address (Some (since_of (service s) address)) 50
    (record (Log (MsgChecking address (since_of (service s) address))) (env s))
  = (inl err, E') →
  collect (address :: rest) agg s
  = collect rest agg
      (with_env (record (ErrorEvent (Js.exn_message err)) E')
         (with_service (register_seen address (service s)) s)).
Proof.
  intros Hfetch. simpl. unfold bind at 1.
  pose proof (collect_address_eq address agg s) as Heq. cbv zeta in Heq.
  change (env (with_env ?e _)) with e in Heq. rewrite Hfetch in Heq. by rewrite Heq.
Qed.

(** A successful fetch is deduplicated into the batch. *)
Lemma collect_takes_fetched (s : Sys W) address rest agg fills E' :
  Gamma.fetchFillsByAddress (gamma (service s)) address (Some (since_of (service s) address)) 50
    (record (Log (MsgChecking address (since_of (service s) address))) (env s))
  = (inr fills, E') →
  collect (address :: rest) agg s
  = collect rest (observe_fills address fills (register_seen address (service s), agg)).2
      (with_service (observe_fills address fills (register_seen address (service s), agg)).1
         (with_env (record (Log (MsgFound (length fills) address)) E')
            (with_service (register_seen address (service s)) s))).
Proof.
  intros Hfetch. simpl. unfold bind at 1.
  pose proof (collect_address_eq address agg s) as Heq. cbv zeta in Heq.
  change (env (with_env ?e _)) with e in Heq. rewrite Hfetch in Heq. by rewrite Heq.
Qed.

Lemma submit_all_single (entry : GammaFill.t * string) (s : Sys W) :
  (submit_all [entry] s).2 = (submit_one entry s).2.
Proof. simpl. unfold bind, ret. by destruct (submit_one entry s) as [[e|[]] s']. Qed.

Lemma observe_fills_new a f svc agg :
  GammaFill.id f ∉ seen_of svc a →
  observe_fills a [f] (svc, agg)
  = (advance a (GammaFill.timestamp f) (seen_add a (GammaFill.id f) svc), agg ++ [(f, a)]).
Proof.
  intros Hnew. unfold observe_fills, observe_fill. simpl.
  by rewrite bool_decide_eq_false_2.
Qed.

End TickLemmas.

(** After the first tick of the overlapping polls the trade at 150 s is
    in the set of seen identifiers; the next tick receives it again and
    submits nothing for it. *)
Lemma fill_mirrored_at_most_once_witness :
  ∃ later,
    submitted
      (trace (CopyTrader.env
         (CopyTrader.run_ops [CopyTrader.OpTimer 0] Scripted.overlap_session)))
    = submitted (trace (CopyTrader.env Scripted.overlap_session)) ++ later
    ∧ ("0xB", "f2") ∉ later.
Proof.
  destruct (@fill_mirrored_at_most_once Scripted.World _ _) as [_ Hlater].
  destruct (Hlater [CopyTrader.OpTimer 0] Scripted.overlap_session) as (later & Heq & Hnot).
  exists later. split; [exact Heq|].
  apply Hnot. refine (bool_decide_unpack _ _). vm_compute. exact I.
Defined.

(** The overlap of two polls: the first tick mirrors the trades at 100 s
    and 150 s; the second poll returns the trade at 150 s again, which is
    suppressed, and a new one at 200 s, which is mirrored; the cursor
    ends at 200 s. *)
Example overlap_is_suppressed :
  submitted (trace (CopyTrader.env Scripted.overlap_session))
  = [("0xB", "f1"); ("0xB", "f2")]
  ∧ submitted
      (trace (CopyTrader.env
         (CopyTrader.run_ops [CopyTrader.OpTimer 0] Scripted.overlap_session)))
    = [("0xB", "f1"); ("0xB", "f2"); ("0xB", "f3")]
  ∧ CopyTrader.since_of
      (CopyTrader.service (CopyTrader.run_ops [CopyTrader.OpTimer 0] Scripted.overlap_session))
      "0xB"
    = Js.Numeric (Js.Num 200000).
Proof. split; [|split]; vm_compute; reflexivity. Qed.

Section TickTheorems.
Context {W : Type} `{Externals W} `{Js.Builtins}.
Import CopyTrader.

(** C7, as amended. A fetch that throws for one address is reported as
    an error event and the loop goes on with the remaining addresses and
    the batch collected so far; collecting never throws. With two
    addresses [A] and [B], when the fetch for [A] throws, the fetch for
    [B] returns one fill that was not seen, and the approvals step of the
    tick does not throw, the tick emits the error event for [A] and
    makes exactly one submission, for the fill of [B]. *)
Theorem fetch_failure_is_isolated :
  (∀ (s : Sys W) address rest agg err E',
      Gamma.fetchFillsByAddress (gamma (service s)) address
        (Some (since_of (service s) address)) 50
        (record (Log (MsgChecking address (since_of (service s) address))) (env s))
      = (inl err, E') →
      collect (address :: rest) agg s
      = collect rest agg
          (with_env (record (ErrorEvent (Js.exn_message err)) E')
             (with_service (register_seen address (service s)) s)))
  ∧ (∀ (s : Sys W) addresses agg, ∃ agg', (collect addresses agg s).1 = inr agg')
  ∧ (∀ (s : Sys W) A B errA EA f EB Eok,
      running (service s) = true →
      CopySettings.targetAddresses (settings (service s)) = [A; B] →
      Gamma.fetchFillsByAddress (gamma (service s)) A (Some (since_of (service s) A)) 50
        (record (Log (MsgChecking A (since_of (service s) A))) (env s))
      = (inl errA, EA) →
      Gamma.fetchFillsByAddress (gamma (service s)) B (Some (since_of (service s) B)) 50
        (record (Log (MsgChecking B (since_of (service s) B)))
           (record (ErrorEvent (Js.exn_message errA)) EA))
      = (inr [f], EB) →
      GammaFill.id f ∉ seen_of (service s) B →
      Polymarket.ensureApprovals (mk (service s)) (record (Log (MsgFound 1 B)) EB)
      = (inr tt, Eok) →
      errors (trace (env (tick s).2)) = errors (trace (env s)) ++ [Js.exn_message errA]
      ∧ submissions (trace (env (tick s).2))
        = submissions (trace (env s)) ++ [(B, f, mirror_request (settings (service s)) f)]).
Proof.
  split; [intros; by apply collect_skips_failed_fetch|]. split.
  { intros s addresses agg. destruct (collect_spec addresses agg s) as (agg' & Hr & _). eauto. }
  intros s A B errA EA f EB Eok Hrun Haddr HfA HfB Hnew Hok.
  rewrite tick_eq, Hrun, Haddr.
  rewrite (collect_skips_failed_fetch s A [B] [] errA EA HfA).
  set (sA := with_env _ (with_service (register_seen A (service s)) s)).
  rewrite (collect_takes_fetched sA B [] [] [f] EB HfB).
  assert (GammaFill.id f ∉ seen_of (register_seen B (service sA)) B) as Hnew'.
  { subst sA. simpl. by rewrite !seen_of_register_seen. }
  rewrite (observe_fills_new B f _ [] Hnew'). simpl collect. unfold ret.
  cbn [fst snd app].
  change (mk (service (with_service ?x _))) with (mk x). rewrite mk_advance.
  change (Polymarket.ensureApprovals _ _)
    with (Polymarket.ensureApprovals (mk (service s)) (record (Log (MsgFound 1 B)) EB)).
  rewrite Hok. cbn [fst snd]. rewrite submit_all_single.
  match goal with |- context [submit_one ?e ?st] =>
    pose proof (submit_one_spec e st) as (_ & _ & _ & Hsub);
    pose proof (submit_one_errors e st) as Herr end.
  rewrite Hsub, Herr.
  change (settings (service (with_env _ (with_service ?x _)))) with (settings x).
  rewrite settings_advance. simpl;
    apply (quiet_result _ _ _ _ (ensureApprovals_quiet _)) in Hok as [-> ->];
    apply (quiet_result _ _ _ _ (fetchFillsByAddress_quiet _ _ _ _)) in HfB as [HeB HsB];
    apply (quiet_result _ _ _ _ (fetchFillsByAddress_quiet _ _ _ _)) in HfA as [HeA HsA];
    simpl in *;
    rewrite errors_snoc, submissions_snoc, HeB, HsB, !errors_snoc, !submissions_snoc,
      HeA, HsA, errors_snoc, submissions_snoc, !app_nil_r; done.
Qed.

End TickTheorems.

(** The scenario in dry-run mode: the data API is unreachable for the
    first wallet and returns one trade for the second. *)
Lemma fetch_failure_is_isolated_witness :
  errors (trace (CopyTrader.env (CopyTrader.tick Scripted.two_wallets_dry).2))
  = ["timeout of 12000ms exceeded"]
  ∧ (λ x, (x.1.1, GammaFill.id x.1.2))
      <$> submissions (trace (CopyTrader.env (CopyTrader.tick Scripted.two_wallets_dry).2))
    = [("0xB", "f1")].
Proof.
  destruct (@fetch_failure_is_isolated Scripted.World _ _) as (_ & _ & Hscenario).
  edestruct (Hscenario Scripted.two_wallets_dry "0xA" "0xB") as [Herr Hsub].
  - reflexivity.
  - reflexivity.
  - vm_compute. reflexivity.
  - vm_compute. reflexivity.
  - vm_compute. intros Hin. discriminate Hin.
  - vm_compute. reflexivity.
  - rewrite Herr, Hsub. split; reflexivity.
Defined.

(** C7, counterexample to the claim as stated: in live mode with the
    SDK wallet client, the fetch for the first wallet throws, the second
    wallet returns one new fill, and the approvals step throws; there is
    the error event for the first wallet but no submission at all. *)
Lemma fetch_failure_then_failed_approvals :
  let s := Main.launch (Scripted.live ["0xA"; "0xB"] (3#2) 100) None None true false
             (Scripted.without_allowance
                (Scripted.silent_world Scripted.one_for_B (Scripted.refuses 0))) in
  errors (trace (CopyTrader.env s))
  = ["timeout of 12000ms exceeded"; "insufficient allowance"]
  ∧ submissions (trace (CopyTrader.env s)) = [].
Proof. vm_compute. split; reflexivity. Qed.

Section SizingTheorems.
Context {W : Type} `{Externals W} `{Js.Builtins}.
Import CopyTrader.

(** C4. The size of the mirrored order is 1 for a sell fill when
    sellAllOnSell is set, whatever the mode, copyFactor, fixedSize and
    the fill's size are; otherwise it is fixedSize in fixed mode and
    fill.size * copyFactor in percent mode. This is the size of the
    order handed to [mirrorOrder] for every entry of a batch. *)
Theorem mirror_size_policy (cfg : CopySettings.t) (f : GammaFill.t) :
  (GammaFill.side f = sell → CopySettings.sellAllOnSell cfg = true →
     mirror_size cfg f = Js.Num 1)
  ∧ (¬ (GammaFill.side f = sell ∧ CopySettings.sellAllOnSell cfg = true) →
     CopySettings.executionMode cfg = fixed →
     mirror_size cfg f = CopySettings.fixedSize cfg)
  ∧ (¬ (GammaFill.side f = sell ∧ CopySettings.sellAllOnSell cfg = true) →
     CopySettings.executionMode cfg = percent →
     mirror_size cfg f = Js.mul (GammaFill.size f) (CopySettings.copyFactor cfg))
  ∧ (∀ (s : Sys W) address,
       settings (service s) = cfg →
       ∃ order,
         submissions (trace (env (submit_one (f, address) s).2))
         = submissions (trace (env s)) ++ [(address, f, order)]
         ∧ MirrorOrderRequest.size order = mirror_size cfg f).
Proof.
  unfold mirror_size. split; [|split; [|split]].
  - by intros -> ->.
  - intros Hno ->. destruct (GammaFill.side f), (CopySettings.sellAllOnSell cfg);
      simpl; try done. by destruct Hno.
  - intros Hno ->. destruct (GammaFill.side f), (CopySettings.sellAllOnSell cfg);
      simpl; try done. by destruct Hno.
  - intros s address <-. exists (mirror_request (settings (service s)) f).
    split; [|reflexivity].
    by destruct (submit_one_spec (f, address) s) as (_ & _ & _ & ->).
Qed.

End SizingTheorems.

(** The three cases of the sizing examples: percent mode with factor
    1.5 on a fill of 10, fixed mode with size 5, and a sell with
    sellAllOnSell. *)
Lemma mirror_size_policy_witness :
  CopyTrader.mirror_size (Scripted.settings [] true percent (3#2) 5 false)
    (Scripted.fill "f" buy 10 100)
  = Js.mul (Js.Num 10) (Js.Num (3#2))
  ∧ CopyTrader.mirror_size (Scripted.settings [] true fixed (3#2) 5 true)
      (Scripted.fill "f" buy 10 100)
    = Js.Num 5
  ∧ CopyTrader.mirror_size (Scripted.settings [] true percent (3#2) 5 true)
      (Scripted.fill "f" sell 10 100)
    = Js.Num 1.
Proof.
  split; [|split].
  - apply (@mirror_size_policy Scripted.World _ _
             (Scripted.settings [] true percent (3#2) 5 false) (Scripted.fill "f" buy 10 100)).
    + intros [Hside _]. discriminate Hside.
    + reflexivity.
  - apply (@mirror_size_policy Scripted.World _ _
             (Scripted.settings [] true fixed (3#2) 5 true) (Scripted.fill "f" buy 10 100)).
    + intros [Hside _]. discriminate Hside.
    + reflexivity.
  - apply (@mirror_size_policy Scripted.World _ _
             (Scripted.settings [] true percent (3#2) 5 true) (Scripted.fill "f" sell 10 100));
      reflexivity.
Defined.

(** With copyFactor 1.5 a fill of size 10 is mirrored with size 15. *)
Fact mirror_size_fifteen :
  ∃ q, CopyTrader.mirror_size (Scripted.settings [] true percent (3#2) 5 false)
         (Scripted.fill "f" buy 10 100) = Js.Num q
       ∧ (q == 15)%Q.
Proof. eexists. split; reflexivity. Qed.

Section LifecycleTheorems.
Context {W : Type} `{Externals W} `{Js.Builtins}.
Import CopyTrader.

(** C9. [start()] on a running service does nothing: the whole process
    state, timers and trace included, is unchanged. On a stopped service
    it sets [running], arms one interval timer with period
    [pollIntervalMs] (the timers are those before plus this one), logs,
    and then runs the guarded tick once, which arms or clears no timer
    and leaves the service running. Hence a second [start()] changes
    nothing. *)
Theorem start_is_idempotent (s : Sys W) :
  (running (service s) = true → start s = (inr tt, s))
  ∧ (running (service s) = false →
     start s = tick_guarded (armed s)
     ∧ (start s).1 = inr tt
     ∧ running (service (start s).2) = true
     ∧ intervalId (service (start s).2) = Some (next_timer s)
     ∧ timers (start s).2
       = timers s ++ [(next_timer s, CopySettings.pollIntervalMs (settings (service s)))])
  ∧ start (start s).2 = (inr tt, (start s).2).
Proof.
  assert (running (service s) = false →
          start s = tick_guarded (armed s)
          ∧ (start s).1 = inr tt
          ∧ running (service (start s).2) = true
          ∧ intervalId (service (start s).2) = Some (next_timer s)
          ∧ timers (start s).2
            = timers s ++ [(next_timer s, CopySettings.pollIntervalMs (settings (service s)))])
    as Hstopped.
  { intros Hoff. rewrite start_eq, Hoff.
    destruct (tick_guarded_spec (armed s)) as (Hr & (Hrun & Hid & _) & Ht & _).
    by rewrite Hr, Hrun, Hid, Ht. }
  split; [|split; [done|]].
  - intros Hon. by rewrite start_eq, Hon.
  - destruct (running (service s)) eqn:Hrun.
    + rewrite !start_eq, Hrun. simpl. by rewrite Hrun.
    + destruct (Hstopped eq_refl) as (_ & _ & Hon & _).
      by rewrite (start_eq (start s).2), Hon.
Qed.

End LifecycleTheorems.

(** A stopped process is started, and started again. *)
Lemma start_is_idempotent_witness :
  CopyTrader.timers (CopyTrader.start Scripted.stopped).2 = [(0%nat, Js.Num 15000)]
  ∧ CopyTrader.start (CopyTrader.start Scripted.stopped).2
    = (inr tt, (CopyTrader.start Scripted.stopped).2).
Proof.
  split.
  - destruct (start_is_idempotent Scripted.stopped) as (_ & Hoff & _).
    destruct (Hoff eq_refl) as (_ & _ & _ & _ & Htimers). exact Htimers.
  - destruct (start_is_idempotent (CopyTrader.start Scripted.stopped).2) as (Hon & _ & _).
    apply Hon.
    destruct (start_is_idempotent Scripted.stopped) as (_ & Hoff & _).
    destruct (Hoff eq_refl) as (_ & _ & Hrun & _). exact Hrun.
Defined.

Section SubmissionLemmas.
Context {W : Type} `{Externals W} `{Js.Builtins}.
Import CopyTrader.

(** A submission that throws ends the loop over the batch. *)
Lemma submit_all_aborts (entry : GammaFill.t * string) (rest : Aggregated)
    (s s1 : Sys W) (e : Js.exn) :
  submit_one entry s = (inl e, s1) → submit_all (entry :: rest) s = (inl e, s1).
Proof. intros Hone. simpl. unfold bind. by rewrite Hone. Qed.


End SubmissionLemmas.

(** C1, on the code. One wallet made two new trades; the venue refuses
    the order mirroring the first one and would confirm the one
    mirroring the second. The tick submits the first order, the throw
    of [mirrorOrder] leaves the loop and the tick, and is reported once
    by the guard of the tick; no order is computed or submitted for the
    second fill, in this tick or in any later operation of the session,
    since its identifier is already in the set of seen identifiers. *)
Theorem failed_submission_ends_the_tick :
  submitted (trace (CopyTrader.env Scripted.first_refused)) = [("0xB", "f1")]
  ∧ errors (trace (CopyTrader.env Scripted.first_refused))
    = ["Order failed: Request failed with status code 400"]
  ∧ (Polymarket.mirrorOrder (CopyTrader.mk (CopyTrader.service Scripted.first_refused))
       (CopyTrader.mirror_request (CopyTrader.settings (CopyTrader.service Scripted.first_refused))
          (Scripted.fill "f2" buy 4 150000))
       (Scripted.fresh Scripted.two_trades)).1
    = inr (Js.VString "0xabc")
  ∧ "f2" ∈ CopyTrader.seen_of (CopyTrader.service Scripted.first_refused) "0xB"
  ∧ ∀ ops, ("0xB", "f2")
           ∉ submitted (trace (CopyTrader.env (CopyTrader.run_ops ops Scripted.first_refused))).
Proof.
  assert ("f2" ∈ CopyTrader.seen_of (CopyTrader.service Scripted.first_refused) "0xB")
    as Hseen.
  { refine (bool_decide_unpack _ _). vm_compute. exact I. }
  split; [vm_compute; reflexivity|]. split; [vm_compute; reflexivity|].
  split; [vm_compute; reflexivity|]. split; [exact Hseen|].
  intros ops. destruct (run_ops_new ops Scripted.first_refused) as (later & -> & Hlater).
  intros [Hin|Hin]%elem_of_app.
  - vm_compute in Hin. apply list_elem_of_singleton in Hin. discriminate Hin.
  - by apply (Hlater _ Hin).
Qed.

(** ** Configuration *)

Section Configuration.
Import HighPerformanceCopyTrader.

Lemma clamp_in_range (lo hi q : Q) : (lo <= hi)%Q → Js.in_range lo hi (clamp lo hi (Js.Num q)).
Proof.
  intros Hle. unfold clamp. simpl. split; [apply Q.le_max_l|].
  apply Q.max_lub; [done | apply Q.le_min_l].
Qed.

(** The backend engine clamps both settings when it is configured, for
    every number that is not NaN, and does not clamp when it sizes. *)
Lemma backend_clamps (factor slippage : Q) (dry : bool) (batch conc : Js.number) (e : t)
    (tradeSize : Js.number) :
  let e' := apply_configuration (Js.Num factor) (Js.Num slippage) dry batch conc e in
  Js.in_range 0 5 (copyFactor e')
  ∧ Js.in_range 10 1000 (maxSlippageBps e')
  ∧ copySize tradeSize e' = Js.mul tradeSize (copyFactor e').
Proof.
  simpl. split; [by apply (clamp_in_range 0 5)|]. split; [by apply (clamp_in_range 10 1000)|].
  done.
Qed.

End Configuration.

(** C8, on the code. The ['copytrader:start'] handler hands the
    payload's copyFactor to the scheduler and its maxSlippageBps to the
    order mirror as they are. Started with a copy factor of 10 and a
    slippage of 5000 basis points, the session mirrors a fill of size 10
    with an order of size 100: the effective values are outside [0, 5]
    and [10, 1000]. The backend engine, given the same values, keeps 5
    and 1000. *)
Theorem electron_start_does_not_clamp :
  (∀ payload apiKey apiCreds sdk_constructed clob_constructed,
      let svc := Main.service_of_payload payload apiKey apiCreds sdk_constructed
                   clob_constructed in
      CopySettings.copyFactor (CopyTrader.settings svc) = CopySettings.copyFactor payload
      ∧ Polymarket.maxSlippageBps (CopyTrader.mk svc) = CopySettings.maxSlippageBps payload)
  ∧ CopySettings.copyFactor (CopyTrader.settings (CopyTrader.service Scripted.oversized))
    = Js.Num 10
  ∧ Polymarket.maxSlippageBps (CopyTrader.mk (CopyTrader.service Scripted.oversized))
    = Js.Num 5000
  ∧ ¬ Js.in_range 0 5 (Js.Num 10)
  ∧ ¬ Js.in_range 10 1000 (Js.Num 5000)
  ∧ (λ x, (GammaFill.size x.1.2, MirrorOrderRequest.size x.2))
      <$> submissions (trace (CopyTrader.env Scripted.oversized))
    = [(Js.Num 10, Js.Num 100)]
  ∧ HighPerformanceCopyTrader.copyFactor
      (HighPerformanceCopyTrader.setCopyFactor (Js.Num 10) HighPerformanceCopyTrader.initial)
    = Js.Num 5
  ∧ HighPerformanceCopyTrader.maxSlippageBps
      (HighPerformanceCopyTrader.setMaxSlippage (Js.Num 5000) HighPerformanceCopyTrader.initial)
    = Js.Num 1000.
Proof.
  split; [done|]. split; [reflexivity|]. split; [reflexivity|].
  split; [intros [_ Hle]; by apply Hle|]. split; [intros [_ Hle]; by apply Hle|].
  split; [vm_compute; reflexivity|]. split; reflexivity.
Qed.

(** ** The confirmation the scheduler compares with *)

Section ConfirmationTheorems.
Context {W : Type} `{Externals W} `{Js.Builtins}.
Import CopyTrader.


End ConfirmationTheorems.



(** * Further properties of the scheduler *)

Section LifecycleLemmas.
Context {W : Type} `{Externals W} `{Js.Builtins}.
Import CopyTrader.

Lemma lifecycle_tick_guarded (s : Sys W) : lifecycle s → lifecycle (tick_guarded s).2.
Proof.
  destruct (tick_guarded_spec s) as (_ & (Hrun & Hid & _ & _ & Hcfg & _) & Ht & _).
  unfold lifecycle. by rewrite Hrun, Hid, Hcfg, Ht.
Qed.

Lemma lifecycle_armed (s : Sys W) :
  intervalId (service s) = None → timers s = [] → lifecycle (armed s).
Proof. intros Hid Ht. unfold lifecycle. simpl. by rewrite Ht. Qed.

Lemma lifecycle_halted (s : Sys W) : lifecycle s → lifecycle (halted s).
Proof.
  unfold lifecycle. simpl.
  destruct (intervalId (service s)) as [i|]; intros [_ Ht]; rewrite Ht; [|done].
  split; [done|]. rewrite filter_cons. simpl. by case_decide.
Qed.

Lemma lifecycle_run_op (o : op) (s : Sys W) : lifecycle s → lifecycle (run_op o s).2.
Proof.
  intros Hs. destruct o as [| |i]; simpl.
  - rewrite start_eq. destruct (running (service s)) eqn:Hrun; [done|].
    apply lifecycle_tick_guarded. unfold lifecycle in Hs.
    destruct (intervalId (service s)) eqn:Hid;
      [destruct Hs; congruence | by apply lifecycle_armed; [|destruct Hs]].
  - rewrite stop_eq. by apply lifecycle_halted.
  - unfold bind, gets. case_match; [by apply lifecycle_tick_guarded | done].
Qed.

Lemma lifecycle_run_ops (ops : list op) (s : Sys W) : lifecycle s → lifecycle (run_ops ops s).
Proof.
  revert s. induction ops as [|o ops IH]; intros s Hs; [done|].
  rewrite run_ops_cons. by apply IH, lifecycle_run_op.
Qed.

Lemma submit_all_errors (agg : Aggregated) (s : Sys W) :
  errors (trace (env (submit_all agg s).2)) = errors (trace (env s)).
Proof.
  revert s. induction agg as [|entry rest IH]; intros s; simpl; [done|].
  unfold bind. pose proof (submit_one_errors entry s) as Hone.
  destruct (submit_one entry s) as [[e|[]] s1]; simpl in *; [done|].
  by rewrite IH.
Qed.

Lemma collect_address_errors (a : string) (agg : Aggregated) (s : Sys W) :
  length (errors (trace (env (collect_address a agg s).2)))
  ≤ length (errors (trace (env s))) + 1.
Proof.
  pose proof (collect_address_eq a agg s) as Heq. cbv zeta in Heq. rewrite Heq. clear Heq.
  destruct (Gamma.fetchFillsByAddress _ _ _ _ _) as [[err|fills] E'] eqn:Hf;
    apply (quiet_result _ _ _ _ (fetchFillsByAddress_quiet _ _ _ _)) in Hf as [Herr _];
    simpl in *; rewrite errors_snoc, Herr, errors_snoc, !length_app; simpl; lia.
Qed.

Lemma collect_errors (addresses : list string) (agg : Aggregated) (s : Sys W) :
  length (errors (trace (env (collect addresses agg s).2)))
  ≤ length (errors (trace (env s))) + length addresses.
Proof.
  revert agg s. induction addresses as [|a rest IH]; intros agg s; simpl; [lia|].
  unfold bind. pose proof (collect_address_errors a agg s) as Hone.
  destruct (collect_address_spec a agg s) as (agg1 & Hr & _).
  destruct (collect_address a agg s) as [r s1]. simpl in *. subst r.
  specialize (IH agg1 s1). lia.
Qed.

Lemma tick_guarded_errors (s : Sys W) :
  length (errors (trace (env (tick_guarded s).2)))
  ≤ length (errors (trace (env s)))
    + length (CopySettings.targetAddresses (settings (service s))) + 1.
Proof.
  unfold tick_guarded, try_catch.
  assert (length (errors (trace (env (tick s).2)))
          ≤ length (errors (trace (env s)))
            + length (CopySettings.targetAddresses (settings (service s)))) as Htick.
  { rewrite tick_eq. destruct (running (service s)); [|simpl; lia].
    pose proof (collect_errors (CopySettings.targetAddresses (settings (service s))) [] s)
      as Hc.
    destruct (collect _ _ _) as [[e|[|entry rest]] s1]; cbn [fst snd] in *; [done| |].
    - simpl. rewrite errors_snoc, app_nil_r. done.
    - destruct (Polymarket.ensureApprovals _ _) as [[e|u] E'] eqn:Hok;
        apply (quiet_result _ _ _ _ (ensureApprovals_quiet _)) in Hok as [Herr _].
      + simpl. by rewrite Herr.
      + rewrite submit_all_errors. simpl. by rewrite Herr. }
  destruct (tick s) as [[e|[]] s1]; unfold reportError, lift, emit, modify; simpl in *;
    [|lia].
  rewrite errors_snoc, length_app. simpl. lia.
Qed.

End LifecycleLemmas.

Section LifecycleProperties.
Context {W : Type} `{Externals W} `{Js.Builtins}.
Import CopyTrader.

(** X1. Whatever [start], [stop] and timer callbacks a service receives
    from its construction on, it has one interval timer, with period
    [pollIntervalMs] and recorded in [intervalId], exactly while it is
    running, and none while it is stopped. *)
Theorem timer_armed_exactly_while_running (g : Gamma.GammaClient)
    (m : Polymarket.PolymarketClient) (cfg : CopySettings.t) (w : W) (ops : list op) :
  lifecycle (run_ops ops (boot (new g m cfg) w)).
Proof. by apply lifecycle_run_ops. Qed.

(** X2. A guarded tick puts at most one error event per watched
    address, plus one, on the error channel, whatever the data API, the
    venue and the libraries do. *)
Theorem tick_reports_at_most_one_error_per_address (s : Sys W) :
  length (errors (trace (env (tick_guarded s).2)))
  ≤ length (errors (trace (env s)))
    + length (CopySettings.targetAddresses (settings (service s))) + 1.
Proof. apply tick_guarded_errors. Qed.

(** X3. After [stop()] no timer is left, a tick that starts returns at
    once without touching anything, and timer callbacks change nothing. *)
Theorem stopped_service_does_nothing (s : Sys W) :
  lifecycle s →
  timers (stop s).2 = []
  ∧ tick (stop s).2 = (inr tt, (stop s).2)
  ∧ ∀ ids : list nat, run_ops (OpTimer <$> ids) (stop s).2 = (stop s).2.
Proof.
  intros Hs. rewrite stop_eq. cbn [snd].
  pose proof (lifecycle_halted s Hs) as [_ Ht]. split; [done|]. split.
  - by rewrite tick_eq.
  - intros ids. induction ids as [|i ids IH]; [done|].
    rewrite fmap_cons, run_ops_cons. simpl. unfold bind, gets. by rewrite Ht.
Qed.

End LifecycleProperties.

(** A started session is stopped. *)
Lemma stopped_service_does_nothing_witness :
  CopyTrader.timers (CopyTrader.stop (CopyTrader.start Scripted.stopped).2).2 = []
  ∧ CopyTrader.run_ops [CopyTrader.OpTimer 0; CopyTrader.OpTimer 0]
      (CopyTrader.stop (CopyTrader.start Scripted.stopped).2).2
    = (CopyTrader.stop (CopyTrader.start Scripted.stopped).2).2.
Proof.
  destruct (stopped_service_does_nothing (CopyTrader.start Scripted.stopped).2)
    as (Htimers & _ & Hops).
  - vm_compute. split; reflexivity.
  - split; [exact Htimers | exact (Hops [0; 0]%nat)].
Defined.

(** * Which calls are made *)

Section KeepsLemmas.
Context {W : Type} `{Externals W} `{Js.Builtins}.

Lemma only_snoc (P : event → bool) (tr : list event) (ev : event) :
  only P (tr ++ [ev]) = only P tr ++ (if P ev then [ev] else []).
Proof.
  unfold only. rewrite filter_app. f_equal.
  rewrite filter_cons. destruct (P ev); by case_decide.
Qed.

Lemma only_record (P : event → bool) (ev : event) (E : Env W) :
  only P (trace (record ev E)) = only P (trace E) ++ (if P ev then [ev] else []).
Proof. apply only_snoc. Qed.

Lemma keeps_ret {A} (P : event → bool) (a : A) : keeps (W := W) P (ret a).
Proof. by intros E. Qed.

Lemma keeps_throw {A} (P : event → bool) (e : Js.exn) : keeps (W := W) (A := A) P (throw e).
Proof. by intros E. Qed.

Lemma keeps_silent {A} (P : event → bool) (m : M (Env W) A) : silent m → keeps P m.
Proof. intros Hm E. by rewrite Hm. Qed.

Lemma keeps_bind {A B} (P : event → bool) (m : M (Env W) A) (k : A → M (Env W) B) :
  keeps P m → (∀ a, keeps P (k a)) → keeps P (bind m k).
Proof.
  intros Hm Hk E. unfold bind. specialize (Hm E).
  destruct (m E) as [[e|a] E1]; simpl in *; [done|]. by rewrite Hk.
Qed.

Lemma keeps_try_catch {A} (P : event → bool) (m : M (Env W) A) (h : Js.exn → M (Env W) A) :
  keeps P m → (∀ e, keeps P (h e)) → keeps P (try_catch m h).
Proof.
  intros Hm Hh E. unfold try_catch. specialize (Hm E).
  destruct (m E) as [[e|a] E1]; simpl in *; [|done]. by rewrite Hh.
Qed.

Lemma keeps_perform {A} (P : event → bool) (c : call) raise (f : W → (string + A) * W) :
  P (Call c) = false → keeps P (perform c raise f).
Proof.
  intros Hc E. unfold perform. destruct (f (world E)) as [r w]. simpl.
  by rewrite only_snoc, Hc, app_nil_r.
Qed.

Lemma run_attempt_keeps (P : event → bool) (c : Gamma.GammaClient) (a : Gamma.Attempt) :
  (∀ r, P (Call (AxiosGet r)) = false) → keeps P (Gamma.run_attempt c a).
Proof.
  intros Hget. unfold Gamma.run_attempt. apply keeps_bind; [by apply keeps_perform|].
  intros r. repeat case_match; try apply keeps_throw.
  apply keeps_silent, normalizeAll_silent.
Qed.

Lemma fetchFillsByAddress_keeps (P : event → bool) (c : Gamma.GammaClient) address sinceMs
    limit :
  (∀ r, P (Call (AxiosGet r)) = false) →
  keeps P (Gamma.fetchFillsByAddress c address sinceMs limit).
Proof.
  intros Hget. unfold Gamma.fetchFillsByAddress.
  generalize (@None Js.exn). induction (Gamma.attempts c address sinceMs limit) as [|a rest IH];
    intros last; simpl.
  - apply keeps_throw.
  - apply keeps_try_catch; [by apply run_attempt_keeps|]. intros e. apply IH.
Qed.

Lemma ensure_creds_keeps (P : event → bool) :
  (∀ c, is_clob_call (Call c) = true → P (Call c) = false) →
  keeps P Polymarket.ensure_creds.
Proof.
  intros Hclob. unfold Polymarket.ensure_creds.
  apply keeps_bind; [case_match; [by apply keeps_perform, Hclob | apply keeps_ret]|].
  intros creds. repeat case_match; try apply keeps_ret;
    (apply keeps_try_catch; [|intros; apply keeps_ret]);
    (apply keeps_bind; [by apply keeps_perform, Hclob|]); intros;
    try (by apply keeps_perform, Hclob); apply keeps_ret.
Qed.

(** [mirrorOrder] makes no call other than the POST of an order and
    calls on the [ClobClient]. *)
Lemma mirrorOrder_keeps (P : event → bool) (c : Polymarket.PolymarketClient) order :
  (∀ r, P (Call (AxiosPost r)) = false) →
  (∀ c, is_clob_call (Call c) = true → P (Call c) = false) →
  keeps P (Polymarket.mirrorOrder c order).
Proof.
  intros Hpost Hclob. unfold Polymarket.mirrorOrder. case_match; [apply keeps_ret|].
  apply keeps_try_catch; [|intros; apply keeps_throw].
  unfold Polymarket.submit_live. case_match.
  - apply keeps_bind; [by apply keeps_perform|]. intros. apply keeps_ret.
  - apply keeps_bind; [by apply ensure_creds_keeps|]. intros.
    apply keeps_bind; [by apply keeps_perform, Hclob|]. intros.
    apply keeps_bind; [by apply keeps_perform, Hclob|]. intros. apply keeps_ret.
Qed.

(** In dry-run mode neither method of the order mirror does anything. *)
Lemma dry_run_keeps (P : event → bool) (c : Polymarket.PolymarketClient) order :
  Polymarket.dryRun c = true →
  keeps P (Polymarket.mirrorOrder c order) ∧ keeps P (Polymarket.ensureApprovals c).
Proof.
  intros Hdry. unfold Polymarket.mirrorOrder, Polymarket.ensureApprovals. rewrite Hdry.
  split; apply keeps_ret.
Qed.

Lemma keeps_result {A} (P : event → bool) (m : M (Env W) A) (E E' : Env W) r :
  keeps P m → m E = (r, E') → only P (trace E') = only P (trace E).
Proof. intros Hk Hm. specialize (Hk E). by rewrite Hm in Hk. Qed.

End KeepsLemmas.

Section SchedulerCalls.
Context {W : Type} `{Externals W} `{Js.Builtins}.
Import CopyTrader.

Lemma collect_only (P : event → bool) (addresses : list string) (agg : Aggregated)
    (s : Sys W) :
  (∀ ev, is_call ev = false → P ev = false) →
  (∀ r, P (Call (AxiosGet r)) = false) →
  only P (trace (env (collect addresses agg s).2)) = only P (trace (env s)).
Proof.
  intros Hsched Hget. revert agg s.
  induction addresses as [|a rest IH]; intros agg s; simpl; [done|].
  unfold bind. pose proof (collect_address_eq a agg s) as Heq. cbv zeta in Heq.
  destruct (collect_address_spec a agg s) as (agg1 & Hr & _).
  destruct (collect_address a agg s) as [r s1] eqn:Hone. simpl in Hr. subst r.
  rewrite IH.
  destruct (Gamma.fetchFillsByAddress _ _ _ _ _) as [[err|fills] E'] eqn:Hf;
    apply (keeps_result P _ _ _ _ (fetchFillsByAddress_keeps P _ _ _ _ Hget)) in Hf;
    injection Heq as _ ->; simpl in *;
    rewrite only_snoc, Hf, only_snoc, !Hsched, !app_nil_r; done.
Qed.

Lemma submit_all_cons (entry : GammaFill.t * string) (rest : Aggregated) (s : Sys W) :
  submit_all (entry :: rest) s
  = match submit_one entry s with
    | (inr _, s1) => submit_all rest s1
    | (inl e, s1) => (inl e, s1)
    end.
Proof. done. Qed.

Lemma submit_all_only (P : event → bool) (agg : Aggregated) (s : Sys W) :
  (∀ ev, is_call ev = false → P ev = false) →
  (∀ order, keeps P (Polymarket.mirrorOrder (mk (service s)) order)) →
  only P (trace (env (submit_all agg s).2)) = only P (trace (env s)).
Proof.
  intros Hsched Hm. revert s Hm.
  induction agg as [|[f a] rest IH]; intros s Hm; [done|].
  rewrite submit_all_cons. pose proof (submit_one_eq f a s) as Heq. cbv zeta in Heq.
  destruct (Polymarket.mirrorOrder _ _ _) as [[e|txHash] E'] eqn:Hmo;
    apply (keeps_result P _ _ _ _ (Hm _)) in Hmo; rewrite Heq; cbn [fst snd].
  - cbn [env with_env]. by rewrite Hmo, only_record, Hsched, app_nil_r.
  - rewrite IH; [|done]. cbn [env with_env].
    rewrite only_record, Hmo, only_record, !Hsched, !app_nil_r; try done.
Qed.

End SchedulerCalls.

Section SchedulerCallProperties.
Context {W : Type} `{Externals W} `{Js.Builtins}.
Import CopyTrader.

Lemma tick_only (P : event → bool) (s : Sys W) :
  (∀ ev, is_call ev = false → P ev = false) →
  (∀ r, P (Call (AxiosGet r)) = false) →
  (∀ order, keeps P (Polymarket.mirrorOrder (mk (service s)) order)) →
  keeps P (Polymarket.ensureApprovals (mk (service s))) →
  only P (trace (env (tick s).2)) = only P (trace (env s)).
Proof.
  intros Hsched Hget Hm Ha. rewrite tick_eq. destruct (running (service s)); [|done].
  pose proof (collect_only P (CopySettings.targetAddresses (settings (service s))) [] s
                Hsched Hget) as Hc.
  destruct (collect_spec (CopySettings.targetAddresses (settings (service s))) [] s)
    as (agg & Hr & (_ & _ & _ & Hmk & _) & _).
  destruct (collect _ _ _) as [r s1]. cbn [fst snd] in *. subst r.
  destruct agg as [|entry rest].
  - cbn [snd env with_env]. by rewrite only_record, Hsched, app_nil_r.
  - rewrite Hmk.
    destruct (Polymarket.ensureApprovals _ _) as [[e|u] E'] eqn:Hok;
      apply (keeps_result P _ _ _ _ Ha) in Hok.
    + cbn [snd env with_env]. by rewrite Hok.
    + rewrite submit_all_only; [|done|by cbn [service with_env]; rewrite Hmk].
      cbn [env with_env]. by rewrite Hok.
Qed.

Lemma tick_guarded_only (P : event → bool) (s : Sys W) :
  (∀ ev, is_call ev = false → P ev = false) →
  (∀ r, P (Call (AxiosGet r)) = false) →
  (∀ order, keeps P (Polymarket.mirrorOrder (mk (service s)) order)) →
  keeps P (Polymarket.ensureApprovals (mk (service s))) →
  only P (trace (env (tick_guarded s).2)) = only P (trace (env s)).
Proof.
  intros Hsched Hget Hm Ha. pose proof (tick_only P s Hsched Hget Hm Ha) as Ht.
  unfold tick_guarded, try_catch.
  destruct (tick s) as [[e|[]] s1]; unfold reportError, lift, emit, modify;
    cbn [fst snd env with_env] in *; [|done].
  by rewrite only_record, Hsched, app_nil_r.
Qed.

Lemma run_op_mk (o : op) (s : Sys W) : mk (service (run_op o s).2) = mk (service s).
Proof.
  destruct o as [| |i]; simpl.
  - rewrite start_eq. destruct (running (service s)); [done|].
    by destruct (tick_guarded_spec (armed s)) as (_ & (_ & _ & _ & -> & _) & _).
  - by rewrite stop_eq.
  - unfold bind, gets. case_match; [|done].
    by destruct (tick_guarded_spec s) as (_ & (_ & _ & _ & -> & _) & _).
Qed.

Lemma run_op_only (P : event → bool) (o : op) (s : Sys W) :
  (∀ ev, is_call ev = false → P ev = false) →
  (∀ r, P (Call (AxiosGet r)) = false) →
  (∀ order, keeps P (Polymarket.mirrorOrder (mk (service s)) order)) →
  keeps P (Polymarket.ensureApprovals (mk (service s))) →
  only P (trace (env (run_op o s).2)) = only P (trace (env s)).
Proof.
  intros Hsched Hget Hm Ha. destruct o as [| |i]; simpl.
  - rewrite start_eq. destruct (running (service s)); [done|].
    rewrite tick_guarded_only; try done.
    cbn [env armed]. by rewrite only_record, Hsched, app_nil_r.
  - rewrite stop_eq. cbn [snd env halted]. by rewrite only_record, Hsched, app_nil_r.
  - unfold bind, gets. case_match; [|done]. by apply tick_guarded_only.
Qed.

(** X4. A session whose order mirror is in dry-run mode never calls the
    trading venue: whatever operations follow, the trace gains no POST of
    an order, no call on the [ClobClient] and no approvals call; only
    GETs of the data API are made. *)
Theorem dry_run_session_never_calls_the_venue (ops : list op) (s : Sys W) :
  Polymarket.dryRun (mk (service s)) = true →
  only is_venue_call (trace (env (run_ops ops s))) = only is_venue_call (trace (env s)).
Proof.
  revert s. induction ops as [|o ops IH]; intros s Hdry; [done|].
  rewrite run_ops_cons, IH; [|by rewrite run_op_mk].
  apply run_op_only; try done.
  - by intros [] Hev.
  - intros order. by apply dry_run_keeps.
  - by apply (dry_run_keeps _ _ (Scripted.order 0 None)).
Qed.

(** X5. A tick asks for token approvals at most once, and not at all
    when the order mirror is in dry-run mode or when the tick found no
    new fill; in the latter case it also submits nothing. *)
Theorem approvals_at_most_once_per_tick (s : Sys W) :
  length (only is_approval (trace (env (tick s).2)))
  ≤ length (only is_approval (trace (env s))) + 1
  ∧ (Polymarket.dryRun (mk (service s)) = true →
     only is_approval (trace (env (tick s).2)) = only is_approval (trace (env s)))
  ∧ ((collect (CopySettings.targetAddresses (settings (service s))) [] s).1 = inr [] →
     only is_approval (trace (env (tick s).2)) = only is_approval (trace (env s))
     ∧ submissions (trace (env (tick s).2)) = submissions (trace (env s))).
Proof.
  assert (∀ ev, is_call ev = false → is_approval ev = false) as Hsched by by intros [].
  assert (∀ order c, keeps is_approval (Polymarket.mirrorOrder c order)) as Hm.
  { intros order c. apply mirrorOrder_keeps; [done|]. by intros []. }
  split; [|split].
  - rewrite tick_eq. destruct (running (service s)); [|simpl; lia].
    pose proof (collect_only is_approval (CopySettings.targetAddresses (settings (service s)))
                  [] s Hsched (λ _, eq_refl)) as Hc.
    destruct (collect _ _ _) as [[e|[|entry rest]] s1]; cbn [fst snd] in *.
    + rewrite Hc. lia.
    + cbn [env with_env]. rewrite only_record, Hc, app_nil_r. simpl. lia.
    + assert (length (only is_approval
                (trace (Polymarket.ensureApprovals (mk (service s1)) (env s1)).2))
              ≤ length (only is_approval (trace (env s1))) + 1) as Hone.
      { unfold Polymarket.ensureApprovals. repeat case_match; simpl; try lia.
        unfold perform. destruct (_ (world (env s1))) as [r w']. simpl.
        rewrite only_snoc, length_app. simpl. lia. }
      rewrite Hc in Hone.
      destruct (Polymarket.ensureApprovals _ _) as [[e|u] E']; cbn [snd] in Hone.
      * cbn [snd env with_env]. lia.
      * rewrite submit_all_only; [|done|intros; apply Hm]. cbn [env with_env]. lia.
  - intros Hdry. apply tick_only; try done. by apply (dry_run_keeps _ _ (Scripted.order 0 None)).
  - intros Hempty. rewrite tick_eq. destruct (running (service s)); [|done].
    pose proof (collect_only is_approval (CopySettings.targetAddresses (settings (service s)))
                  [] s Hsched (λ _, eq_refl)) as Hc.
    destruct (collect_spec (CopySettings.targetAddresses (settings (service s))) [] s)
      as (agg & _ & _ & _ & _ & Hsub & _).
    destruct (collect _ _ _) as [r s1]. cbn [fst snd] in *. subst r.
    cbn [snd env with_env]. split.
    + by rewrite only_record, Hc, app_nil_r.
    + unfold record. cbn [trace]. by rewrite submissions_snoc, Hsub, app_nil_r.
Qed.

End SchedulerCallProperties.

(** A dry-run session polls twice. *)
Lemma dry_run_session_never_calls_the_venue_witness :
  only is_venue_call
    (trace (CopyTrader.env
       (CopyTrader.run_ops [CopyTrader.OpStart; CopyTrader.OpTimer 0] Scripted.stopped)))
  = [].
Proof.
  rewrite (dry_run_session_never_calls_the_venue
             [CopyTrader.OpStart; CopyTrader.OpTimer 0] Scripted.stopped); reflexivity.
Defined.

(** A dry-run tick, and a second tick that finds nothing new. *)
Lemma approvals_at_most_once_per_tick_witness :
  only is_approval (trace (CopyTrader.env (CopyTrader.tick Scripted.two_wallets_dry).2)) = []
  ∧ submissions
      (trace (CopyTrader.env (CopyTrader.tick (CopyTrader.start Scripted.stopped).2).2))
    = submissions (trace (CopyTrader.env (CopyTrader.start Scripted.stopped).2)).
Proof.
  split.
  - destruct (approvals_at_most_once_per_tick Scripted.two_wallets_dry) as (_ & Hdry & _).
    rewrite Hdry; reflexivity.
  - destruct (approvals_at_most_once_per_tick (CopyTrader.start Scripted.stopped).2)
      as (_ & _ & Hempty).
    destruct Hempty as [_ Hsub]; [vm_compute; reflexivity|].
    exact Hsub.
Defined.

(** ** The sync state of an address *)

Section SyncLemmas.
Import CopyTrader.
#[local] Set Warnings "-clear-no-such-hyp".

Lemma observe_fill_eq a svc agg f :
  observe_fill a (svc, agg) f
  = if bool_decide (GammaFill.id f ∈ seen_of svc a)
    then (advance a (GammaFill.timestamp f) svc, agg)
    else (advance a (GammaFill.timestamp f) (seen_add a (GammaFill.id f) svc),
          agg ++ [(f, a)]).
Proof. unfold observe_fill. by destruct (bool_decide _). Qed.

Lemma first_unseen_spec (seen : gset string) (fills : list GammaFill.t) :
  sublist (first_unseen seen fills) fills
  ∧ NoDup (GammaFill.id <$> first_unseen seen fills)
  ∧ (∀ f, f ∈ first_unseen seen fills → GammaFill.id f ∉ seen)
  ∧ (∀ f, f ∈ fills → GammaFill.id f ∉ seen →
          GammaFill.id f ∈ GammaFill.id <$> first_unseen seen fills).
Proof.
  revert seen. induction fills as [|f fills IH]; intros seen; simpl.
  - split; [done|]. split; [constructor|]. split; by intros f ?%elem_of_nil.
  - destruct (bool_decide_reflect (GammaFill.id f ∈ seen)) as [Hin|Hnew].
    + destruct (IH seen) as (Hsub & Hnd & Hout & Hcov).
      split; [by apply sublist_cons|]. split; [done|]. split; [done|].
      intros f' [->|Hf']%elem_of_cons Hnot; [done|by apply Hcov].
    + destruct (IH ({[GammaFill.id f]} ∪ seen)) as (Hsub & Hnd & Hout & Hcov).
      split; [by apply sublist_skip|]. split; [|split].
      * rewrite fmap_cons. apply NoDup_cons. split; [|done].
        intros (f' & Hid & Hf')%list_elem_of_fmap. apply (Hout f' Hf'). set_solver.
      * intros f' [->|Hf']%elem_of_cons; [done|]. specialize (Hout f' Hf'). set_solver.
      * intros f' [->|Hf']%elem_of_cons Hnot; rewrite fmap_cons; [set_solver|].
        destruct (decide (GammaFill.id f' = GammaFill.id f)) as [->|Hne]; [set_solver|].
        apply elem_of_cons. right. apply Hcov; [done|]. set_solver.
Qed.

Lemma observe_fills_batch a fills svc agg :
  (observe_fills a fills (svc, agg)).2
  = agg ++ ((λ f, (f, a)) <$> first_unseen (seen_of svc a) fills)
  ∧ seen_of (observe_fills a fills (svc, agg)).1 a
    = list_to_set (GammaFill.id <$> fills) ∪ seen_of svc a.
Proof.
  revert svc agg. induction fills as [|f fills IH]; intros svc agg.
  - simpl. split; [by rewrite app_nil_r|set_solver].
  - rewrite observe_fills_cons, observe_fill_eq. cbn [first_unseen].
    destruct (bool_decide_reflect (GammaFill.id f ∈ seen_of svc a)) as [Hin|Hnew];
      cbv iota.
    + destruct (IH (advance a (GammaFill.timestamp f) svc) agg) as [-> ->].
      rewrite seen_of_advance. split; [done|]. rewrite fmap_cons. set_solver.
    + destruct (IH (advance a (GammaFill.timestamp f) (seen_add a (GammaFill.id f) svc))
                  (agg ++ [(f, a)])) as [Hbatch Hseen].
      split; (etrans; [first [exact Hbatch|exact Hseen]|]);
        rewrite seen_of_advance, seen_of_seen_add; (destruct (decide (a = a)); [|done]).
      * by rewrite <- app_assoc.
      * rewrite fmap_cons. set_solver.
Qed.

Lemma observe_fills_elsewhere a a' fills svc agg :
  a ≠ a' →
  since_of (observe_fills a fills (svc, agg)).1 a' = since_of svc a'
  ∧ seen_of (observe_fills a fills (svc, agg)).1 a' = seen_of svc a'.
Proof.
  intros Hne. revert svc agg. induction fills as [|f fills IH]; intros svc agg; [done|].
  rewrite observe_fills_cons, observe_fill_eq.
  destruct (bool_decide (GammaFill.id f ∈ seen_of svc a)).
  - destruct (IH (advance a (GammaFill.timestamp f) svc) agg) as [-> ->].
    by rewrite since_of_advance_ne, seen_of_advance.
  - destruct (IH (advance a (GammaFill.timestamp f) (seen_add a (GammaFill.id f) svc))
                (agg ++ [(f, a)])) as [Hsince Hseen].
    split; (etrans; [first [exact Hsince|exact Hseen]|]).
    + by rewrite since_of_advance_ne, since_of_seen_add.
    + rewrite seen_of_advance, seen_of_seen_add. by destruct (decide (a = a')).
Qed.

End SyncLemmas.

Section SyncProperties.
Context {W : Type} `{Externals W} `{Js.Builtins}.
Import CopyTrader.

(** X6. What one delivery adds to the batch of a tick (lines 65-69):
    the fills whose identifier was not in the address's set of seen
    identifiers, in the order of the delivery and each identifier once,
    also when the delivery repeats it. Every identifier of the delivery
    that was not seen gets an entry, and afterwards the set holds the
    identifiers of the whole delivery. *)
Theorem batch_holds_the_first_unseen_fills (a : string) (fills : list GammaFill.t)
    (svc : CopyTraderService) (agg : Aggregated) :
  let news := first_unseen (seen_of svc a) fills in
  (observe_fills a fills (svc, agg)).2 = agg ++ ((λ f, (f, a)) <$> news)
  ∧ sublist news fills
  ∧ NoDup (GammaFill.id <$> news)
  ∧ (∀ f, f ∈ news → GammaFill.id f ∉ seen_of svc a)
  ∧ (∀ f, f ∈ fills → GammaFill.id f ∉ seen_of svc a →
          GammaFill.id f ∈ GammaFill.id <$> news)
  ∧ seen_of (observe_fills a fills (svc, agg)).1 a
    = list_to_set (GammaFill.id <$> fills) ∪ seen_of svc a.
Proof.
  intros news. destruct (observe_fills_batch a fills svc agg) as [Hbatch Hseen].
  destruct (first_unseen_spec (seen_of svc a) fills) as (Hsub & Hnd & Hout & Hcov).
  done.
Qed.

(** X7. For an address whose cursor reads as a number [c] (what was
    stored for it, or 0 when nothing was stored and the address is not
    the name of a member of [Object.prototype]), the cursor after the
    loop over a delivery (lines 65-71, which runs without interruption)
    is a number again, the largest of [c] and the timestamps of all fills
    of the delivery, those already seen included: it is not below [c] nor
    below any timestamp delivered, and it is [c] or the timestamp of a
    delivered fill. *)
Theorem cursor_is_the_high_water_mark (a : string) (fills : list GammaFill.t)
    (svc : CopyTraderService) (agg : Aggregated) (c : Q)
    (Hnumber : since_of svc a = Js.Numeric (Js.Num c)) :
  ∃ after,
    since_of (observe_fills a fills (svc, agg)).1 a = Js.Numeric (Js.Num after)
    ∧ after = high_water c fills
    ∧ (c <= after)%Q
    ∧ (∀ f, f ∈ fills → (GammaFill.timestamp f <= after)%Q)
    ∧ (after = c ∨ ∃ f, f ∈ fills ∧ after = GammaFill.timestamp f).
Proof.
  exists (high_water c fills). split; [by apply observe_fills_cursor|].
  split; [done|]. apply high_water_spec.
Qed.

(** X8. Polling an address (lines 53-71) changes the cursor and the set
    of seen identifiers of no other address; when the fetch throws, the
    address's own cursor and set stay as they were and the batch is
    returned unchanged. *)
Theorem polling_touches_one_address (a : string) (agg : Aggregated) (s : Sys W) :
  (∀ a', a ≠ a' →
     since_of (service (collect_address a agg s).2) a' = since_of (service s) a'
     ∧ seen_of (service (collect_address a agg s).2) a' = seen_of (service s) a')
  ∧ (∀ err E',
       Gamma.fetchFillsByAddress (gamma (service s)) a (Some (since_of (service s) a)) 50
         (record (Log (MsgChecking a (since_of (service s) a))) (env s))
       = (inl err, E') →
       (collect_address a agg s).1 = inr agg
       ∧ since_of (service (collect_address a agg s).2) a = since_of (service s) a
       ∧ seen_of (service (collect_address a agg s).2) a = seen_of (service s) a).
Proof.
  pose proof (collect_address_eq a agg s) as Heq. cbv zeta in Heq.
  change (env (with_env ?e _)) with e in Heq.
  split.
  - intros a' Hne. rewrite Heq.
    destruct (Gamma.fetchFillsByAddress _ _ _ _ _) as [[err|fills] E']; cbn [fst snd service
      with_env with_service].
    + by rewrite seen_of_register_seen.
    + destruct (observe_fills_elsewhere a a' fills (register_seen a (service s)) agg Hne)
        as [-> ->].
      by rewrite seen_of_register_seen.
  - intros err E' Hfetch. rewrite Heq, Hfetch. cbn [fst snd service with_env with_service].
    by rewrite seen_of_register_seen.
Qed.

End SyncProperties.

(** A delivery of two trades, the later one first, to a new service. *)
Lemma cursor_is_the_high_water_mark_witness :
  ∃ after,
    CopyTrader.since_of
      (CopyTrader.observe_fills "0xB"
         [Scripted.fill "f2" buy 4 150000; Scripted.fill "f1" buy 10 100000]
         (CopyTrader.service Scripted.stopped, [])).1 "0xB"
    = Js.Numeric (Js.Num after)
    ∧ after = 150000%Q.
Proof.
  destruct (cursor_is_the_high_water_mark "0xB"
              [Scripted.fill "f2" buy 4 150000; Scripted.fill "f1" buy 10 100000]
              (CopyTrader.service Scripted.stopped) [] 0)
    as (after & Hafter & Heq & _).
  - vm_compute. reflexivity.
  - exists after. split; [exact Hafter|]. rewrite Heq. vm_compute. reflexivity.
Defined.

(** A delivery for "0xB" leaves "0xA" alone, and the failed fetch for
    "0xA" leaves "0xA" alone. *)
Lemma polling_touches_one_address_witness :
  CopyTrader.seen_of
    (CopyTrader.service (CopyTrader.collect_address "0xB" [] Scripted.two_wallets_dry).2) "0xA"
  = CopyTrader.seen_of (CopyTrader.service Scripted.two_wallets_dry) "0xA"
  ∧ (CopyTrader.collect_address "0xA" [] Scripted.two_wallets_dry).1 = inr [].
Proof.
  split.
  - destruct (polling_touches_one_address "0xB" [] Scripted.two_wallets_dry) as [Hother _].
    by destruct (Hother "0xA") as [_ ->].
  - destruct (polling_touches_one_address "0xA" [] Scripted.two_wallets_dry) as [_ Hfail].
    edestruct Hfail as (-> & _); [vm_compute; reflexivity|done].
Defined.

Section PollingOrder.
Context {W : Type} `{Externals W} `{Js.Builtins}.
Import CopyTrader.

Lemma checked_snoc (tr : list event) (ev : event) :
  checked (tr ++ [ev])
  = checked tr ++ match ev with Log (MsgChecking a _) => [a] | _ => [] end.
Proof. unfold checked. rewrite omap_app. destruct ev as [[]| | |]; done. Qed.

Lemma checked_view (tr : list event) : checked (scheduler_view tr) = checked tr.
Proof.
  induction tr as [|ev tr IH]; [done|].
  rewrite scheduler_view_cons. unfold checked in *.
  destruct ev as [[]| | |]; simpl; first [exact IH | f_equal; exact IH].
Qed.

Lemma quiet_checked {A} (m : M (Env W) A) (E : Env W) :
  quiet m → checked (trace (m E).2) = checked (trace E).
Proof. intros Hq. by rewrite <- checked_view, Hq, checked_view. Qed.

Lemma checked_record (ev : event) (E : Env W) :
  checked (trace (record ev E))
  = checked (trace E) ++ match ev with Log (MsgChecking a _) => [a] | _ => [] end.
Proof. apply checked_snoc. Qed.

Lemma collect_address_checked (a : string) (agg : Aggregated) (s : Sys W) :
  checked (trace (env (collect_address a agg s).2)) = checked (trace (env s)) ++ [a].
Proof.
  pose proof (collect_address_eq a agg s) as Heq. cbv zeta in Heq.
  change (env (with_env ?e _)) with e in Heq. rewrite Heq.
  pose proof (quiet_checked _
    (record (Log (MsgChecking a (since_of (service s) a))) (env s))
    (fetchFillsByAddress_quiet (gamma (service s)) a (Some (since_of (service s) a)) 50))
    as Hq.
  destruct (Gamma.fetchFillsByAddress _ _ _ _ _) as [[err|fills] E'];
    cbn [fst snd env with_env with_service] in *;
    by rewrite checked_record, Hq, checked_record, app_nil_r.
Qed.

Lemma collect_checked (addresses : list string) (agg : Aggregated) (s : Sys W) :
  checked (trace (env (collect addresses agg s).2)) = checked (trace (env s)) ++ addresses.
Proof.
  revert agg s. induction addresses as [|a rest IH]; intros agg s; simpl.
  - by rewrite app_nil_r.
  - unfold bind. pose proof (collect_address_checked a agg s) as Ha.
    destruct (collect_address_spec a agg s) as (agg' & Hr & _).
    destruct (collect_address a agg s) as [r s1]. cbn [fst snd] in *. subst r.
    by rewrite IH, Ha, <- app_assoc.
Qed.

Lemma submit_all_checked (agg : Aggregated) (s : Sys W) :
  checked (trace (env (submit_all agg s).2)) = checked (trace (env s)).
Proof.
  revert s. induction agg as [|[f a] rest IH]; intros s; [done|].
  rewrite submit_all_cons.
  pose proof (submit_one_eq f a s) as Heq. cbv zeta in Heq.
  pose proof (quiet_checked _
    (record (Submit a f (mirror_request (settings (service s)) f)) (env s))
    (mirrorOrder_quiet (mk (service s)) (mirror_request (settings (service s)) f))) as Hq.
  destruct (Polymarket.mirrorOrder _ _ _) as [[e|txHash] E']; rewrite Heq; cbn [fst snd] in *.
  - cbn [env with_env]. by rewrite Hq, checked_record, app_nil_r.
  - rewrite IH. cbn [env with_env].
    rewrite checked_record, Hq, checked_record.
    by destruct (Js.strict_eq_string _ _); rewrite !app_nil_r.
Qed.

(** X9. A tick of a running service polls every target address, once
    each and in the order of the settings, whether or not fetches fail
    on the way, and announces no other address; a tick of a service that
    is not running polls none. *)
Theorem tick_polls_every_address_in_order (s : Sys W) :
  checked (trace (env (tick s).2))
  = checked (trace (env s))
    ++ (if running (service s) then CopySettings.targetAddresses (settings (service s))
        else []).
Proof.
  rewrite tick_eq. destruct (running (service s)); [|by rewrite app_nil_r].
  pose proof (collect_checked (CopySettings.targetAddresses (settings (service s))) [] s) as Hc.
  destruct (collect_spec (CopySettings.targetAddresses (settings (service s))) [] s)
    as (agg & Hr & _).
  destruct (collect _ _ _) as [r s1]. cbn [fst snd] in *. subst r.
  destruct agg as [|entry rest].
  - cbn [snd env with_env]. by rewrite checked_record, Hc, app_nil_r.
  - pose proof (quiet_checked _ (env s1) (ensureApprovals_quiet (mk (service s1)))) as Hq.
    destruct (Polymarket.ensureApprovals _ _) as [[e|u] E']; cbn [snd] in Hq.
    + cbn [snd env with_env]. by rewrite Hq.
    + rewrite submit_all_checked. cbn [env with_env]. by rewrite Hq.
Qed.

End PollingOrder.

(** ** The two backends of the order mirror *)

Section BackendProperties.
Context {W : Type} `{Externals W} `{Js.Builtins}.

Lemma perform_eq {A} (c : call) raise (f : W → (string + A) * W) (E : Env W) :
  perform c raise f E
  = (match (f (world E)).1 with inl msg => inl (raise msg) | inr a => inr a end,
     {| world := (f (world E)).2; trace := trace E ++ [Call c] |}).
Proof. unfold perform. by destruct (f (world E)). Qed.

(** X10. Deriving API credentials (lines 183-191) cannot make an order
    fail: [ensure_creds] throws only when the client's [getApiCreds]
    throws, and then with that error; a failure of
    [createOrDeriveApiCreds], [setApiCreds] or [configure] is swallowed.
    When the client already has credentials, nothing is derived or
    stored. *)
Theorem deriving_credentials_never_fails_an_order (E : Env W) :
  (∀ e, (Polymarket.ensure_creds E).1 = inl e →
        ∃ getter msg, clob_getApiCreds = Some getter
                      ∧ (getter (world E)).1 = inl msg ∧ e = Js.LibraryError msg)
  ∧ (∀ getter creds, clob_getApiCreds = Some getter →
        (getter (world E)).1 = inr creds → Js.truthy creds = true →
        trace (Polymarket.ensure_creds E).2 = trace E ++ [Call ClobGetApiCreds])
  ∧ (clob_createOrDeriveApiCreds = None →
        only is_credentials_write (trace (Polymarket.ensure_creds E).2)
        = only is_credentials_write (trace E)).
Proof.
  unfold Polymarket.ensure_creds, bind. split; [|split].
  - intros e. destruct clob_getApiCreds as [getter|].
    + rewrite perform_eq. destruct (getter (world E)) as [[msg|creds] w'] eqn:Hg; simpl.
      * intros [= <-]. exists getter, msg. by rewrite Hg.
      * unfold try_catch, bind. repeat case_match; simplify_eq/=; done.
    + unfold ret at 1. unfold try_catch, bind. repeat case_match; simplify_eq/=; done.
  - intros getter creds -> Hg Htruthy. rewrite perform_eq, Hg. simpl.
    destruct clob_createOrDeriveApiCreds; [by rewrite Htruthy|done].
  - intros ->. destruct clob_getApiCreds as [getter|].
    + rewrite perform_eq. destruct (getter (world E)).1; simpl;
        by rewrite only_snoc, app_nil_r.
    + done.
Qed.

Lemma ensure_creds_only (P : event → bool) (E : Env W) :
  P (Call ClobGetApiCreds) = false →
  (∀ ev, is_credentials_write ev = true → P ev = false) →
  only P (trace (Polymarket.ensure_creds E).2) = only P (trace E).
Proof.
  intros Hget Hwrite. revert E. change (keeps P Polymarket.ensure_creds).
  unfold Polymarket.ensure_creds.
  apply keeps_bind; [case_match; [by apply keeps_perform | apply keeps_ret]|].
  intros creds. repeat case_match; try apply keeps_ret;
    (apply keeps_try_catch; [|intros; apply keeps_ret]);
    (apply keeps_bind; [by apply keeps_perform, Hwrite|]); intros;
    try (by apply keeps_perform, Hwrite); apply keeps_ret.
Qed.

(** X11. Outside dry-run mode an order goes through exactly one
    backend, chosen by whether the constructor obtained a [ClobClient].
    Without one, [mirrorOrder] sends one POST, to [clobBaseUrl/orders]
    with the order and the slippage, and makes no call on a [ClobClient].
    With one, it sends no POST, calls [createOrder] once with the order's
    token, price, side and size and a fee rate of zero, unless reading
    the credentials threw, and calls [postOrder] at most once. Either
    way it sends no GET and asks for no approvals. *)
Theorem live_order_uses_one_backend (c : Polymarket.PolymarketClient)
    (order : MirrorOrderRequest.t) (E : Env W) :
  Polymarket.dryRun c = false →
  let after := trace (Polymarket.mirrorOrder c order E).2 in
  only is_get after = only is_get (trace E)
  ∧ only is_approval after = only is_approval (trace E)
  ∧ (Polymarket.clob c = false →
       only is_clob_call after = only is_clob_call (trace E)
       ∧ only is_post after
         = only is_post (trace E)
           ++ [Call (AxiosPost
                       (Polymarket.fallback_request c order
                          (Js.div_lit (Polymarket.maxSlippageBps c) 10000)))])
  ∧ (Polymarket.clob c = true →
       only is_post after = only is_post (trace E)
       ∧ only is_create_order after
         = only is_create_order (trace E)
           ++ match (Polymarket.ensure_creds E).1 with
              | inr _ =>
                  [Call (ClobCreateOrder
                           {| tokenID := MirrorOrderRequest.outcomeId order;
                              order_price := MirrorOrderRequest.price order;
                              order_side := MirrorOrderRequest.side order;
                              order_size := MirrorOrderRequest.size order;
                              feeRateBps := 0 |})]
              | inl _ => []
              end
       ∧ length (only is_post_order after) ≤ length (only is_post_order (trace E)) + 1).
Proof.
  intros Hdry after.
  split; [by apply mirrorOrder_keeps; [|intros []]|].
  split; [by apply mirrorOrder_keeps; [|intros []]|].
  unfold after, Polymarket.mirrorOrder. rewrite Hdry.
  unfold try_catch, Polymarket.submit_live. split; intros ->; cbn [negb].
  - unfold bind. rewrite perform_eq.
    destruct (axios_post _ _).1; cbn [fst snd trace throw ret];
      by rewrite !only_snoc, app_nil_r.
  - unfold bind.
    pose proof (ensure_creds_only is_post E eq_refl) as Hpost.
    pose proof (ensure_creds_only is_create_order E eq_refl) as Hcreate.
    pose proof (ensure_creds_only is_post_order E eq_refl) as Horder.
    destruct (Polymarket.ensure_creds E) as [[e|[]] E0]; cbn [fst snd throw] in *.
    + rewrite Hpost, Hcreate, Horder; try by intros [| | |[]].
      rewrite app_nil_r. split; [done|]. split; [done|]. lia.
    + rewrite perform_eq.
      destruct (clob_createOrder _ _).1; cbn [fst snd trace throw].
      * rewrite !only_snoc, Hpost, Hcreate, Horder; try by intros [| | |[]].
        cbn. rewrite !app_nil_r. split; [done|]. split; [done|]. lia.
      * rewrite perform_eq.
        destruct (clob_postOrder _ _).1; cbn [fst snd trace throw ret];
          rewrite !only_snoc, Hpost, Hcreate, Horder; try (by intros [| | |[]]);
          cbn; rewrite ?app_nil_r, ?length_app; cbn; (split; [done|]); (split; [done|]); lia.
Qed.

End BackendProperties.

(** The getter throws; the derivation is refused; credentials exist. *)
Lemma deriving_credentials_never_fails_an_order_witness :
  (Polymarket.ensure_creds Scripted.getter_throws).1
  = inl (Js.LibraryError "signer unavailable")
  ∧ (Polymarket.ensure_creds Scripted.derivation_refused).1 = inr tt
  ∧ trace (Polymarket.ensure_creds Scripted.has_creds).2 = [Call ClobGetApiCreds].
Proof.
  split; [|split].
  - destruct (deriving_credentials_never_fails_an_order Scripted.getter_throws)
      as (Hfail & _).
    destruct (Hfail (Js.LibraryError "signer unavailable") eq_refl)
      as (getter & msg & Hgetter & Hmsg & _).
    reflexivity.
  - reflexivity.
  - destruct (deriving_credentials_never_fails_an_order Scripted.has_creds)
      as (_ & Hhas & _).
    exact (Hhas _ _ eq_refl eq_refl eq_refl).
Defined.

(** A live client without a [ClobClient], on a venue that is down. *)
Lemma live_order_uses_one_backend_witness :
  only is_post
    (trace (Polymarket.mirrorOrder Scripted.live_client (Scripted.order 15 None)
              (Scripted.fresh Scripted.venue_down)).2)
  = [Call (AxiosPost
             (Polymarket.fallback_request Scripted.live_client (Scripted.order 15 None)
                (Js.div_lit (Polymarket.maxSlippageBps Scripted.live_client) 10000)))].
Proof.
  destruct (live_order_uses_one_backend Scripted.live_client (Scripted.order 15 None)
              (Scripted.fresh Scripted.venue_down) eq_refl) as (_ & _ & Hfallback & _).
  destruct (Hfallback eq_refl) as [_ Hpost]. exact Hpost.
Defined.

(** ** The requests of the data API client *)

Section RequestProperties.
Import Gamma.

Lemma since_param_seconds (ms : Q) :
  (0 <= ms)%Q →
  since_param (sinceSec (Some (Js.Numeric (Js.Num ms))))
  = if Qlt_le_dec ms 1000 then []
    else [("since", Js.VNumber (Js.Num (inject_Z (Qfloor (ms / 1000)))))].
Proof.
  intros Hpos. unfold sinceSec, since_param.
  cbn [Js.truthy_slot Js.truthy_number Js.slot_number Js.div_lit].
  pose proof (Qfloor_le (ms / 1000)) as Hlo.
  pose proof (Qlt_floor (ms / 1000)) as Hhi.
  destruct (Qlt_le_dec ms 1000) as [Hsmall|Hlarge].
  - destruct (Qeq_bool ms 0); cbn [negb]; [done|].
    assert (Qfloor (ms / 1000) = 0%Z) as ->; [|done].
    assert (0 <= ms / 1000)%Q as H0 by (apply Qle_shift_div_l; lra).
    assert (ms / 1000 < 1)%Q as H1 by (apply Qlt_shift_div_r; lra).
    assert (inject_Z (Qfloor (ms / 1000)) < inject_Z 1)%Q as Ha
      by (eapply Qle_lt_trans; [exact Hlo|exact H1]).
    assert (inject_Z 0 < inject_Z (Qfloor (ms / 1000) + 1))%Q as Hb
      by (eapply Qle_lt_trans; [exact H0|exact Hhi]).
    rewrite <- Zlt_Qlt in Ha, Hb. lia.
  - destruct (Qeq_bool ms 0) eqn:Hz; cbn [negb].
    + apply Qeq_bool_iff in Hz. lra.
    + assert (1 <= ms / 1000)%Q as H1 by (apply Qle_shift_div_l; lra).
      assert (inject_Z 1 < inject_Z (Qfloor (ms / 1000) + 1))%Q as Hb
        by (eapply Qle_lt_trans; [exact H1|exact Hhi]).
      rewrite <- Zlt_Qlt in Hb.
      destruct (Z.eqb_spec (Qfloor (ms / 1000)) 0); [lia|done].
Qed.

(** X12. Every candidate request of [fetchFillsByAddress] carries the
    limit, and carries the cursor cut down to whole seconds: for a
    cursor of [ms] milliseconds, [since] is the largest integer [sec]
    with [sec * 1000 <= ms], and it is left out while the cursor is below
    one second. *)
Theorem every_candidate_carries_the_cursor_in_seconds (c : GammaClient) (address : string)
    (ms limit : Q) :
  (0 <= ms)%Q →
  let sec := inject_Z (Qfloor (ms / 1000)) in
  (sec * 1000 <= ms)%Q ∧ (ms < (sec + 1) * 1000)%Q
  ∧ ∀ a, a ∈ attempts c address (Some (Js.Numeric (Js.Num ms))) limit →
      Js.assoc "limit" (params a) = Js.VNumber (Js.Num limit)
      ∧ Js.assoc "since" (params a)
        = if Qlt_le_dec ms 1000 then Js.VUndefined else Js.VNumber (Js.Num sec).
Proof.
  intros Hpos sec.
  pose proof (Qfloor_le (ms / 1000)) as Hlo.
  pose proof (Qlt_floor (ms / 1000)) as Hhi.
  split; [|split].
  - unfold sec. apply (Qmult_le_compat_r _ _ 1000) in Hlo; [|lra].
    eapply Qle_trans; [exact Hlo|]. field_simplify. apply Qle_refl.
  - unfold sec. rewrite inject_Z_plus in Hhi.
    apply (Qmult_lt_compat_r _ _ 1000) in Hhi; [|lra].
    eapply Qle_lt_trans; [|exact Hhi]. field_simplify. apply Qle_refl.
  - intros a Ha. unfold attempts in Ha. rewrite (since_param_seconds ms Hpos) in Ha.
    repeat (apply elem_of_cons in Ha as [->|Ha]);
      try (by apply elem_of_nil in Ha);
      cbn [params]; destruct (Qlt_le_dec ms 1000); done.
Qed.

Lemma strip_trailing_slash_app (s : string) : Js.strip_trailing_slash (s +:+ "/") = s.
Proof.
  induction s as [|ch s IH]; [done|].
  change (String ch s +:+ "/") with (String ch (s +:+ "/")).
  cbn [Js.strip_trailing_slash]. rewrite IH. by destruct s.
Qed.

Lemma strip_trailing_slash_id (s : string) :
  (∀ t, s ≠ t +:+ "/") → Js.strip_trailing_slash s = s.
Proof.
  induction s as [|ch s IH]; intros Hno; [done|].
  destruct s as [|ch' s].
  - cbn. destruct (Ascii.eqb_spec ch (Ascii.ascii_of_nat 47)) as [->|]; [|done].
    by destruct (Hno "").
  - change (Js.strip_trailing_slash (String ch (String ch' s)))
      with (String ch (Js.strip_trailing_slash (String ch' s))).
    f_equal. apply IH. intros t Ht. apply (Hno (String ch t)). by rewrite Ht.
Qed.

(** X13. Both constructors drop one trailing slash of the base URL, so
    a base URL means the same with and without it: the data API client
    built from [u/] has base URL [u] and sends the same ten candidates as
    the one built from [u]; the order mirror built from [u/] posts to
    [u/orders], and without a base URL, or with an empty one, to
    [https://clob.polymarket.com/orders]. *)
Theorem base_url_loses_its_trailing_slash (u : string) :
  (∀ key, baseUrl (Gamma.new (u +:+ "/") key) = u)
  ∧ ((∀ t, u ≠ t +:+ "/") →
     ∀ key address sinceMs limit,
       attempts (Gamma.new (u +:+ "/") key) address sinceMs limit
       = attempts (Gamma.new u key) address sinceMs limit)
  ∧ (∀ settings sdk clob,
       ExecutionSettings.clobBaseUrl settings = Some (u +:+ "/") →
       Polymarket.clobBaseUrl (Polymarket.new settings sdk clob) = u)
  ∧ (∀ settings sdk clob,
       ExecutionSettings.clobBaseUrl settings = None
       ∨ ExecutionSettings.clobBaseUrl settings = Some "" →
       Polymarket.clobBaseUrl (Polymarket.new settings sdk clob)
       = "https://clob.polymarket.com").
Proof.
  split; [|split; [|split]].
  - intros key. apply strip_trailing_slash_app.
  - intros Hno key address sinceMs limit. unfold Gamma.new.
    by rewrite strip_trailing_slash_app, strip_trailing_slash_id.
  - intros settings sdk clob Hurl. unfold Polymarket.new. cbn. rewrite Hurl.
    destruct (String.eqb_spec (u +:+ "/") "") as [Hempty|_].
    + by destruct u.
    + apply strip_trailing_slash_app.
  - intros settings sdk clob [Hurl|Hurl]; unfold Polymarket.new; cbn; by rewrite Hurl.
Qed.

End RequestProperties.

(** A cursor of 150.5 seconds is sent as [since = 150]. *)
Lemma every_candidate_carries_the_cursor_in_seconds_witness :
  Forall
    (λ a, Js.assoc "since" (Gamma.params a) = Js.VNumber (Js.Num (inject_Z 150)))
    (Gamma.attempts Scripted.data_api "0xB" (Some (Js.Numeric (Js.Num 150500))) 50).
Proof.
  apply Forall_forall. intros a Ha.
  destruct (every_candidate_carries_the_cursor_in_seconds Scripted.data_api "0xB" 150500 50)
    as (_ & _ & Hall); [done|].
  destruct (Hall a Ha) as [_ Hsince]. exact Hsince.
Defined.

(** The default base URL of the application, which ends in a slash. *)
Lemma base_url_loses_its_trailing_slash_witness :
  Gamma.attempts (Gamma.new "https://data-api.polymarket.com/" None) "0xB" None 50
  = Gamma.attempts (Gamma.new "https://data-api.polymarket.com" None) "0xB" None 50.
Proof.
  destruct (base_url_loses_its_trailing_slash "https://data-api.polymarket.com")
    as (_ & Hsame & _).
  apply Hsame. intros t Ht.
  pose proof (f_equal Js.strip_trailing_slash Ht) as Hs.
  rewrite strip_trailing_slash_app in Hs. vm_compute in Hs. subst t. discriminate Ht.
Defined.

(** ** The setters of the backend engine *)

Section SetterProperties.
Import HighPerformanceCopyTrader.

Lemma clamp_saturates (lo hi q : Q) :
  (lo < hi)%Q → clamp lo hi (Js.Num q) = Js.Num (saturate lo hi q).
Proof.
  intros Hlt. unfold clamp, saturate, Js.Math_max, Js.Math_min, Qmax, Qmin,
    GenericMinMax.gmax, GenericMinMax.gmin.
  destruct (Qlt_le_dec lo q) as [Hlo|Hlo], (Qlt_le_dec q hi) as [Hhi|Hhi].
  - assert ((hi ?= q)%Q = Gt) as -> by (apply (proj1 (Qgt_alt _ _)); lra).
    by assert ((lo ?= q)%Q = Lt) as -> by (apply (proj1 (Qlt_alt _ _)); lra).
  - destruct (hi ?= q)%Q eqn:Hc.
    + by assert ((lo ?= hi)%Q = Lt) as -> by (apply (proj1 (Qlt_alt _ _)); lra).
    + by assert ((lo ?= hi)%Q = Lt) as -> by (apply (proj1 (Qlt_alt _ _)); lra).
    + apply (proj2 (Qgt_alt _ _)) in Hc. lra.
  - assert ((hi ?= q)%Q = Gt) as -> by (apply (proj1 (Qgt_alt _ _)); lra).
    destruct (lo ?= q)%Q eqn:Hc; try done. apply (proj2 (Qlt_alt _ _)) in Hc. lra.
  - lra.
Qed.

(** X14. The four setters of the backend engine store the argument
    brought into their interval (0 to 5, 10 to 1000, 1 to 100, 1 to 50):
    a number inside the interval is stored as it is, one outside as the
    nearer bound. [NaN] is not a number outside the interval: it passes
    through [Math.max(lo, Math.min(hi, NaN))] and is stored, and with a
    [NaN] copy factor every copy size is [NaN]. *)
Theorem setters_saturate_numbers_and_store_NaN (e : t) :
  (∀ q, copyFactor (setCopyFactor (Js.Num q) e) = Js.Num (saturate 0 5 q)
        ∧ maxSlippageBps (setMaxSlippage (Js.Num q) e) = Js.Num (saturate 10 1000 q)
        ∧ batchSize (setBatchSize (Js.Num q) e) = Js.Num (saturate 1 100 q)
        ∧ maxConcurrentTrades (setMaxConcurrency (Js.Num q) e) = Js.Num (saturate 1 50 q))
  ∧ (∀ lo hi q, (lo <= q)%Q → (q <= hi)%Q → (saturate lo hi q == q)%Q)
  ∧ (∀ lo hi q, (lo <= hi)%Q → (lo <= saturate lo hi q)%Q ∧ (saturate lo hi q <= hi)%Q)
  ∧ copyFactor (setCopyFactor Js.NaN e) = Js.NaN
  ∧ maxSlippageBps (setMaxSlippage Js.NaN e) = Js.NaN
  ∧ batchSize (setBatchSize Js.NaN e) = Js.NaN
  ∧ maxConcurrentTrades (setMaxConcurrency Js.NaN e) = Js.NaN
  ∧ (∀ size, copySize size (setCopyFactor Js.NaN e) = Js.NaN).
Proof.
  split; [|split; [|split]].
  - intros q. cbn [copyFactor maxSlippageBps batchSize maxConcurrentTrades
      setCopyFactor setMaxSlippage setBatchSize setMaxConcurrency].
    by rewrite !clamp_saturates.
  - intros lo hi q Hlo Hhi. unfold saturate.
    destruct (Qlt_le_dec lo q), (Qlt_le_dec q hi); lra.
  - intros lo hi q Hle. unfold saturate.
    destruct (Qlt_le_dec lo q), (Qlt_le_dec q hi); lra.
  - repeat split. intros size. unfold copySize. simpl. by destruct size.
Qed.

End SetterProperties.

(** ** Batching in the backend engine *)

Section BatchingLemmas.
Import Batching.

Lemma Qfloor_nonneg (i : Q) : (0 <= i)%Q → (0 <= Qfloor i)%Z.
Proof. intros Hi. by apply (Qfloor_resp_le 0 i) in Hi. Qed.

Lemma Qfloor_lt_int (i : Q) (n : Z) : (i < inject_Z n)%Q ↔ (Qfloor i < n)%Z.
Proof.
  pose proof (Qfloor_le i) as Hlo. pose proof (Qlt_floor i) as Hhi. split.
  - intros Hi. rewrite Zlt_Qlt. lra.
  - intros Hn. assert (Qfloor i + 1 <= n)%Z as Hle by lia.
    rewrite Zle_Qle in Hle. lra.
Qed.

Lemma Qfloor_step (i q : Q) : (1 <= q)%Q → (Qfloor i + 1 <= Qfloor (i + q))%Z.
Proof.
  intros Hq. pose proof (Qfloor_le i) as Hlo.
  rewrite <- (Qfloor_Z (Qfloor i + 1)). apply Qfloor_resp_le.
  rewrite inject_Z_plus. change (inject_Z 1) with 1%Q. lra.
Qed.

Lemma Qfloor_stride (i q : Q) : (Qfloor (i + q) <= Qfloor i + Qceiling q)%Z.
Proof.
  pose proof (Qfloor_le (i + q)) as Hlo. pose proof (Qlt_floor i) as Hhi.
  pose proof (Qle_ceiling q) as Hc.
  assert (inject_Z (Qfloor (i + q)) < inject_Z (Qfloor i + 1 + Qceiling q))%Q as Hlt.
  { rewrite !inject_Z_plus in *. change (inject_Z 1) with 1%Q in *. lra. }
  rewrite <- Zlt_Qlt in Hlt. lia.
Qed.

Lemma take_take_drop {T} (l : list T) (n m : nat) :
  take n l ++ take m (drop n l) = take (n + m) l.
Proof.
  revert l. induction n as [|n IH]; intros l; [done|].
  destruct l as [|x l]; simpl; [by rewrite take_nil|by rewrite IH].
Qed.

Lemma to_integer_nonneg (i : Q) : (0 <= i)%Q → to_integer (Js.Num i) = Qfloor i.
Proof.
  intros Hi. unfold to_integer. destruct (Qlt_le_dec i 0) as [Hneg|_]; [lra|done].
Qed.

Lemma chunk_loop_partitions {T} (array : list T) (q : Q) (fuel : nat) :
  (1 <= q)%Q →
  ∀ (i : Q) (chunks : list (list T)),
    (0 <= i)%Q →
    concat chunks = take (Z.to_nat (Qfloor i)) array →
    (length array - Z.to_nat (Qfloor i) < fuel)%nat →
    ∃ rest,
      chunk_loop fuel array (Js.Num q) (Js.Num i) chunks = Some (chunks ++ rest)
      ∧ concat (chunks ++ rest) = array
      ∧ Forall (λ ch, (1 ≤ length ch)%nat ∧ (Z.of_nat (length ch) <= Qceiling q)%Z) rest.
Proof.
  intros Hq. induction fuel as [|fuel IH]; intros i chunks Hi Hdone Hfuel; [lia|].
  pose proof (Qfloor_nonneg i Hi) as Hk.
  cbn [chunk_loop]. unfold lt_length.
  destruct (Qlt_le_dec i (inject_Z (Z.of_nat (length array)))) as [Hin|Hout].
  - apply Qfloor_lt_int in Hin.
    assert (0 <= i + q)%Q as Hi' by lra.
    pose proof (Qfloor_step i q Hq) as Hstep.
    pose proof (Qfloor_stride i q) as Hstride.
    set (k := Qfloor i) in *. set (k' := Qfloor (i + q)) in *.
    set (len := Z.of_nat (length array)) in *.
    assert (slice array (Js.Num i) (add (Js.Num i) (Js.Num q))
            = take (Z.to_nat (Z.min k' len - k)) (drop (Z.to_nat k) array)) as Hslice.
    { unfold slice, add. rewrite !to_integer_nonneg by done. fold k k' len.
      unfold relative.
      destruct (Z.ltb_spec k 0); [lia|]. destruct (Z.ltb_spec k' 0); [lia|].
      by rewrite (Z.min_l k len) by lia. }
    destruct (IH (i + q)%Q (chunks ++ [slice array (Js.Num i) (add (Js.Num i) (Js.Num q))]))
      as (rest & Hloop & Hall & Hsizes).
    + done.
    + rewrite concat_app, Hdone, Hslice. cbn [concat]. rewrite app_nil_r, take_take_drop.
      fold k'. destruct (Z.min_spec k' len) as [[Hlt ->]|[Hge ->]].
      * f_equal. lia.
      * rewrite !take_ge; [done| |]; unfold len in *; lia.
    + fold k'. unfold len in *. lia.
    + exists (slice array (Js.Num i) (add (Js.Num i) (Js.Num q)) :: rest).
      unfold add in *. rewrite Hloop, <- app_assoc. split; [done|].
      split; [by rewrite <- app_assoc in Hall|].
      constructor; [|done]. rewrite Hslice, length_take, length_drop.
      unfold len in *. lia.
  - exists []. rewrite app_nil_r. split; [done|]. split; [|constructor].
    assert (¬ (Qfloor i < Z.of_nat (length array))%Z) as Hfull.
    { intros Hlt. apply Qfloor_lt_int in Hlt. lra. }
    rewrite Hdone, take_ge; [done|lia].
Qed.

Lemma chunk_loop_stuck {T} (array : list T) (q : Q) (fuel : nat) :
  (q <= 0)%Q → array ≠ [] →
  ∀ (i : Q) (chunks : list (list T)),
    (i <= 0)%Q → chunk_loop fuel array (Js.Num q) (Js.Num i) chunks = None.
Proof.
  intros Hq Hne. induction fuel as [|fuel IH]; intros i chunks Hi; [done|].
  cbn [chunk_loop]. unfold lt_length.
  destruct (Qlt_le_dec i (inject_Z (Z.of_nat (length array)))) as [Hin|Hout].
  - apply IH. lra.
  - destruct array as [|x array]; [done|].
    assert (inject_Z 0 < inject_Z (Z.of_nat (length (x :: array))))%Q as Hpos
      by (rewrite <- Zlt_Qlt; simpl; lia).
    change (inject_Z 0) with 0%Q in Hpos. lra.
Qed.

Lemma chunk_loop_mono {T} (array : list T) (size i : Js.number) chunks r (fuel fuel' : nat) :
  chunk_loop fuel array size i chunks = Some r → fuel ≤ fuel' →
  chunk_loop fuel' array size i chunks = Some r.
Proof.
  revert fuel' i chunks. induction fuel as [|fuel IH]; intros fuel' i chunks; [done|].
  intros Hrun Hle. destruct fuel' as [|fuel']; [lia|].
  cbn [chunk_loop] in *. destruct (lt_length i (length array)); [|done].
  apply IH; [done|lia].
Qed.

End BatchingLemmas.

Section BatchingProperties.
Import Batching HighPerformanceCopyTrader.

(** X15. For a chunk size that is a number not below 1, and so for
    every number stored by [setMaxConcurrency], [chunkArray] returns, at
    the latest after one turn per element, and its chunks are the array
    cut into consecutive pieces: concatenated they give the array back,
    none is empty and none is longer than the size rounded up. The size
    need not be an integer. [processWithConcurrency] therefore hands
    every trade of the batch to [executeCopyTrade], once and in order. *)
Theorem chunks_partition_the_batch {T} (trades : list T) :
  (∀ q, (1 <= q)%Q →
     ∃ chunks,
       (∀ fuel, (length trades < fuel)%nat →
                chunkArray fuel trades (Js.Num q) = Some chunks)
       ∧ concat chunks = trades
       ∧ Forall (λ ch, (1 ≤ length ch)%nat ∧ (Z.of_nat (length ch) <= Qceiling q)%Z) chunks)
  ∧ (∀ (c : Q) (e : t) (fuel : nat),
       (length trades < fuel)%nat →
       executed fuel trades (maxConcurrentTrades (setMaxConcurrency (Js.Num c) e))
       = Some trades).
Proof.
  assert (∀ q fuel, (1 <= q)%Q → (length trades < fuel)%nat →
            ∃ rest, chunkArray fuel trades (Js.Num q) = Some rest
                    ∧ concat rest = trades
                    ∧ Forall (λ ch, (1 ≤ length ch)%nat ∧ (Z.of_nat (length ch) <= Qceiling q)%Z)
                        rest) as Hloop.
  { intros q fuel Hq Hfuel.
    destruct (chunk_loop_partitions trades q fuel Hq 0 []) as (rest & Hrun & Hall & Hsizes);
      [lra|done|simpl; lia|].
    by exists rest. }
  split.
  - intros q Hq.
    destruct (Hloop q (S (length trades)) Hq) as (chunks & Hrun & Hall & Hsizes); [lia|].
    exists chunks. split; [|done].
    intros fuel Hfuel. destruct (Hloop q fuel Hq Hfuel) as (chunks' & Hrun' & Hall' & _).
    rewrite Hrun'. f_equal.
    destruct (decide (fuel ≤ S (length trades))) as [Hle|Hgt].
    + apply (chunk_loop_mono _ _ _ _ _ _ (S (length trades))) in Hrun'; [|done].
      unfold chunkArray in Hrun. congruence.
    + apply (chunk_loop_mono _ _ _ _ _ _ fuel) in Hrun; [|lia].
      unfold chunkArray in Hrun'. congruence.
  - intros c e fuel Hfuel. unfold executed. cbn [maxConcurrentTrades setMaxConcurrency].
    rewrite clamp_saturates by lra.
    destruct (Hloop (saturate 1 50 c) fuel) as (chunks & -> & Hall & _); [|done|].
    + unfold saturate. destruct (Qlt_le_dec 1 c), (Qlt_le_dec c 50); lra.
    + simpl. by rewrite Hall.
Qed.

End BatchingProperties.

Section BatchingEdges.
Import Batching HighPerformanceCopyTrader.

(** X16. With a chunk size of [NaN], which is what [setMaxConcurrency]
    stores when it is given [NaN], [chunkArray] returns one empty chunk
    for a batch that is not empty: [processWithConcurrency] hands no
    trade of the batch to [executeCopyTrade]. With a size of zero or
    below, which no number stored by the setter is, the loop over a
    batch that is not empty never ends. *)
Theorem chunking_needs_a_size_of_at_least_one {T} (trades : list T) :
  trades ≠ [] →
  (∀ (e : t) (fuel : nat),
     (2 ≤ fuel)%nat →
     chunkArray fuel trades (maxConcurrentTrades (setMaxConcurrency Js.NaN e)) = Some [[]]
     ∧ executed fuel trades (maxConcurrentTrades (setMaxConcurrency Js.NaN e)) = Some [])
  ∧ (∀ (q : Q) (fuel : nat), (q <= 0)%Q → chunkArray fuel trades (Js.Num q) = None)
  ∧ (∀ (c : Q) (e : t),
       ∃ q, maxConcurrentTrades (setMaxConcurrency (Js.Num c) e) = Js.Num q ∧ (1 <= q)%Q).
Proof.
  intros Hne. split; [|split].
  - intros e fuel Hfuel.
    assert (chunkArray fuel trades Js.NaN = Some [[]]) as Hrun.
    { destruct fuel as [|[|fuel]]; [lia|lia|].
      destruct trades as [|x trades]; [done|].
      unfold chunkArray. cbn [chunk_loop]. unfold lt_length at 1.
      destruct (Qlt_le_dec 0 (inject_Z (Z.of_nat (length (x :: trades))))) as [_|Hle].
      - cbn [add lt_length app]. unfold slice. cbn [to_integer add].
        destruct (Qlt_le_dec 0 0) as [Hlt|_]; [lra|].
        change (Qfloor 0) with 0%Z. unfold relative.
        destruct (Z.ltb_spec 0 0) as [|_]; [lia|].
        rewrite Z.min_l by lia. done.
      - assert (inject_Z 0 < inject_Z (Z.of_nat (length (x :: trades))))%Q as Hpos
          by (rewrite <- Zlt_Qlt; simpl; lia).
        change (inject_Z 0) with 0%Q in Hpos. lra. }
    split; [done|]. unfold executed. cbn [maxConcurrentTrades setMaxConcurrency clamp
      Js.Math_max Js.Math_min]. by rewrite Hrun.
  - intros q fuel Hq. apply chunk_loop_stuck; [done|done|lra].
  - intros c e. cbn [maxConcurrentTrades setMaxConcurrency].
    rewrite clamp_saturates by lra. eexists. split; [done|].
    unfold saturate. destruct (Qlt_le_dec 1 c), (Qlt_le_dec c 50); lra.
Qed.

End BatchingEdges.

(** A batch of three trades: chunks of two and a half, and of [NaN]. *)
Lemma chunks_partition_the_batch_witness :
  Batching.chunkArray 4 ["t1"; "t2"; "t3"] (Js.Num (5 # 2)) = Some [["t1"; "t2"]; ["t3"]].
Proof.
  destruct (chunks_partition_the_batch ["t1"; "t2"; "t3"]) as [Hcut _].
  destruct (Hcut (5 # 2)) as (chunks & Hrun & _); [done|].
  rewrite (Hrun 4%nat) by (simpl; lia). rewrite <- (Hrun 5%nat) by (simpl; lia).
  reflexivity.
Defined.

Lemma chunking_needs_a_size_of_at_least_one_witness :
  Batching.executed 2 ["t1"; "t2"; "t3"]
    (HighPerformanceCopyTrader.maxConcurrentTrades
       (HighPerformanceCopyTrader.setMaxConcurrency Js.NaN HighPerformanceCopyTrader.initial))
  = Some [].
Proof.
  destruct (chunking_needs_a_size_of_at_least_one ["t1"; "t2"; "t3"]) as (Hdrop & _);
    [done|].
  by destruct (Hdrop HighPerformanceCopyTrader.initial 2%nat) as [_ ->].
Defined.

(** ** The access status check *)

Section AccessStatusProperties.
Context {W : Type} `{Externals W} `{Js.Builtins}.
Variable JSON_stringify : Js.value → option string.
Variable parseWalletFromInput : string → AccessStatus.Parsed.
Import AccessStatus.

Lemma probe_step (clob address p : string) (rest : list string) lastRes lastError (E : Env W) :
  probe JSON_stringify clob address (p :: rest) lastRes lastError E
  = let E1 w' := {| world := w';
                    trace := trace E ++ [Call (AxiosGet (request clob address p))] |} in
    match axios_get (request clob address p) (world E) with
    | (inl msg, w') =>
        probe JSON_stringify clob address rest lastRes (Some (Js.AxiosError msg)) (E1 w')
    | (inr res, w') =>
        if accepted res then (inr (ok res), E1 w')
        else probe JSON_stringify clob address rest (Some res) lastError (E1 w')
    end.
Proof.
  cbn [probe]. unfold bind, try_catch, perform, ret.
  destruct (axios_get _ _) as [[msg|res] w']; cbn; [done|].
  by destruct (accepted res).
Qed.

Lemma probe_declined (clob address : string) ps (E E' : Env W) outcomes lastRes lastError :
  declined clob address ps E outcomes E' →
  probe JSON_stringify clob address ps lastRes lastError E
  = probe JSON_stringify clob address []
      (from_option Some lastRes (last (responses outcomes)))
      (from_option Some lastError (last (failures outcomes))) E'.
Proof.
  intros Hd. revert lastRes lastError.
  induction Hd as [E|p rest E msg w' outs E' Hget _ IH|p rest E res w' outs E' Hget Hno _ IH];
    intros lastRes lastError; [done| |].
  - rewrite probe_step. cbv zeta. rewrite Hget. rewrite IH.
    change (responses (inl (Js.AxiosError msg) :: outs)) with (responses outs).
    change (failures (inl (Js.AxiosError msg) :: outs))
      with (Js.AxiosError msg :: failures outs).
    rewrite last_cons. by destruct (last (failures outs)).
  - rewrite probe_step. cbv zeta. rewrite Hget, Hno. rewrite IH.
    change (failures (inr res :: outs)) with (failures outs).
    change (responses (inr res :: outs)) with (res :: responses outs).
    rewrite last_cons. by destruct (last (responses outs)).
Qed.

Lemma probe_accepts (clob address : string) pre p post (E E1 : Env W) outcomes res w'
    lastRes lastError :
  declined clob address pre E outcomes E1 →
  axios_get (request clob address p) (world E1) = (inr res, w') →
  accepted res = true →
  probe JSON_stringify clob address (pre ++ p :: post) lastRes lastError E
  = (inr (ok res), asked clob address p E1 w').
Proof.
  intros Hd Hget Hyes. revert lastRes lastError.
  induction Hd as [E|q rest E msg w1 outs E1 Hq _ IH|q rest E r w1 outs E1 Hq Hno _ IH];
    intros lastRes lastError; cbn [app]; rewrite probe_step; cbv zeta.
  - by rewrite Hget, Hyes.
  - rewrite Hq. by apply IH.
  - rewrite Hq, Hno. by apply IH.
Qed.

Lemma declined_trace (clob address : string) ps (E E' : Env W) outcomes :
  declined clob address ps E outcomes E' →
  trace E' = trace E ++ ((λ p, Call (AxiosGet (request clob address p))) <$> ps)
  ∧ length outcomes = length ps.
Proof.
  induction 1 as [E|p rest E msg w' outs E' _ _ [IHt IHl]|p rest E res w' outs E' _ _ _ [IHt IHl]].
  - by rewrite app_nil_r.
  - split; [|simpl; lia]. rewrite IHt. cbn [asked trace fmap list_fmap].
    by rewrite <- app_assoc.
  - split; [|simpl; lia]. rewrite IHt. cbn [asked trace fmap list_fmap].
    by rewrite <- app_assoc.
Qed.

Lemma probe_total (clob address : string) ps (E : Env W) :
  (∃ pre p post outcomes E1 res w',
      ps = pre ++ p :: post ∧ declined clob address pre E outcomes E1
      ∧ axios_get (request clob address p) (world E1) = (inr res, w')
      ∧ accepted res = true)
  ∨ (∃ outcomes E', declined clob address ps E outcomes E').
Proof.
  revert E. induction ps as [|p rest IH]; intros E.
  - right. exists [], E. constructor.
  - destruct (axios_get (request clob address p) (world E)) as [[msg|res] w'] eqn:Hget.
    + destruct (IH (asked clob address p E w'))
        as [(pre & q & post & outs & E1 & r & w1 & -> & Hd & Hq & Hyes)|(outs & E' & Hd)].
      * left. exists (p :: pre), q, post, (inl (Js.AxiosError msg) :: outs), E1, r, w1.
        split; [done|]. split; [by econstructor|done].
      * right. exists (inl (Js.AxiosError msg) :: outs), E'. by econstructor.
    + destruct (accepted res) eqn:Hacc.
      * left. exists [], p, rest, [], E, res, w'. split; [done|].
        split; [constructor|done].
      * destruct (IH (asked clob address p E w'))
          as [(pre & q & post & outs & E1 & r & w1 & -> & Hd & Hq & Hyes)|(outs & E' & Hd)].
        -- left. exists (p :: pre), q, post, (inr res :: outs), E1, r, w1.
           split; [done|]. split; [by eapply declined_refused|done].
        -- right. exists (inr res :: outs), E'. by eapply declined_refused.
Qed.

(** X19. The access status check asks the six endpoint patterns in
    order. (1) When the patterns before [p] are declined (each fails in
    transport or is answered outside 2xx) and [p] is answered with a 2xx
    status, the check returns the data of that response, and the requests
    sent are those of the patterns up to [p] and no other. (2) When all
    six are declined, the check has sent the six requests and throws: if
    any response arrived, [HTTP status body] of the last response, also
    when later patterns failed in transport; otherwise the transport
    error of the last pattern. (3) One of the two always happens. (4) The
    error "Unable to check access status" of the last branch is never
    thrown. *)
Theorem access_status_prefers_a_response_to_an_error (clob address : string) (E : Env W) :
  let run := probe JSON_stringify clob address paths None None E in
  let call p := Call (AxiosGet (request clob address p)) in
  (∀ pre p post outcomes E1 res w',
      paths = pre ++ p :: post →
      declined clob address pre E outcomes E1 →
      axios_get (request clob address p) (world E1) = (inr res, w') →
      accepted res = true →
      run = (inr (ok res), asked clob address p E1 w')
      ∧ trace run.2 = trace E ++ (call <$> pre ++ [p]))
  ∧ (∀ outcomes E',
      declined clob address paths E outcomes E' →
      run.2 = E'
      ∧ trace E' = trace E ++ (call <$> paths)
      ∧ (∀ res, last (responses outcomes) = Some res →
                run.1 = inl (http_error JSON_stringify res))
      ∧ (responses outcomes = [] →
         ∃ msg, last outcomes = Some (inl (Js.AxiosError msg))
                ∧ run.1 = inl (Js.AxiosError msg)))
  ∧ ((∃ pre p post outcomes E1 res w',
        paths = pre ++ p :: post ∧ declined clob address pre E outcomes E1
        ∧ axios_get (request clob address p) (world E1) = (inr res, w')
        ∧ accepted res = true)
     ∨ (∃ outcomes E', declined clob address paths E outcomes E'))
  ∧ (∀ privateKey clobBaseUrl (E0 : Env W),
       (accessStatus JSON_stringify parseWalletFromInput privateKey clobBaseUrl E0).1
       ≠ inl (Js.Error "Unable to check access status")).
Proof.
  assert (∀ clob address (E E' : Env W) outcomes,
            declined clob address paths E outcomes E' →
            (probe JSON_stringify clob address paths None None E).2 = E'
            ∧ (∀ res, last (responses outcomes) = Some res →
                 (probe JSON_stringify clob address paths None None E).1
                 = inl (http_error JSON_stringify res))
            ∧ (responses outcomes = [] →
               ∃ msg, last outcomes = Some (inl (Js.AxiosError msg))
                      ∧ (probe JSON_stringify clob address paths None None E).1
                        = inl (Js.AxiosError msg))) as Hthrown.
  { clear clob address E. intros clob address E E' outcomes Hd.
    rewrite (probe_declined _ _ _ _ _ _ None None Hd).
    destruct (declined_trace _ _ _ _ _ _ Hd) as [_ Hlen].
    split; [|split].
    - cbn [probe]. unfold throw. by repeat case_match.
    - intros res ->. done.
    - intros Hnone. rewrite Hnone. cbn [last from_option probe].
      assert (failures outcomes = (λ o, match o with inl e => e | inr _ => Js.Error "" end)
                                    <$> outcomes
              ∧ Forall (λ o, ∃ msg, o = inl (Js.AxiosError msg)) outcomes) as [Hfail Hall].
      { clear Hlen. induction Hd as [E|p rest E msg w' outs E' _ _ IH|
                                     p rest E res w' outs E' _ _ _ IH]; [done| |done].
        destruct (IH Hnone) as [IHf IHa]. split.
        - change (failures (inl (Js.AxiosError msg) :: outs))
            with (Js.AxiosError msg :: failures outs). by rewrite IHf.
        - constructor; [by exists msg|done]. }
      destruct (last outcomes) as [o|] eqn:Hlast.
      + assert (o ∈ outcomes) as Hin.
        { apply last_Some in Hlast as (l' & ->). apply elem_of_app. right.
          by apply list_elem_of_singleton. }
        rewrite Forall_forall in Hall. destruct (Hall o Hin) as [msg ->].
        exists msg. split; [done|]. rewrite Hfail, fmap_last, Hlast. done.
      + apply last_None in Hlast. subst outcomes. done. }
  intros run call. split; [|split; [|split]].
  - intros pre p post outcomes E1 res w' Hsplit Hd Hget Hyes.
    assert (run = (inr (ok res), asked clob address p E1 w')) as Hrun.
    { unfold run. rewrite Hsplit. by eapply probe_accepts. }
    split; [done|]. rewrite Hrun. cbn [snd asked trace].
    destruct (declined_trace _ _ _ _ _ _ Hd) as [-> _].
    by rewrite fmap_app, app_assoc.
  - intros outcomes E' Hd. destruct (Hthrown _ _ _ _ _ Hd) as (HE & Hres & Herr).
    split; [done|]. split; [by destruct (declined_trace _ _ _ _ _ _ Hd)|]. done.
  - apply probe_total.
  - intros privateKey clobBaseUrl E0. unfold accessStatus.
    destruct privateKey as [key|]; [|done].
    destruct (String.eqb key ""); [done|].
    destruct (parseWalletFromInput key) as [| |wallet]; [done|done|].
    match goal with |- context [probe _ ?c ?a paths None None E0] =>
      destruct (probe_total c a paths E0)
        as [(pre & p & post & outs & E1 & res & w' & Hsplit & Hd & Hget & Hyes)
           |(outs & E' & Hd)] end.
    + rewrite Hsplit. by erewrite probe_accepts.
    + destruct (Hthrown _ _ _ _ _ Hd) as (_ & Hres & Herr).
      destruct (last (responses outs)) as [res|] eqn:Hlast.
      * rewrite (Hres res eq_refl). unfold http_error. by intros [=].
      * apply last_None in Hlast. destruct (Herr Hlast) as (msg & _ & ->). done.
Qed.

End AccessStatusProperties.

(** The first pattern is answered with 403, the other five time out:
    the error names the response. *)
Lemma access_status_prefers_a_response_to_an_error_witness :
  (AccessStatus.probe (fun _ => None) "https://clob.polymarket.com" "0xme"
     AccessStatus.paths None None (Scripted.fresh Scripted.geoblocked)).1
  = inl (Js.Error "HTTP 403/1 Forbidden").
Proof.
  destruct (access_status_prefers_a_response_to_an_error (fun _ => None)
              (fun _ => AccessStatus.InvalidKey) "https://clob.polymarket.com" "0xme"
              (Scripted.fresh Scripted.geoblocked)) as (_ & Hdeclined & _).
  edestruct Hdeclined as (_ & _ & Hresponse & _).
  - eapply AccessStatus.declined_refused; [vm_compute; reflexivity | reflexivity |].
    do 5 (eapply AccessStatus.declined_failed; [vm_compute; reflexivity|]).
    apply AccessStatus.declined_nil.
  - rewrite (Hresponse {| data := Js.VString "Forbidden"; status := 403 |} eq_refl).
    reflexivity.
Defined.

(** ** From raw records to fills *)

Section NormalizeLemmas.
Context {W : Type} `{Externals W} `{Js.Builtins}.


Lemma normalizeFill_cases (item : Js.value) (E : Env W) :
  if Js.nullish item
  then ∃ msg, (Gamma.normalizeFill item E).1 = inl (Js.TypeError msg)
  else ∃ f,
      (Gamma.normalizeFill item E).1 = inr f
      ∧ GammaFill.id f
        = Js.to_String
            (Js.coalesce
               (Js.coalesce (Js.coalesce (Js.prop item "id") (Js.prop item "fillId"))
                  (Js.prop item "tradeId"))
               (Js.VString
                  (Js.to_String
                     (Js.coalesce
                        (Js.coalesce (Js.prop item "transactionHash") (Js.prop item "txHash"))
                        (Js.VString ""))
                   +:+ "-" +:+
                   Js.to_String
                     (Js.coalesce (Js.coalesce (Js.prop item "asset") (Js.prop item "marketId"))
                        (Js.VString ""))))).
Proof.
  unfold Gamma.normalizeFill. destruct (Js.nullish item); [by eexists|].
  unfold bind.
  destruct (Js.to_Number _) as [|q]; [|destruct (Qeq_bool q 0)];
    unfold now, ret; try destruct (Date_now (world E)) as [t w']; by eexists.
Qed.

End NormalizeLemmas.

Section NormalizeProperties.
Context {W : Type} `{Externals W} `{Js.Builtins}.
Import CopyTrader.
#[local] Set Warnings "-clear-no-such-hyp".


(** X21. A record that carries none of [id], [fillId] and [tradeId]
    is identified by its transaction hash and its asset (or market)
    alone. Two such records that agree on both get the same fill
    identifier, whatever their sides, prices and sizes, and of the two
    only the first enters the batch. *)
Theorem fills_of_one_transaction_collide (r1 r2 : Js.value) (E1 E2 : Env W)
    (f1 f2 : GammaFill.t) :
  (∀ r, r = r1 ∨ r = r2 →
     Js.nullish r = false
     ∧ Js.nullish (Js.prop r "id") = true
     ∧ Js.nullish (Js.prop r "fillId") = true
     ∧ Js.nullish (Js.prop r "tradeId") = true) →
  Js.coalesce (Js.prop r1 "transactionHash") (Js.prop r1 "txHash")
  = Js.coalesce (Js.prop r2 "transactionHash") (Js.prop r2 "txHash") →
  Js.coalesce (Js.prop r1 "asset") (Js.prop r1 "marketId")
  = Js.coalesce (Js.prop r2 "asset") (Js.prop r2 "marketId") →
  (Gamma.normalizeFill r1 E1).1 = inr f1 →
  (Gamma.normalizeFill r2 E2).1 = inr f2 →
  GammaFill.id f1 = GammaFill.id f2
  ∧ ∀ a svc agg,
      (observe_fills a [f1; f2] (svc, agg)).2 = (observe_fills a [f1] (svc, agg)).2.
Proof.
  intros Hanon Hhash Hasset Hf1 Hf2.
  assert (GammaFill.id f1 = GammaFill.id f2) as Hid.
  { destruct (Hanon r1 (or_introl eq_refl)) as (Hn1 & Hi1 & Hfi1 & Ht1).
    destruct (Hanon r2 (or_intror eq_refl)) as (Hn2 & Hi2 & Hfi2 & Ht2).
    pose proof (normalizeFill_cases r1 E1) as Hc1. rewrite Hn1 in Hc1.
    pose proof (normalizeFill_cases r2 E2) as Hc2. rewrite Hn2 in Hc2.
    destruct Hc1 as (g1 & Hg1 & Hid1). rewrite Hf1 in Hg1. injection Hg1 as <-.
    destruct Hc2 as (g2 & Hg2 & Hid2). rewrite Hf2 in Hg2. injection Hg2 as <-.
    assert (∀ a b, Js.nullish a = true → Js.coalesce a b = b) as Hco.
    { intros a b Ha. unfold Js.coalesce. by rewrite Ha. }
    rewrite Hid1, Hid2, Hhash, Hasset.
    by rewrite (Hco _ _ Hi1), (Hco _ _ Hfi1), (Hco _ _ Ht1),
      (Hco _ _ Hi2), (Hco _ _ Hfi2), (Hco _ _ Ht2). }
  split; [done|]. intros a svc agg.
  destruct (observe_fills_batch a [f1; f2] svc agg) as [-> _].
  destruct (observe_fills_batch a [f1] svc agg) as [-> _].
  cbn [first_unseen]. rewrite <- Hid.
  destruct (bool_decide_reflect (GammaFill.id f1 ∈ seen_of svc a)) as [Hin|Hnew]; [done|].
  rewrite bool_decide_eq_true_2; [done|set_solver].
Qed.

End NormalizeProperties.

(** Two fills of one transaction, of sizes 10 and 4. *)
Lemma fills_of_one_transaction_collide_witness :
  ∃ f1 f2,
    (Gamma.normalizeFill (Scripted.part_of_transaction 10 (1#2))
       (Scripted.fresh Scripted.venue_down)).1 = inr f1
    ∧ (Gamma.normalizeFill (Scripted.part_of_transaction 4 (3#5))
         (Scripted.fresh Scripted.venue_down)).1 = inr f2
    ∧ GammaFill.id f1 = GammaFill.id f2.
Proof.
  eexists _, _. split; [vm_compute; reflexivity|]. split; [vm_compute; reflexivity|].
  refine (proj1 (fills_of_one_transaction_collide
                   (Scripted.part_of_transaction 10 (1#2))
                   (Scripted.part_of_transaction 4 (3#5))
                   (Scripted.fresh Scripted.venue_down) (Scripted.fresh Scripted.venue_down)
                   _ _ _ eq_refl eq_refl eq_refl eq_refl)).
  intros r [->| ->]; vm_compute; repeat split; reflexivity.
Defined.


(** ** Performance tracking in the backend engine *)

Section MetricsLemmas.
Import Metrics.

Lemma count_succ (n : nat) : (count (S n) == count n + 1)%Q.
Proof. unfold count. rewrite Nat2Z.inj_succ. unfold Z.succ. by rewrite inject_Z_plus. Qed.

Lemma count_nonneg (n : nat) : (0 <= count n)%Q.
Proof.
  unfold count. change 0%Q with (inject_Z 0). rewrite <- Zle_Qle. lia.
Qed.

Lemma completions_snoc (calls : list (CopyTrade * Q)) (call : CopyTrade * Q) :
  completions (calls ++ [call])
  = completions calls ++ (if is_completed (status call.1) then [call.1] else []).
Proof.
  unfold completions. rewrite fmap_app, filter_app. f_equal.
  change (fst <$> [call]) with [call.1]. rewrite filter_cons, filter_nil.
  destruct (is_completed (status call.1)); by case_decide.
Qed.

Lemma updates_snoc (calls : list (CopyTrade * Q)) (call : CopyTrade * Q) (e : t) :
  updates (calls ++ [call]) e = updateMetrics call.1 call.2 (updates calls e).
Proof. unfold updates. by rewrite fold_left_app. Qed.

(** What one call does to the metrics, whatever the clock says. *)
Lemma updateMetrics_metrics (c : CopyTrade) (now : Q) (e : t) :
  let m := metrics e in
  let m' := metrics (updateMetrics c now e) in
  copyTradeCacheSize (updateMetrics c now e) = copyTradeCacheSize e
  ∧ totalTrades m' = (if is_completed (status c) then S (totalTrades m) else totalTrades m)
  ∧ totalVolume m'
    = (if is_completed (status c) then Batching.add (totalVolume m) (copySize c)
       else totalVolume m)
  ∧ avgExecutionTime m'
    = (if is_completed (status c) then
         match measured c with
         | Some time =>
             ((avgExecutionTime m * (count (S (totalTrades m)) - 1) + time)
              / count (S (totalTrades m)))%Q
         | None => avgExecutionTime m
         end
       else avgExecutionTime m)
  ∧ successRate m'
    = (if Qlt_le_dec 0 (count (totalTrades m') + count (copyTradeCacheSize e))%Q
       then (count (totalTrades m')
             / (count (totalTrades m') + count (copyTradeCacheSize e)))%Q
       else 0%Q).
Proof.
  unfold updateMetrics. cbv zeta.
  destruct (is_completed (status c));
    destruct (Qlt_le_dec 0 ((now - lastMetricsUpdate e) / 1000)%Q);
    cbn [metrics copyTradeCacheSize totalTrades totalVolume avgExecutionTime successRate];
    done.
Qed.

End MetricsLemmas.

Section MetricsProperties.
Import Metrics.

(** X22. After any sequence of [updateMetrics] calls on a new engine:
    [totalTrades] is the number of calls for a completed trade and
    [totalVolume] their copy sizes added up in the order of the calls;
    [successRate] is 1 as soon as one trade has completed and 0 before,
    since nothing is ever counted as processed but the completed
    trades. *)
Theorem metrics_count_completed_trades_only (constructed : Q) (calls : list (CopyTrade * Q)) :
  let m := metrics (updates calls (initial constructed)) in
  let done := completions calls in
  totalTrades m = length done
  ∧ totalVolume m = fold_left Batching.add (copySize <$> done) (Js.Num 0)
  ∧ (successRate m == match length done with O => 0 | S _ => 1 end)%Q.
Proof.
  induction calls as [|call calls IH] using rev_ind.
  - cbn. repeat split; try done; intros _; lra.
  - cbv zeta in *. rewrite updates_snoc, completions_snoc.
    set (e := updates calls (initial constructed)) in *.
    assert (copyTradeCacheSize e = 0%nat) as Hcache.
    { unfold e. clear. induction calls as [|call calls IH] using rev_ind; [done|].
      rewrite updates_snoc.
      by destruct (updateMetrics_metrics call.1 call.2 (updates calls (initial constructed)))
        as [-> _]. }
    destruct IH as (Htotal & Hvolume & Hrate).
    destruct (updateMetrics_metrics call.1 call.2 e) as (_ & Ht & Hv & Ha & Hr).
    cbv zeta in Ht, Hv, Ha, Hr. rewrite Hcache in Hr.
    assert (totalTrades (metrics (updateMetrics call.1 call.2 e))
            = length (completions calls
                        ++ (if is_completed (status call.1) then [call.1] else []))) as Hlen.
    { rewrite Ht, length_app, Htotal. destruct (is_completed (status call.1)); simpl; lia. }
    split; [done|]. split.
    + rewrite Hv, fmap_app, fold_left_app, <- Hvolume.
      by destruct (is_completed (status call.1)).
    + rewrite Hr, Hlen. clear.
      set (n := length _). pose proof (count_nonneg n) as Hn.
      change (count 0) with 0%Q.
      destruct (Qlt_le_dec 0 (count n + 0)%Q) as [Hpos|Hzero].
      * destruct n as [|n]; [by vm_compute in Hpos|].
        field. lra.
      * destruct n as [|n]; [done|]. pose proof (count_succ n) as Hs.
        pose proof (count_nonneg n). lra.
Qed.

End MetricsProperties.

(** ** The connection test *)

Section ConnectionTestLemmas.
Context {W : Type} `{Externals W} `{Js.Builtins}.
Import ConnectionTest.

Lemma requests_snoc (tr : list event) (c : call) :
  requests (tr ++ [Call c])
  = requests tr ++ match c with AxiosGet r => [r] | _ => [] end.
Proof. unfold requests. rewrite omap_app. by destruct c. Qed.

Lemma ping_step (base p : string) (rest : list string) lastErr (E : Env W) :
  ping base (p :: rest) lastErr E
  = let E1 w' := {| world := w'; trace := trace E ++ [Call (AxiosGet (request base p))] |} in
    match axios_get (request base p) (world E) with
    | (inl msg, w') => ping base rest (Some (Js.AxiosError msg)) (E1 w')
    | (inr res, w') => (inr (true, lastErr), E1 w')
    end.
Proof.
  cbn [ping]. unfold bind, try_catch, perform, ret.
  by destruct (axios_get _ _) as [[msg|res] w'].
Qed.

Lemma unanswered_spec (base : string) ps (E E' : Env W) errs :
  unanswered base ps E errs E' →
  requests (trace E') = requests (trace E) ++ (request base <$> ps)
  ∧ length errs = length ps.
Proof.
  induction 1 as [E|p rest E msg w' errs E' _ _ [IHr IHl]].
  - by rewrite app_nil_r.
  - split; [|simpl; lia]. rewrite IHr. cbn [asked trace].
    rewrite requests_snoc, <- app_assoc. done.
Qed.

Lemma ping_unanswered (base : string) ps (E E' : Env W) errs lastErr :
  unanswered base ps E errs E' →
  ping base ps lastErr E = (inr (false, from_option Some lastErr (last errs)), E').
Proof.
  intros Hu. revert lastErr.
  induction Hu as [E|p rest E msg w' errs E' Hget _ IH]; intros lastErr; [done|].
  rewrite ping_step. cbv zeta. rewrite Hget, IH, last_cons.
  by destruct (last errs).
Qed.

Lemma ping_answered (base : string) tried p later (E E1 : Env W) errs res w' lastErr :
  unanswered base tried E errs E1 →
  axios_get (request base p) (world E1) = (inr res, w') →
  ping base (tried ++ p :: later) lastErr E
  = (inr (true, from_option Some lastErr (last errs)), asked base p E1 w').
Proof.
  intros Hu Hget. revert lastErr.
  induction Hu as [E|q rest E msg w1 errs E1 Hq _ IH]; intros lastErr; cbn [app];
    rewrite ping_step; cbv zeta.
  - by rewrite Hget.
  - rewrite Hq, (IH Hget), last_cons. by destruct (last errs).
Qed.

Lemma ping_total (base : string) ps (E : Env W) :
  (∃ tried p later errs E1 res w',
      ps = tried ++ p :: later ∧ unanswered base tried E errs E1
      ∧ axios_get (request base p) (world E1) = (inr res, w'))
  ∨ (∃ errs E', unanswered base ps E errs E').
Proof.
  revert E. induction ps as [|p rest IH]; intros E.
  - right. exists [], E. constructor.
  - destruct (axios_get (request base p) (world E)) as [[msg|res] w'] eqn:Hget.
    + destruct (IH (asked base p E w'))
        as [(tried & q & later & errs & E1 & r & w1 & -> & Hu & Hq)|(errs & E' & Hu)].
      * left. exists (p :: tried), q, later, (Js.AxiosError msg :: errs), E1, r, w1.
        split; [done|]. split; [by econstructor|done].
      * right. exists (Js.AxiosError msg :: errs), E'. by econstructor.
    + left. exists [], p, rest, [], E, res, w'. split; [done|]. split; [constructor|done].
Qed.

Lemma unreachable_spec (bases : list string) (E E' : Env W) errs :
  unreachable bases E errs E' →
  requests (trace E') = requests (trace E) ++ pings bases
  ∧ (bases ≠ [] → last errs ≠ None).
Proof.
  induction 1 as [E|base rest E errs E1 errs' E' Hu _ [IHr IHl]].
  - split; [by rewrite app_nil_r|done].
  - destruct (unanswered_spec _ _ _ _ _ Hu) as [Hr Hlen]. split.
    + rewrite IHr, Hr. unfold pings. rewrite fmap_cons. cbn [concat].
      by rewrite <- app_assoc.
    + intros _. destruct errs as [|e errs]; [done|].
      rewrite last_app. destruct (last errs') eqn:Hl'; [done|].
      cbn [fmap option_fmap option_map]. rewrite last_cons. by destruct (last errs).
Qed.

Lemma search_unreachable (bases more : list string) (E E' : Env W) errs result :
  unreachable bases E errs E' →
  search (bases ++ more) result E = search more (noted result errs) E'.
Proof.
  intros Hu. revert result.
  induction Hu as [E|base rest E errs E1 errs' E' Hbase _ IH]; intros result.
  - by destruct result.
  - cbn [app search]. unfold bind.
    rewrite (ping_unanswered _ _ _ _ _ None Hbase). cbn [fst snd].
    destruct (unanswered_spec _ _ _ _ _ Hbase) as [_ Hlen].
    destruct (last errs) as [e|] eqn:Hlast.
    2: { apply last_None in Hlast. by subst errs. }
    cbn [from_option]. rewrite IH. f_equal. unfold noted. cbn [gammaOk chosenGammaBaseUrl
      gammaError]. f_equal. rewrite last_app.
    destruct (last errs') as [e'|]; [done|]. cbn. by rewrite Hlast.
Qed.

Lemma search_total (bases : list string) (E : Env W) :
  (∃ before base after tried p later errs0 E0 errs1 E1 res w',
      bases = before ++ base :: after ∧ pingPaths = tried ++ p :: later
      ∧ unreachable before E errs0 E0
      ∧ unanswered (Js.strip_trailing_slash base) tried E0 errs1 E1
      ∧ axios_get (request (Js.strip_trailing_slash base) p) (world E1) = (inr res, w'))
  ∨ (∃ errs E', unreachable bases E errs E').
Proof.
  revert E. induction bases as [|base rest IH]; intros E.
  - right. exists [], E. constructor.
  - destruct (ping_total (Js.strip_trailing_slash base) pingPaths E)
      as [(tried & p & later & errs1 & E1 & res & w' & Hsplit & Hu & Hget)|(errs & E1 & Hu)].
    + left. exists [], base, rest, tried, p, later, [], E, errs1, E1, res, w'.
      split; [done|]. split; [done|]. split; [constructor|done].
    + destruct (IH E1)
        as [(before & b & after & tried & p & later & errs0 & E0 & errs1 & E2 & res & w'
             & -> & Hsplit & Hun & Hu2 & Hget)|(errs' & E' & Hun)].
      * left. exists (base :: before), b, after, tried, p, later, (errs ++ errs0), E0,
          errs1, E2, res, w'.
        split; [done|]. split; [done|]. split; [by econstructor|done].
      * right. exists (errs ++ errs'), E'. by econstructor.
Qed.

End ConnectionTestLemmas.

Section ConnectionTestProperties.
Context {W : Type} `{Externals W} `{Js.Builtins}.
Import ConnectionTest.

(** X23. The search for a data API in ['copytrader:test'] tries the
    candidate base URLs in order, each on the ping paths in order, and
    does not throw. (1) When no path of the candidates before [base] gets
    a response, nor the paths before [p] under [base], and the request
    for [p] under [base] gets a response, of whatever status, the search
    reports [gammaOk] with [base] (without a trailing slash) as the base
    URL chosen, keeps as error text the last error of the candidates
    before [base], and has sent exactly the requests up to that one. (2)
    When no path of any candidate gets a response, it reports failure
    with no base URL chosen and the text of the last error, after one
    request per candidate and path. (3) One of the two always happens.
    (4) In particular a response of any status to the first request, the
    given base URL without a path, settles the test after one request. *)
Theorem connection_test_accepts_any_response (gammaBaseUrl : string) (E : Env W) :
  (∀ before base after tried p later errs0 E0 errs1 E1 res w',
      candidates gammaBaseUrl = before ++ base :: after →
      pingPaths = tried ++ p :: later →
      unreachable before E errs0 E0 →
      unanswered (Js.strip_trailing_slash base) tried E0 errs1 E1 →
      axios_get (request (Js.strip_trailing_slash base) p) (world E1) = (inr res, w') →
      test_gamma gammaBaseUrl E
      = (inr {| gammaOk := true;
                chosenGammaBaseUrl := Some (Js.strip_trailing_slash base);
                gammaError := error_text <$> last errs0 |},
         asked (Js.strip_trailing_slash base) p E1 w')
      ∧ requests (trace (asked (Js.strip_trailing_slash base) p E1 w'))
        = requests (trace E) ++ pings before
          ++ (request (Js.strip_trailing_slash base) <$> tried ++ [p]))
  ∧ (∀ errs E',
      unreachable (candidates gammaBaseUrl) E errs E' →
      ∃ e, last errs = Some e
        ∧ test_gamma gammaBaseUrl E
          = (inr {| gammaOk := false; chosenGammaBaseUrl := None;
                    gammaError := Some (error_text e) |}, E')
        ∧ requests (trace E') = requests (trace E) ++ pings (candidates gammaBaseUrl))
  ∧ ((∃ before base after tried p later errs0 E0 errs1 E1 res w',
        candidates gammaBaseUrl = before ++ base :: after
        ∧ pingPaths = tried ++ p :: later
        ∧ unreachable before E errs0 E0
        ∧ unanswered (Js.strip_trailing_slash base) tried E0 errs1 E1
        ∧ axios_get (request (Js.strip_trailing_slash base) p) (world E1) = (inr res, w'))
     ∨ (∃ errs E', unreachable (candidates gammaBaseUrl) E errs E'))
  ∧ (∀ res w',
       gammaBaseUrl ≠ "" →
       axios_get (request (Js.strip_trailing_slash gammaBaseUrl) "") (world E) = (inr res, w') →
       test_gamma gammaBaseUrl E
       = (inr {| gammaOk := true;
                 chosenGammaBaseUrl := Some (Js.strip_trailing_slash gammaBaseUrl);
                 gammaError := None |},
          {| world := w';
             trace := trace E
                      ++ [Call (AxiosGet (request (Js.strip_trailing_slash gammaBaseUrl) ""))] |})).
Proof.
  split; [|split; [|split]].
  - intros before base after tried p later errs0 E0 errs1 E1 res w' Hc Hp Hbefore Htried Hget.
    split.
    + unfold test_gamma. rewrite Hc, (search_unreachable _ _ _ _ _ _ Hbefore).
      cbn [search]. unfold bind. rewrite Hp.
      rewrite (ping_answered _ _ _ _ _ _ _ _ _ None Htried Hget). cbn [fst snd].
      unfold ret, noted. cbn [gammaError]. by destruct (last errs0).
    + cbn [asked trace]. rewrite requests_snoc.
      destruct (unanswered_spec _ _ _ _ _ Htried) as [-> _].
      destruct (unreachable_spec _ _ _ _ Hbefore) as [-> _].
      by rewrite fmap_app, <- !app_assoc.
  - intros errs E' Hall.
    destruct (unreachable_spec _ _ _ _ Hall) as [Hreq Hlast].
    destruct (last errs) as [e|] eqn:He.
    + exists e. split; [done|]. split; [|done].
      unfold test_gamma.
      rewrite <- (app_nil_r (candidates gammaBaseUrl)).
      rewrite (search_unreachable _ _ _ _ _ _ Hall). cbn [search]. unfold ret, noted.
      cbn [gammaOk chosenGammaBaseUrl gammaError]. by rewrite He.
    + exfalso. apply Hlast; [|done]. unfold candidates. rewrite filter_cons.
      by destruct (decide (gammaBaseUrl ≠ "")).
  - apply search_total.
  - intros res w' Hgiven Hget. unfold test_gamma, candidates. rewrite filter_cons.
    destruct (decide (gammaBaseUrl ≠ "")) as [_|]; [|done].
    cbn [search]. unfold bind. unfold pingPaths. rewrite ping_step. cbv zeta.
    by rewrite Hget.
Qed.

End ConnectionTestProperties.

(** A data API that answers the bare base URL with 404 passes the test. *)
Lemma connection_test_accepts_any_response_witness :
  (ConnectionTest.test_gamma "https://data-api.polymarket.com/"
     (Scripted.fresh Scripted.data_api_v1)).1
  = inr {| ConnectionTest.gammaOk := true;
           ConnectionTest.chosenGammaBaseUrl := Some "https://data-api.polymarket.com";
           ConnectionTest.gammaError := None |}.
Proof.
  destruct (connection_test_accepts_any_response "https://data-api.polymarket.com/"
              (Scripted.fresh Scripted.data_api_v1)) as (_ & _ & _ & Hfirst).
  rewrite (Hfirst {| data := Js.VString "Not Found"; status := 404 |} Scripted.data_api_v1).
  - reflexivity.
  - done.
  - reflexivity.
Defined.

(** ** The trade pipeline of the backend engine *)

Section PipelineLemmas.
Import Batching.

Lemma executed_all {T} (trades : list T) (c : Q) (fuel : nat) :
  (1 <= c)%Q → (length trades < fuel)%nat → executed fuel trades (Js.Num c) = Some trades.
Proof.
  intros Hc Hfuel. unfold executed, chunkArray.
  destruct (chunk_loop_partitions trades c fuel Hc 0 []) as (rest & -> & Hall & _);
    [lra|done|simpl; lia|].
  by rewrite <- Hall.
Qed.

Lemma to_integer_floor (b : Q) : (1 <= b)%Q → to_integer (Js.Num b) = Qfloor b.
Proof. intros Hb. apply to_integer_nonneg. lra. Qed.

Lemma Qfloor_ge_one (b : Q) : (1 <= b)%Q → (1 <= Qfloor b)%Z.
Proof. intros Hb. by apply (Qfloor_resp_le 1 b) in Hb. Qed.

Lemma Qfloor_le_int (b : Q) (n : Z) : (b <= inject_Z n)%Q → (Qfloor b <= n)%Z.
Proof. intros Hb. apply Qfloor_resp_le in Hb. by rewrite Qfloor_Z in Hb. Qed.

End PipelineLemmas.

Section PipelineProperties.
Context `{Js.Builtins}.
Variable toLowerCase : string → string.
Import Pipeline.

(** X24. One call of [processTrade] on an engine whose batch size and
    concurrency are numbers not below 1 and whose queue is shorter than
    the batch size: the call returns; a trade of a wallet that is not
    watched, or any trade while the engine is not running, changes
    nothing; an accepted trade becomes one copy trade of size
    [trade.size * copyFactor] at the end of the line, and the copy trades
    handed to execution followed by those waiting are the same sequence
    as before with the new one appended: none is lost, repeated or
    overtaken. The queue stays shorter than the batch size, and nothing
    is handed to execution before the queue reaches the batch size: until
    then the copy trades wait. *)
Theorem copy_trades_wait_for_a_full_batch (fuel : nat) (now : Q) (trade : Trade) (e : t)
    (b c : Q) :
  HighPerformanceCopyTrader.batchSize (config e) = Js.Num b → (1 <= b)%Q →
  HighPerformanceCopyTrader.maxConcurrentTrades (config e) = Js.Num c → (1 <= c)%Q →
  (inject_Z (Z.of_nat (length (copyTradeQueue e))) < b)%Q →
  (length (copyTradeQueue e) + 1 < fuel)%nat →
  ∃ e',
    processTrade toLowerCase fuel now trade e = Some e'
    ∧ isRunning e' = isRunning e ∧ targetAddresses e' = targetAddresses e
    ∧ config e' = config e
    ∧ (inject_Z (Z.of_nat (length (copyTradeQueue e'))) < b)%Q
    ∧ (isRunning e = false ∨ toLowerCase (walletAddress trade) ∉ targetAddresses e → e' = e)
    ∧ (isRunning e = true → toLowerCase (walletAddress trade) ∈ targetAddresses e →
       ∃ copyTrade,
         originalTrade copyTrade = trade
         ∧ copySize copyTrade
           = Js.mul (size trade) (HighPerformanceCopyTrader.copyFactor (config e))
         ∧ handed e' ++ copyTradeQueue e' = handed e ++ copyTradeQueue e ++ [copyTrade]
         ∧ ((inject_Z (Z.of_nat (length (copyTradeQueue e) + 1)) < b)%Q →
            handed e' = handed e ∧ copyTradeQueue e' = copyTradeQueue e ++ [copyTrade])).
Proof.
  intros Hbatch Hb Hconc Hc Hshort Hfuel. unfold processTrade.
  destruct (isRunning e) eqn:Hrun; cbn [negb orb].
  2: { exists e. repeat split; try done. }
  destruct (bool_decide_reflect (toLowerCase (walletAddress trade) ∈ targetAddresses e))
    as [Hin|Hout]; cbn [negb].
  2: { exists e. repeat split; try done. }
  set (copyTrade := {| copy_id := _; originalTrade := trade; copySize := _;
                       maxSlippage := _ |}).
  cbn [copyTradeQueue config]. rewrite Hbatch. unfold reaches.
  rewrite length_app. cbn [length].
  destruct (Qlt_le_dec (inject_Z (Z.of_nat (length (copyTradeQueue e) + 1))) b)
    as [Hwait|Hfull].
  - eexists. split; [done|]. cbn [isRunning targetAddresses config copyTradeQueue handed].
    rewrite length_app. cbn [length].
    repeat split; try done.
    + intros [?|?]; done.
    + intros _ _. exists copyTrade. by repeat split.
  - unfold processBatch. cbn [copyTradeQueue config handed isRunning targetAddresses].
    destruct (copyTradeQueue e ++ [copyTrade]) as [|first others] eqn:Hqueue;
      [by destruct (copyTradeQueue e)|].
    rewrite <- Hqueue, Hbatch, Hconc. unfold splice_front.
    rewrite to_integer_floor by done.
    pose proof (Qfloor_ge_one b Hb) as Hone.
    pose proof (Qfloor_le_int b _ Hfull) as Hfit.
    rewrite length_app. cbn [length].
    rewrite (Z.max_l (Qfloor b) 0), Z.min_l by lia.
    set (n := Z.to_nat (Qfloor b)).
    assert (1 ≤ n ≤ length (copyTradeQueue e) + 1)%nat as Hn by (unfold n; lia).
    rewrite executed_all; [|done|rewrite length_take, length_app; cbn [length]; lia].
    eexists. split; [done|].
    cbn [isRunning targetAddresses config copyTradeQueue handed].
    split; [done|]. split; [done|]. split; [done|]. split; [|split].
    + rewrite length_drop, length_app. cbn [length].
      eapply Qle_lt_trans; [|exact Hshort]. rewrite <- Zle_Qle. lia.
    + intros [?|?]; done.
    + intros _ _. exists copyTrade. split; [done|]. split; [done|]. split.
      * by rewrite <- app_assoc, take_drop.
      * intros Hwait. lra.
Qed.

End PipelineProperties.

(** The first trade of a watched wallet waits in the queue. *)
Lemma copy_trades_wait_for_a_full_batch_witness :
  ∃ e',
    Pipeline.processTrade (λ s, s) 2 1700000000000 Backend.trade Backend.engine = Some e'
    ∧ Pipeline.handed e' = []
    ∧ length (Pipeline.copyTradeQueue e') = 1%nat.
Proof.
  destruct (copy_trades_wait_for_a_full_batch (λ s, s) 2 1700000000000 Backend.trade
              Backend.engine 50 10 eq_refl ltac:(done) eq_refl ltac:(done) ltac:(done)
              ltac:(simpl; lia))
    as (e' & Hrun & _ & _ & _ & _ & _ & Haccepted).
  exists e'. split; [exact Hrun|].
  destruct Haccepted as (copyTrade & _ & _ & _ & Hwait); [done|set_solver|].
  destruct Hwait as [-> ->]; [done|]. split; reflexivity.
Defined.
